(** * qml-mooc: the helper functions and demonstration circuits of the
      cirq notebooks

    The notebooks [02_Measurements_and_Mixed_States] and
    [14_Quantum_Matrix_Inversion] and the notebook on the quantum Fourier
    transform and phase estimation contain a handful of Python helpers
    ([get_vector], [plot_histogram], [get_psuccess]) and literal circuits
    ([qft], [hhl]).  They are embedded here as Rocq definitions, and the
    statements the specification makes about them are proved or refuted.
    Further properties follow for the rest of their code: the gates [u3]
    and [u1], the cells of [hhl], the histogram of a run, the
    phase-estimation circuits, and the cells of the notebook on
    probabilistic graphical models (degeneracies, annealing schedule,
    adjacency sets, simulated annealing with clamped spins).

    Conventions of the embedding.
    - A Python exception is a value of [exn]; a fallible computation returns
      [result A].
    - Python [int] is [Z]; the quotient of two [int]s is an exact rational.
    - Python [float] and [complex] are idealised as real numbers [R] and
      pairs of reals; the functions of [cmath] are their principal values. *)

From Stdlib Require Import ZArith QArith Reals Lra Lia RNsatz.
From stdpp Require Import base option list gmap strings.

Set Default Proof Using "Type".

(** ** Python exceptions and fallible computations *)

Inductive exn : Type :=
  | KeyError
  | ZeroDivisionError
  | ValueError.

Inductive result (A : Type) : Type :=
  | Ok (a : A)
  | Raise (e : exn).
Arguments Ok {A} a.
Arguments Raise {A} e.

#[global] Instance result_ret : MRet result := fun A a => Ok a.
#[global] Instance result_bind : MBind result := fun A B k m =>
  match m with
  | Ok a => k a
  | Raise e => Raise e
  end.

(** [try: m except e: h] *)
Definition try_except {A : Type} (m : result A) (e : exn) (h : A) : result A :=
  match m with
  | Ok a => Ok a
  | Raise e' =>
      match e, e' with
      | KeyError, KeyError
      | ZeroDivisionError, ZeroDivisionError
      | ValueError, ValueError => Ok h
      | _, _ => Raise e'
      end
  end.

(** ** The [cmath] functions the helpers call

    Complex numbers are pairs of reals.  Every function is the principal
    value that [cmath] documents; [acos] follows the formula CPython
    evaluates (two square roots, [atan2] and [asinh]).  Signed zeros,
    rounding and overflow have no counterpart here. *)

Module cmath.

Local Open Scope R_scope.

Record complex : Type := Complex { real : R; imag : R }.

(** A [float] or an [int] met in complex arithmetic. *)
Definition of_float (x : R) : complex := Complex x 0.

(** The literal [1j]. *)
Definition j : complex := Complex 0 1.

Definition pi : R := PI.

Definition neg (z : complex) : complex := Complex (- real z) (- imag z).

Definition mul (a b : complex) : complex :=
  Complex (real a * real b - imag a * imag b)
          (real a * imag b + imag a * real b).

Definition add (a b : complex) : complex :=
  Complex (real a + real b) (imag a + imag b).

Definition sub (a b : complex) : complex :=
  Complex (real a - real b) (imag a - imag b).

(** [z == 0] *)
Definition is_zero (z : complex) : bool :=
  if Req_dec_T (real z) 0 then
    if Req_dec_T (imag z) 0 then true else false
  else false.

(** [a / b]: complex division raises [ZeroDivisionError] on a zero
    divisor. *)
Definition truediv (a b : complex) : result complex :=
  if is_zero b then Raise ZeroDivisionError
  else
    let d := (real b * real b + imag b * imag b)%R in
    Ok (Complex ((real a * real b + imag a * imag b) / d)
                ((imag a * real b - real a * imag b) / d)).

(** [abs(z)] *)
Definition abs (z : complex) : R :=
  R_sqrt.sqrt (real z * real z + imag z * imag z).

Definition atan2 (y x : R) : R :=
  if Rlt_dec 0 x then atan (y / x)
  else if Rlt_dec x 0 then
    if Rle_dec 0 y then atan (y / x) + PI else atan (y / x) - PI
  else if Rlt_dec 0 y then PI / 2
  else if Rlt_dec y 0 then - (PI / 2)
  else 0.

Definition phase (z : complex) : R := atan2 (imag z) (real z).

Definition exp (z : complex) : complex :=
  Complex (Rtrigo_def.exp (real z) * Rtrigo_def.cos (imag z))
          (Rtrigo_def.exp (real z) * Rtrigo_def.sin (imag z)).

(** [cmath.log(0)] raises [ValueError]. *)
Definition log (z : complex) : result complex :=
  if is_zero z then Raise ValueError
  else Ok (Complex (ln (abs z)) (phase z)).

(** Principal square root: non-negative real part, the imaginary part has
    the sign of the argument's. *)
Definition sqrt (z : complex) : complex :=
  Complex (R_sqrt.sqrt ((abs z + real z) / 2))
          ((if Rle_dec 0 (imag z) then 1 else -1)
           * R_sqrt.sqrt ((abs z - real z) / 2)).

Definition acos (z : complex) : complex :=
  let s1 := sqrt (Complex (1 - real z) (- imag z)) in
  let s2 := sqrt (Complex (1 + real z) (imag z)) in
  Complex (2 * atan2 (real s1) (real s2))
          (arcsinh (real s2 * imag s1 - imag s2 * real s1)).

Definition sin (z : complex) : complex :=
  Complex (Rtrigo_def.sin (real z) * cosh (imag z))
          (Rtrigo_def.cos (real z) * sinh (imag z)).

Definition cos (z : complex) : complex :=
  Complex (Rtrigo_def.cos (real z) * cosh (imag z))
          (- (Rtrigo_def.sin (real z) * sinh (imag z))).

Definition rel_tol : R := 1 / 10 ^ 9.
Definition abs_tol : R := 0.

(** [cmath.isclose(a, b)] with the default tolerances [rel_tol=1e-09],
    [abs_tol=0.0]. *)
Definition isclose (a b : complex) : bool :=
  if is_zero (sub a b) then true
  else
    let diff := abs (sub a b) in
    if Rle_dec diff (rel_tol * abs b) then true
    else if Rle_dec diff (rel_tol * abs a) then true
    else if Rle_dec diff abs_tol then true
    else false.

(** Not a function of [cmath]: the rotation by [-t], which is what the
    division by [exp(1j*t)] computes. *)
Definition rotate (z : complex) (t : R) : complex :=
  Complex (real z * Rtrigo_def.cos t + imag z * Rtrigo_def.sin t)
          (imag z * Rtrigo_def.cos t - real z * Rtrigo_def.sin t).

End cmath.

(** ** Notebook 02: the Bloch vector of a qubit state *)

Module Bloch.

Import cmath (complex, Complex, real, imag, of_float).

Local Open Scope R_scope.

(** [x < y] and [x == y] on floats. *)
Definition Rltb (x y : R) : bool := if Rlt_dec x y then true else false.
Definition Reqb (x y : R) : bool := if Req_dec_T x y then true else false.

(** The phase after the rounding guard: a phase close to [pi] becomes the
    [int] 0. *)
Definition snap (angle : R) : R :=
  if cmath.isclose (of_float angle) (of_float cmath.pi) then 0 else angle.

(** The divisor that removes the global phase. *)
Definition denominator (angle_alpha angle_beta : R) : complex :=
  if (Rltb angle_beta 0 && Rltb angle_alpha angle_beta)
     || (Rltb 0 angle_beta && Rltb angle_beta angle_alpha)
  then cmath.exp (cmath.mul cmath.j (of_float angle_beta))
  else cmath.exp (cmath.mul cmath.j (of_float angle_alpha)).

(** The body of [get_vector] from the comment [# eliminate global phase]
    on, for the divisor chosen above it. *)
Definition cartesian (alpha beta denominator : complex) : result (list R) :=
  (* eliminate global phase *)
  alpha_new ← cmath.truediv alpha denominator;
  beta_new ← cmath.truediv beta denominator;
  (* special case to avoid division by zero *)
  if Reqb (cmath.abs alpha) 0 || Reqb (cmath.abs beta) 0 then
    if cmath.is_zero alpha then mret [0; 0; -1]
    else mret [0; 0; 1]
  else
    (* compute theta and phi from alpha and beta *)
    let theta := cmath.mul (of_float 2) (cmath.acos alpha_new) in
    half_theta ← cmath.truediv theta (of_float 2);
    quotient ← cmath.truediv beta_new (cmath.sin half_theta);
    logarithm ← cmath.log quotient;
    let phi := cmath.mul (cmath.neg cmath.j) logarithm in
    (* compute the Cartesian coordinates *)
    let x := cmath.mul (cmath.sin theta) (cmath.cos phi) in
    let y := cmath.mul (cmath.sin theta) (cmath.sin phi) in
    let z := cmath.cos theta in
    mret [real x; real y; real z].

Definition get_vector (alpha beta : complex) : result (list R) :=
  (* get phases *)
  let angle_alpha := cmath.phase alpha in
  let angle_beta := cmath.phase beta in
  (* avoiding wrong normalization due to rounding errors *)
  let angle_alpha := snap angle_alpha in
  let angle_beta := snap angle_beta in
  cartesian alpha beta (denominator angle_alpha angle_beta).

(** *** Particular states

    [alpha0 = (-1+i)/2] and [beta0 = (1+i)/2]: a normalised pair whose
    phases are [3pi/4] and [pi/4]. *)
Definition alpha0 : complex := Complex (-1 / 2) (1 / 2).
Definition beta0 : complex := Complex (1 / 2) (1 / 2).

(** [alpha1 = 1/sqrt(2)] and [beta1 = -i/sqrt(2)]: the same state up to
    the global phase [e^(i 3pi/4)]. *)
Definition alpha1 : complex := Complex (1 / sqrt 2) 0.
Definition beta1 : complex := Complex 0 (- (1 / sqrt 2)).

(** [e^(i phi) * z] *)
Definition global_phase (phi : R) (z : complex) : complex :=
  cmath.mul (cmath.exp (cmath.mul cmath.j (of_float phi))) z.

End Bloch.

(** ** Notebook 02: the histogram of measurement results *)

Module plt.

(** The current figure of [matplotlib.pyplot], as far as [plot_histogram]
    touches it: the bars drawn (position, height), the ticks of the x axis
    (position, label) and whether the figure has been shown. *)
Record figure (K : Type) : Type :=
  Figure { bars : list (nat * Z); ticks : list (nat * K); shown : bool }.
Arguments Figure {K} bars ticks shown.
Arguments bars {K} f.
Arguments ticks {K} f.
Arguments shown {K} f.

Definition blank {K : Type} : figure K := Figure [] [] false.

(** [plt.bar(x, height)]: one bar per position; sequences of different
    lengths do not broadcast. *)
Definition bar {K : Type} (x : list nat) (height : list Z) (fig : figure K)
  : result (figure K) :=
  if Nat.eqb (length x) (length height)
  then Ok (Figure (bars fig ++ zip x height) (ticks fig) (shown fig))
  else Raise ValueError.

(** [plt.xticks(ticks, labels)]: replaces the ticks of the x axis. *)
Definition xticks {K : Type} (x : list nat) (labels : list K) (fig : figure K)
  : result (figure K) :=
  if Nat.eqb (length x) (length labels)
  then Ok (Figure (bars fig) (zip x labels) (shown fig))
  else Raise ValueError.

(** [plt.show()] *)
Definition show {K : Type} (fig : figure K) : result (figure K) :=
  Ok (Figure (bars fig) (ticks fig) true).

End plt.

Module Histogram.

(** [np.arange(n)] *)
Definition arange (n : nat) : list nat := seq 0 n.

(** A [dict] in iteration order. *)
Definition keys {K V : Type} (counts : list (K * V)) : list K := counts.*1.
Definition values {K V : Type} (counts : list (K * V)) : list V := counts.*2.

Definition plot_histogram {K : Type} (counts : list (K * Z))
    (fig : plt.figure K) : result (plt.figure K) :=
  let x := arange (length counts) in
  fig ← plt.bar x (values counts) fig;
  fig ← plt.xticks x (keys counts) fig;
  plt.show fig.

End Histogram.

(** ** The part of [cirq] the notebooks use *)

Module cirq.

Import cmath (complex, Complex, real, imag, of_float).

Local Open Scope R_scope.

Inductive qubit : Type :=
  | LineQubit (x : nat)
  | GridQubit (row col : nat).

#[global] Instance qubit_eq_dec : EqDecision qubit.
Proof. solve_decision. Defined.

Inductive gate : Type :=
  | H
  | CNOT
  | SWAP
  | CCX
  | Rz (rads : R)
  | Ry (rads : R)
  | CZPowGate (exponent : R)
  | MatrixGate (matrix : list (list complex))
  | ControlledGate (sub_gate : gate)
  | MeasurementGate (key : string).

Record operation : Type := Operation { gate_of : gate; qubits : list qubit }.

(** [gate.on(q, ...)], also written [gate(q, ...)] *)
Definition on (g : gate) (qs : list qubit) : operation := Operation g qs.

(** [gate.on_each(qubits)] *)
Definition on_each (g : gate) (qs : list qubit) : list operation :=
  (fun q => on g [q]) <$> qs.

(** [cirq.measure(q, ..., key=key)] *)
Definition measure (qs : list qubit) (key : string) : operation :=
  Operation (MeasurementGate key) qs.

(** [cirq.CZ(qa, qb)**t]: [cirq.CZ] is the [CZPowGate] of exponent 1, and
    raising to the power [t] multiplies the exponent by [t]. *)
Definition CZ_pow (qa qb : qubit) (t : R) : operation :=
  Operation (CZPowGate (1 * t)) [qa; qb].

(** A circuit, as the sequence of its operations in the order they were
    appended. *)
Definition Circuit : Type := list operation.

Definition append (c : Circuit) (ops : list operation) : Circuit := c ++ ops.

Definition is_measurement (op : operation) : bool :=
  match gate_of op with
  | MeasurementGate _ => true
  | _ => false
  end.

Definition all_qubits (c : Circuit) : list qubit :=
  remove_dups (c ≫= qubits).

(** *** State vectors

    A state of [n] qubits is the list of its [2^n] amplitudes; the first
    qubit of the qubit order is the most significant bit of the index. *)

Definition state : Type := list complex.

Definition amplitude (psi : state) (i : nat) : complex :=
  nth i psi (Complex 0 0).

(** The position in the index of the bit of wire [w], of [n] wires. *)
Definition bit_of (n w : nat) : nat := (n - 1 - w)%nat.

Definition scale (c : R) (z : complex) : complex :=
  Complex (c * real z) (c * imag z).

(** The Hadamard gate on wire [w]. *)
Definition apply_H (n w : nat) (psi : state) : state :=
  (fun i =>
     let a0 := amplitude psi (Nat.clearbit i (bit_of n w)) in
     let a1 := amplitude psi (Nat.setbit i (bit_of n w)) in
     scale (1 / sqrt 2)
       (if Nat.testbit i (bit_of n w)
        then cmath.sub a0 a1 else cmath.add a0 a1))
  <$> seq 0 (2 ^ n).

(** [CZPowGate(exponent=t)] on wires [a] and [b]: the amplitudes whose two
    bits are set are multiplied by [exp(i pi t)]. *)
Definition apply_CZPow (t : R) (n a b : nat) (psi : state) : state :=
  (fun i =>
     if Nat.testbit i (bit_of n a) && Nat.testbit i (bit_of n b)
     then cmath.mul (cmath.exp (cmath.mul cmath.j (of_float (PI * t))))
                    (amplitude psi i)
     else amplitude psi i)
  <$> seq 0 (2 ^ n).

(** The wire of a qubit: its position in the qubit order. *)
Definition wire (order : list qubit) (q : qubit) : option nat :=
  fst <$> list_find (fun q' => q' = q) order.

(** One operation of a circuit of Hadamard and [CZPowGate] operations. *)
Definition apply_operation (order : list qubit) (op : operation) (psi : state)
  : option state :=
  let n := length order in
  match gate_of op, qubits op with
  | H, [q] => w ← wire order q; Some (apply_H n w psi)
  | CZPowGate t, [qa; qb] =>
      a ← wire order qa; b ← wire order qb; Some (apply_CZPow t n a b psi)
  | _, _ => None
  end.

(** [simulator.simulate(circuit, initial_state=psi).final_state_vector] *)
Fixpoint simulate (order : list qubit) (c : Circuit) (psi : state)
  : option state :=
  match c with
  | [] => Some psi
  | op :: c' => psi' ← apply_operation order op psi; simulate order c' psi'
  end.

End cirq.

(** ** The quantum Fourier transform on three qubits *)

Module Qft.

Import cmath (complex, Complex, real, imag, of_float).

Local Open Scope R_scope.

Definition q0 : cirq.qubit := cirq.GridQubit 0 0.
Definition q1 : cirq.qubit := cirq.GridQubit 1 0.
Definition q2 : cirq.qubit := cirq.GridQubit 2 0.

Definition qft : cirq.Circuit :=
  [ cirq.on cirq.H [q0];
    cirq.CZ_pow q1 q0 0.5;
    cirq.on cirq.H [q1];
    cirq.CZ_pow q2 q0 0.25;
    cirq.CZ_pow q2 q1 0.5;
    cirq.on cirq.H [q2] ].

(** The state the simulator returns for [qft] on the initial state [x].
    The qubit order is the default one, the sorted qubits of the circuit. *)
Definition qft_output (x : cirq.state) : option cirq.state :=
  cirq.simulate [q0; q1; q2] qft x.

(** The discrete Fourier transform the notebook states:
    [y_k = 1/sqrt(N) * sum_j x_j * e^(2 pi i j k / N)]. *)
Definition fourier_sum (N : nat) (x : cirq.state) (k : nat) : complex :=
  foldr cmath.add (Complex 0 0)
    ((fun j =>
        cmath.mul (cirq.amplitude x j)
          (cmath.exp (cmath.mul cmath.j
             (of_float (2 * PI * INR j * INR k / INR N)))))
     <$> seq 0 N).

Definition fourier (N : nat) (x : cirq.state) (k : nat) : complex :=
  cirq.scale (1 / sqrt (INR N)) (fourier_sum N x k).

(** The state vector [qft_output] computes on eight given amplitudes,
    written out. *)
Definition qft_amplitudes (x0 x1 x2 x3 x4 x5 x6 x7 : complex)
  : option cirq.state :=
  Eval cbv -[cmath.add cmath.sub cmath.mul cmath.exp cirq.scale of_float
             cmath.j Rdiv Rmult IZR Q2R sqrt PI] in
  qft_output [x0; x1; x2; x3; x4; x5; x6; x7].

(** The index whose three bits are those of [k] in reverse order. *)
Definition reverse_bits (k : nat) : nat :=
  ((if Nat.testbit k 0 then 4 else 0)
   + (if Nat.testbit k 1 then 2 else 0)
   + (if Nat.testbit k 2 then 1 else 0))%nat.

(** The eighth roots of unity [e^(2 pi i r / 8)], for [r < 8]. *)
Definition omega8 (r : nat) : complex :=
  match r with
  | 0%nat => Complex 1 0
  | 1%nat => Complex (1 / sqrt 2) (1 / sqrt 2)
  | 2%nat => Complex 0 1
  | 3%nat => Complex (-1 / sqrt 2) (1 / sqrt 2)
  | 4%nat => Complex (-1) 0
  | 5%nat => Complex (-1 / sqrt 2) (-1 / sqrt 2)
  | 6%nat => Complex 0 (-1)
  | _ => Complex (1 / sqrt 2) (-1 / sqrt 2)
  end.

(** The basis state [|001>]: the amplitude of index 1 is 1. *)
Definition basis_1 : cirq.state :=
  [ Complex 0 0; Complex 1 0; Complex 0 0; Complex 0 0;
    Complex 0 0; Complex 0 0; Complex 0 0; Complex 0 0 ].

End Qft.

(** ** Notebook 14: the HHL circuit and its success probability *)

Module Hhl.

Import cmath (complex, Complex, real, imag, of_float).

(** [np.pi] *)
Definition π : R := PI.

Section Gates.
Local Open Scope R_scope.

Definition u3 (t p l : R) : cirq.gate :=
  let matrix :=
    [ [ of_float (cos (t / 2));
        cmath.mul (cmath.neg (cmath.exp (cmath.mul cmath.j (of_float l))))
                  (of_float (sin (t / 2))) ];
      [ cmath.mul (cmath.exp (cmath.mul cmath.j (of_float p)))
                  (of_float (sin (t / 2)));
        cmath.mul (cmath.exp (cmath.mul cmath.j (of_float (p + l))))
                  (of_float (cos (t / 2))) ] ] in
  cirq.MatrixGate matrix.

Definition cu3 (t p l : R) : cirq.gate := cirq.ControlledGate (u3 t p l).

Definition u1 (l : R) : cirq.gate := u3 0 0 l.

Definition cu1 (l : R) : cirq.gate := cu3 0 0 l.

(** [q = cirq.LineQubit.range(6)] and [q[i]] *)
Definition q : list cirq.qubit := cirq.LineQubit <$> seq 0 6.

Definition q_ (i : nat) : cirq.qubit := nth i q (cirq.LineQubit 0).

(** The arguments of the successive [hhl.append] calls. *)
Definition hhl_appends : list (list cirq.operation) :=
  [ (* Superposition *)
    cirq.on_each cirq.H [q_ 1; q_ 2];
    (* Controlled-U0 *)
    [cirq.on (cu3 (-π/2) (-π/2) (π/2)) [q_ 2; q_ 3]];
    [cirq.on (cu1 (3*π/4)) [q_ 2; q_ 3]];
    [cirq.on cirq.CNOT [q_ 2; q_ 3]];
    [cirq.on (cu1 (3*π/4)) [q_ 2; q_ 3]];
    [cirq.on cirq.CNOT [q_ 2; q_ 3]];
    (* Controlled-U1 *)
    [cirq.on cirq.CNOT [q_ 1; q_ 3]];
    (* inverse Fourier transformation *)
    [cirq.on cirq.SWAP [q_ 1; q_ 2]];
    [cirq.on cirq.H [q_ 2]];
    [cirq.on (cu1 (-π/2)) [q_ 1; q_ 2]];
    [cirq.on cirq.H [q_ 1]];
    (* inversion of the eigenvalues *)
    [cirq.on cirq.SWAP [q_ 1; q_ 2]];
    (* conditional rotation of the ancilla *)
    [cirq.on (cu3 0.392699 0 0) [q_ 1; q_ 0]];
    [cirq.on (cu3 0.19634955 0 0) [q_ 2; q_ 0]];
    (* uncomputing the eigenvalue register *)
    [cirq.on cirq.SWAP [q_ 1; q_ 2]];
    [cirq.on cirq.H [q_ 1]];
    [cirq.on (cu1 (π/2)) [q_ 1; q_ 2]];
    [cirq.on cirq.H [q_ 2]];
    [cirq.on cirq.SWAP [q_ 2; q_ 1]];
    [cirq.on cirq.CNOT [q_ 1; q_ 3]];
    [cirq.on cirq.CNOT [q_ 2; q_ 3]];
    [cirq.on (cu1 (-3*π/4)) [q_ 2; q_ 3]];
    [cirq.on cirq.CNOT [q_ 2; q_ 3]];
    [cirq.on (cu1 (-3*π/4)) [q_ 2; q_ 3]];
    [cirq.on (cu3 (-π/2) (π/2) (-π/2)) [q_ 2; q_ 3]];
    cirq.on_each cirq.H [q_ 1; q_ 2];
    (* Target state preparation *)
    [cirq.on (cirq.Rz (-π)) [q_ 4]];
    [cirq.on (u1 π) [q_ 4]];
    [cirq.on cirq.H [q_ 4]];
    [cirq.on (cirq.Ry (-0.9311623288419387)) [q_ 4]];
    [cirq.on (cirq.Rz π) [q_ 4]];
    (* Swap test *)
    [cirq.on cirq.H [q_ 5]];
    [cirq.on cirq.CNOT [q_ 4; q_ 3]];
    [cirq.on cirq.CCX [q_ 5; q_ 3; q_ 4]];
    [cirq.on cirq.CNOT [q_ 4; q_ 3]];
    [cirq.on cirq.H [q_ 5]];
    [cirq.measure [q_ 0; q_ 5] "result"] ].

(** [hhl = cirq.Circuit()] followed by the appends. *)
Definition hhl : cirq.Circuit := foldl cirq.append [] hhl_appends.

End Gates.

(** [counts[key]] on a [dict]: a missing key raises [KeyError]. *)
Definition getitem (counts : gmap string Z) (key : string) : result Z :=
  match counts !! key with
  | Some n => Ok n
  | None => Raise KeyError
  end.

(** [a / b] on two [int]s: the exact quotient, [ZeroDivisionError] when
    [b] is zero. *)
Definition int_truediv (a b : Z) : result Q :=
  if Z.eqb b 0 then Raise ZeroDivisionError
  else Ok (Qdiv (inject_Z a) (inject_Z b)).

Definition get_psuccess (counts : gmap string Z) : result Q :=
  succ_rotation_fail_swap ← try_except (getitem counts "11") KeyError 0%Z;
  succ_rotation_succ_swap ← try_except (getitem counts "01") KeyError 0%Z;
  let succ_rotation := (succ_rotation_succ_swap + succ_rotation_fail_swap)%Z in
  prob_swap_test_success ←
    try_except (int_truediv succ_rotation_succ_swap succ_rotation)
               ZeroDivisionError 0%Q;
  mret prob_swap_test_success.

(** A histogram of 100 repetitions. *)
Definition sample_counts : gmap string Z :=
  <["00" := 90%Z]> (<["01" := 6%Z]> (<["10" := 3%Z]> (<["11" := 1%Z]> ∅))).

End Hhl.

(** ** Complex matrices, to state what the gates of notebook 14 are *)

Module Matrix.

Import cmath (complex, Complex, real, imag, of_float).

Local Open Scope R_scope.

Abbreviation matrix := (list (list complex)).

Definition conj (z : complex) : complex := Complex (real z) (- imag z).

Definition dot (u v : list complex) : complex :=
  foldr cmath.add (Complex 0 0) (zip_with cmath.mul u v).

Definition column (m : matrix) (j : nat) : list complex :=
  (fun row : list complex => nth j row (Complex 0 0)) <$> m.

Definition transpose (m : matrix) : matrix :=
  match m with
  | [] => []
  | row :: _ => column m <$> seq 0 (length row)
  end.

(** [m.T.conj()] *)
Definition dagger (m : matrix) : matrix :=
  (fun row : list complex => conj <$> row) <$> transpose m.

(** [a @ b] *)
Definition matmul (a b : matrix) : matrix :=
  (fun row : list complex => dot row <$> transpose b) <$> a.

Definition identity2 : matrix :=
  [ [Complex 1 0; Complex 0 0]; [Complex 0 0; Complex 1 0] ].

(** The matrix a [MatrixGate] was built from. *)
Definition of_gate (g : cirq.gate) : option matrix :=
  match g with
  | cirq.MatrixGate m => Some m
  | _ => None
  end.

(** *** The matrices of the gates of [hhl], evaluated *)

(** [diag(1, e^(i l))], the phase gate of angle [l]. *)
Definition phase_matrix (l : R) : matrix :=
  [ [Complex 1 0; Complex 0 0]; [Complex 0 0; Complex (cos l) (sin l)] ].

(** The real rotation [[cos(t/2), -sin(t/2)], [sin(t/2), cos(t/2)]]. *)
Definition rotation_matrix (t : R) : matrix :=
  [ [Complex (cos (t / 2)) 0; Complex (- sin (t / 2)) 0];
    [Complex (sin (t / 2)) 0; Complex (cos (t / 2)) 0] ].

(** [[1, sgn*i], [sgn*i, 1]] / sqrt 2 *)
Definition evolution_matrix (sgn : R) : matrix :=
  [ [Complex (1 / sqrt 2) 0; Complex 0 (sgn / sqrt 2)];
    [Complex 0 (sgn / sqrt 2); Complex (1 / sqrt 2) 0] ].

End Matrix.


(** ** The cells of the circuit [hhl] *)

Module Uncompute.

Import Matrix.

(** The appends of the cells that estimate the phase: the superposition and
    the controlled evolutions, the inverse Fourier transformation, and the
    swap that inverts the eigenvalues. *)
Definition phase_estimation : list (list cirq.operation) :=
  take 12 Hhl.hhl_appends.

(** The two controlled rotations of the ancilla. *)
Definition conditional_rotation : list (list cirq.operation) :=
  take 2 (drop 12 Hhl.hhl_appends).

(** The appends of the cell that uncomputes the eigenvalue register. *)
Definition uncomputation : list (list cirq.operation) :=
  take 12 (drop 14 Hhl.hhl_appends).

(** The preparation of the target state, the swap test and the
    measurement. *)
Definition swap_test : list (list cirq.operation) :=
  drop 26 Hhl.hhl_appends.

(** [undoes op op']: [op'] is the inverse of [op].  The gates [H], [CNOT]
    and [SWAP] are their own inverses, [SWAP] in either order of its
    qubits; a controlled matrix gate is undone by the controlled gate of
    the inverse matrix on the same qubits. *)
Inductive undoes : cirq.operation -> cirq.operation -> Prop :=
  | undoes_H (q : cirq.qubit) :
      undoes (cirq.on cirq.H [q]) (cirq.on cirq.H [q])
  | undoes_CNOT (c t : cirq.qubit) :
      undoes (cirq.on cirq.CNOT [c; t]) (cirq.on cirq.CNOT [c; t])
  | undoes_SWAP (a b : cirq.qubit) :
      undoes (cirq.on cirq.SWAP [a; b]) (cirq.on cirq.SWAP [a; b])
  | undoes_SWAP_sym (a b : cirq.qubit) :
      undoes (cirq.on cirq.SWAP [a; b]) (cirq.on cirq.SWAP [b; a])
  | undoes_controlled (g g' : cirq.gate) (m m' : matrix)
        (qs : list cirq.qubit) :
      of_gate g = Some m -> of_gate g' = Some m' ->
      matmul m' m = identity2 -> matmul m m' = identity2 ->
      undoes (cirq.on (cirq.ControlledGate g) qs)
             (cirq.on (cirq.ControlledGate g') qs).

End Uncompute.
(** ** Notebook 14: from the samples of [hhl] to the success probability *)

Module HhlRun.

Import Stdlib.Strings.Ascii.

(** [str(int(b))] for a measured bit *)
Definition digit (b : bool) : ascii := if b then "1"%char else "0"%char.

(** [fold_func = lambda ms: ''.join(np.flip(ms, 0).astype(int).astype(str))]:
    the bits of one repetition, last qubit first. *)
Definition fold_func (ms : list bool) : string :=
  foldr (fun b s => String (digit b) s) EmptyString (reverse ms).

(** [result.histogram(key=..., fold_func=fold)]: the [Counter] of the folded
    rows, one row of bits per repetition. *)
Definition histogram (fold : list bool -> string) (rows : list (list bool))
  : gmap string Z :=
  foldl (fun c row => <[fold row := (default 0 (c !! fold row) + 1)%Z]> c)
        ∅ rows.

(** [get_psuccess(result.histogram(key='result', fold_func=fold_func))] *)
Definition psuccess_of_run (rows : list (list bool)) : result Q :=
  Hhl.get_psuccess (histogram fold_func rows).

(** The number of rows that [fold] sends to [key]. *)
Definition occurrences (fold : list bool -> string) (key : string)
    (rows : list (list bool)) : Z :=
  Z.of_nat (length (filter (fun row => fold row = key) rows)).

(** Five repetitions, each the bits of [q[0]] and [q[5]]. *)
Definition sample_rows : list (list bool) :=
  [ [false; false]; [true; false]; [true; true]; [true; false];
    [false; true] ].

End HhlRun.

(** ** Quantum phase estimation on two qubits and an ancilla *)

Module Qpe.

Import cmath (complex, Complex, real, imag, of_float).

Local Open Scope R_scope.

(** The gates of the phase-estimation circuits: those of [cirq.gate] and
    [cirq.X]. *)
Inductive gate : Type :=
  | X
  | Gate (g : cirq.gate).

Record operation : Type :=
  Operation { gate_of : gate; qubits : list cirq.qubit }.

Definition on (g : gate) (qs : list cirq.qubit) : operation := Operation g qs.

Definition of_cirq (op : cirq.operation) : operation :=
  Operation (Gate (cirq.gate_of op)) (cirq.qubits op).

Definition is_measurement (op : operation) : bool :=
  match gate_of op with
  | Gate (cirq.MeasurementGate _) => true
  | _ => false
  end.

Definition q0 : cirq.qubit := cirq.GridQubit 0 0.
Definition q1 : cirq.qubit := cirq.GridQubit 1 0.
Definition ancilla : cirq.qubit := cirq.GridQubit 2 0.

(** [cirq.CZ(qa, qb)] *)
Definition CZ (qa qb : cirq.qubit) : operation :=
  on (Gate (cirq.CZPowGate 1)) [qa; qb].

(** The first circuit, for the eigenvector [|0>]: built from two Hadamard
    gates and two [append] calls. *)
Definition qpe_0 : list operation :=
  ([ on (Gate cirq.H) [q0]; on (Gate cirq.H) [q1] ]
   ++ [ CZ q1 ancilla ])
  ++ [ on (Gate cirq.SWAP) [q0; q1];
       on (Gate cirq.H) [q1];
       of_cirq (cirq.CZ_pow q0 q1 (-1));
       on (Gate cirq.H) [q0];
       of_cirq (cirq.measure [q0] "q0");
       of_cirq (cirq.measure [q1] "q1") ].

(** The second circuit, for the eigenvector [|1>]. *)
Definition qpe_1 : list operation :=
  [ on X [ancilla]; (* create |1> in the main register *)
    on (Gate cirq.H) [q0];
    on (Gate cirq.H) [q1];
    CZ q1 ancilla;
    on (Gate cirq.SWAP) [q0; q1];
    on (Gate cirq.H) [q1];
    of_cirq (cirq.CZ_pow q0 q1 (-1));
    on (Gate cirq.H) [q0];
    of_cirq (cirq.measure [q0] "q0");
    of_cirq (cirq.measure [q1] "q1") ].

(** *** The action of the further gates on a state vector *)

Definition flip_bit (i b : nat) : nat :=
  if Nat.testbit i b then Nat.clearbit i b else Nat.setbit i b.

Definition write_bit (i b : nat) (v : bool) : nat :=
  if v then Nat.setbit i b else Nat.clearbit i b.

(** [cirq.X] on wire [w] *)
Definition apply_X (n w : nat) (psi : cirq.state) : cirq.state :=
  (fun i => cirq.amplitude psi (flip_bit i (cirq.bit_of n w)))
  <$> seq 0 (2 ^ n).

(** [cirq.SWAP] on wires [a] and [b] *)
Definition apply_SWAP (n a b : nat) (psi : cirq.state) : cirq.state :=
  (fun i =>
     let va := Nat.testbit i (cirq.bit_of n a) in
     let vb := Nat.testbit i (cirq.bit_of n b) in
     cirq.amplitude psi
       (write_bit (write_bit i (cirq.bit_of n a) vb) (cirq.bit_of n b) va))
  <$> seq 0 (2 ^ n).

(** [cirq.CNOT] with control [c] and target [t] *)
Definition apply_CNOT (n c t : nat) (psi : cirq.state) : cirq.state :=
  (fun i =>
     cirq.amplitude psi
       (if Nat.testbit i (cirq.bit_of n c)
        then flip_bit i (cirq.bit_of n t) else i))
  <$> seq 0 (2 ^ n).

Definition apply_operation (order : list cirq.qubit) (op : operation)
    (psi : cirq.state) : option cirq.state :=
  let n := length order in
  match gate_of op, qubits op with
  | X, [q] => w ← cirq.wire order q; Some (apply_X n w psi)
  | Gate cirq.SWAP, [qa; qb] =>
      a ← cirq.wire order qa; b ← cirq.wire order qb;
      Some (apply_SWAP n a b psi)
  | Gate cirq.CNOT, [qc; qt] =>
      c ← cirq.wire order qc; t ← cirq.wire order qt;
      Some (apply_CNOT n c t psi)
  | Gate g, qs => cirq.apply_operation order (cirq.Operation g qs) psi
  | _, _ => None
  end.

Fixpoint simulate (order : list cirq.qubit) (c : list operation)
    (psi : cirq.state) : option cirq.state :=
  match c with
  | [] => Some psi
  | op :: c' => psi' ← apply_operation order op psi; simulate order c' psi'
  end.

(** The basis state [|i>] of [n] qubits; [|0...0>] is the state a simulation
    starts from. *)
Definition basis_state (n i : nat) : cirq.state :=
  (fun k => if Nat.eqb k i then Complex 1 0 else Complex 0 0)
  <$> seq 0 (2 ^ n).

(** The state on which the final measurements of a circuit are sampled: the
    result of its other operations on [|0...0>]. *)
Definition state_before_measurement (order : list cirq.qubit)
    (c : list operation) : option cirq.state :=
  simulate order (filter (fun op => is_measurement op = false) c)
           (basis_state (length order) 0).

(** The probability that measuring the wires [ws] of [psi] gives the bits
    [bits]: the squared moduli of the amplitudes whose index has these
    bits. *)
Definition probability (n : nat) (ws : list nat) (bits : list bool)
    (psi : cirq.state) : R :=
  foldr Rplus 0
    ((fun i =>
        if forallb (fun wb => Bool.eqb (Nat.testbit i (cirq.bit_of n wb.1)) wb.2)
                   (zip ws bits)
        then real (cirq.amplitude psi i) * real (cirq.amplitude psi i)
             + imag (cirq.amplitude psi i) * imag (cirq.amplitude psi i)
        else 0)
     <$> seq 0 (2 ^ n)).

(** The circuit of the eigenvector [|b>]. *)
Definition qpe (b : bool) : list operation := if b then qpe_1 else qpe_0.

End Qpe.


(** ** Notebook 02: the circuits on two qubits *)

Module TwoQubits.

Import Qpe.

(** [q = [GridQubit(x, 0) for x in range(2)]] *)
Definition q : list cirq.qubit := (fun x => cirq.GridQubit x 0) <$> seq 0 2.

Definition q_ (i : nat) : cirq.qubit := nth i q (cirq.GridQubit 0 0).

(** The circuit that measures a superposition and an untouched qubit. *)
Definition product_circuit : list operation :=
  [ on (Gate cirq.H) [q_ 0];
    of_cirq (cirq.measure [q_ 0] "m0");
    of_cirq (cirq.measure [q_ 1] "m1") ].

(** The same circuit with a [CNOT] after the Hadamard gate. *)
Definition entangling_circuit : list operation :=
  [ on (Gate cirq.H) [q_ 0];
    on (Gate cirq.CNOT) [q_ 0; q_ 1];
    of_cirq (cirq.measure [q_ 0] "m0");
    of_cirq (cirq.measure [q_ 1] "m1") ].

End TwoQubits.
(** ** The notebook on probabilistic graphical models

    The sampler and the random number generator are outside: the energies
    of the sampled solutions, the colouring of the graph and the random
    draws are arguments of the functions below. *)

Module Pgm.

Local Open Scope R_scope.

(** [for x in l: body], the loop variables being threaded as [s]; an
    exception ends the loop. *)
Fixpoint for_each {S A : Type} (body : S -> A -> result S) (s : S)
    (l : list A) : result S :=
  match l with
  | [] => Ok s
  | x :: l' => s' ← body s x; for_each body s' l'
  end.

(** [d[k]] *)
Definition getitem `{Countable K} {V : Type} (d : gmap K V) (k : K)
  : result V :=
  match d !! k with
  | Some v => Ok v
  | None => Raise KeyError
  end.

(** [{k: f(k) for k in keys}] *)
Definition dict_comprehension `{Countable K} {V : Type} (keys : list K)
    (f : K -> result V) : result (gmap K V) :=
  for_each (fun d k => v ← f k; Ok (<[k := v]> d)) ∅ keys.

(** [x / y] on floats *)
Definition float_div (x y : R) : result R :=
  if Req_dec_T y 0 then Raise ZeroDivisionError else Ok (x / y).

(** *** The degeneracy of the energy levels *)

Definition temperature : R := 1.

(** A [dict] with float keys, in insertion order. *)
Abbreviation energy_dict := (list (R * Z)).

(** [E in g.keys()] and [g[E]] *)
Fixpoint lookup_energy (g : energy_dict) (E : R) : option Z :=
  match g with
  | [] => None
  | (E', n) :: g' => if Req_dec_T E' E then Some n else lookup_energy g' E
  end.

Definition get_energy (g : energy_dict) (E : R) : result Z :=
  match lookup_energy g E with
  | Some n => Ok n
  | None => Raise KeyError
  end.

(** [g[E] = n]: the value of an existing key is replaced where it stands, a
    new key goes to the end. *)
Fixpoint set_energy (g : energy_dict) (E : R) (n : Z) : energy_dict :=
  match g with
  | [] => [(E, n)]
  | (E', n') :: g' =>
      if Req_dec_T E' E then (E', n) :: g' else (E', n') :: set_energy g' E n
  end.

(** The loop over the energies of the aggregated solutions. *)
Definition degeneracy (energies : list R) : result energy_dict :=
  for_each
    (fun g E =>
       match lookup_energy g E with
       | Some _ => n ← get_energy g E; Ok (set_energy g E (n + 1)%Z)
       | None => Ok (set_energy g E 1%Z)
       end)
    [] energies.

(** The number of values equal to [E] in a list of floats. *)
Definition occurrences (energies : list R) (E : R) : Z :=
  Z.of_nat (count_occ Req_dec_T energies E).

(** [g] has the distinct values of [energies] as keys, each with the number
    of its occurrences. *)
Definition counted (g : energy_dict) (energies : list R) : Prop :=
  NoDup g.*1 /\
  forall E, lookup_energy g E
            = if decide (occurrences energies E = 0%Z) then None
              else Some (occurrences energies E).

(** [probabilities = np.array([g[E] * np.exp(-E/temperature)
                              for E in g.keys()])],
    [Z = probabilities.sum()], [probabilities /= Z].  The exponential, the
    sum and the quotient are those of the reals: what numpy computes, up to
    rounding, as long as no value leaves the range of the doubles (numpy
    gives [inf], [nan] or [0.0] beyond it). *)
Definition probabilities (g : energy_dict) : result (list R) :=
  weights ← mapM (fun E => n ← get_energy g E;
                           Ok (IZR n * exp (- E / temperature)))
                 (g.*1);
  let Z := foldr Rplus 0 weights in
  Ok ((fun w => w / Z) <$> weights).

(** *** The annealing schedule *)

(** [[1.0 - 1.0*i / (num_sweeps - 1.) for i in range(num_sweeps)]] *)
Definition schedule (num_sweeps : nat) : result (list R) :=
  mapM (fun i => q ← float_div (1.0 * INR i) (INR num_sweeps - 1);
                 Ok (1.0 - q))
       (seq 0 num_sweeps).

(** *** The adjacency sets *)

(** [adj[n0].add(n1); adj[n1].add(n0)] *)
Definition add_edge (adj : gmap nat (gset nat)) (edge : nat * nat)
  : result (gmap nat (gset nat)) :=
  let '(n0, n1) := edge in
  s0 ← getitem adj n0;
  let adj := <[n0 := s0 ∪ {[n1]}]> adj in
  s1 ← getitem adj n1;
  Ok (<[n1 := s1 ∪ {[n0]}]> adj).

(** [adj = {n: set() for n in h}] and the loop over the keys of [J]. *)
Definition adjacency (h : gmap nat Z) (J : gmap (nat * nat) Z)
  : result (gmap nat (gset nat)) :=
  for_each add_edge ((fun _ => ∅) <$> h) (map_to_list J).*1.

(** The adjacency set of [u], empty for a node that is no key. *)
Definition neighbours (adj : gmap nat (gset nat)) (u : nat) : gset nat :=
  default ∅ (adj !! u).

(** *** Simulated annealing with clamped spins *)

Section Annealing.

(** The model, the clamped spins, the colour classes of [greedy_coloring]
    and the successive values of [np.log(np.random.uniform(0, 1))]. *)
Variable h : gmap nat Z.
Variable J : gmap (nat * nat) Z.
Variable adj : gmap nat (gset nat).
Variable clamped_spins : gmap nat Z.
Variable colors : list (list nat).
Variable log_uniform : nat -> R.

(** [spins] and the number of random draws made so far. *)
Definition state : Type := gmap nat Z * nat.

(** [{v: np.random.choice((-1, 1)) if v not in clamped_spins
        else clamped_spins[v] for v in h}], [choice v] being the value
    drawn for [v]. *)
Definition initial_spins (choice : nat -> Z) : gmap nat Z :=
  map_imap (fun v _ => Some (match clamped_spins !! v with
                             | Some s => s
                             | None => choice v
                             end)) h.

(** [{v: -2 * spins[v] * h[v] for v in h}] *)
Definition energy_diff_h (spins : gmap nat Z) : result (gmap nat Z) :=
  dict_comprehension (map_to_list h).*1
    (fun v => s ← getitem spins v; hv ← getitem h v; Ok (-2 * s * hv)%Z).

(** One [if (a, b) in J: ediff += spins[v0] * spins[v1] * J[(a, b)]] *)
Definition coupling (spins : gmap nat Z) (v0 v1 : nat) (key : nat * nat)
    (ediff : Z) : result Z :=
  match J !! key with
  | Some _ =>
      s0 ← getitem spins v0; s1 ← getitem spins v1; w ← getitem J key;
      Ok (ediff + s0 * s1 * w)%Z
  | None => Ok ediff
  end.

(** The inner loop [for v1 in adj[v0]]. *)
Definition ediff_of (spins : gmap nat Z) (v0 : nat) : result Z :=
  neighbours ← getitem adj v0;
  for_each
    (fun ediff v1 =>
       ediff ← coupling spins v0 v1 (v0, v1) ediff;
       coupling spins v0 v1 (v1, v0) ediff)
    0%Z (elements neighbours).

(** [energy_diff_J], filled for the nodes of one colour. *)
Definition energy_diff_J (spins : gmap nat Z) (nodes : list nat)
  : result (gmap nat Z) :=
  dict_comprehension nodes
    (fun v0 => ediff ← ediff_of spins v0; Ok (-2 * ediff)%Z).

(** The body of [for v in filter(lambda x: x not in clamped_spins,
    nodes)]. *)
Definition update (β : R) (edh edJ : gmap nat Z) (st : state) (v : nat)
  : result state :=
  let '(spins, draws) := st in
  let logp := log_uniform draws in
  dh ← getitem edh v;
  dJ ← getitem edJ v;
  if Rlt_dec logp (-1 * β * IZR (dh + dJ)) then
    s ← getitem spins v;
    Ok (<[v := (s * -1)%Z]> spins, S draws)
  else Ok (spins, S draws).

(** The body of [for color in colors]. *)
Definition update_color (β : R) (edh : gmap nat Z) (st : state)
    (nodes : list nat) : result state :=
  edJ ← energy_diff_J st.1 nodes;
  for_each (update β edh edJ) st
    (filter (fun x => clamped_spins !! x = None) nodes).

(** The body of [for β in βs]. *)
Definition sweep (st : state) (β : R) : result state :=
  edh ← energy_diff_h st.1;
  for_each (update_color β edh) st colors.

Definition anneal (βs : list R) (st : state) : result state :=
  for_each sweep st βs.

(** The nodes of the colour classes are nodes of [h] with an adjacency set,
    and the adjacency sets hold nodes of [h]. *)
Definition well_formed : Prop :=
  Forall (Forall (fun v => v ∈ dom h /\ v ∈ dom adj)) colors /\
  map_Forall (fun _ s => s ⊆ dom h) adj.

(** What the loop keeps of [spins]: it has the nodes of [h], the clamped
    nodes have the value they had in [spins0], and every spin is 1 or -1. *)
Definition kept (spins0 spins : gmap nat Z) : Prop :=
  dom spins = dom h /\
  (forall v, clamped_spins !! v <> None -> spins !! v = spins0 !! v) /\
  (forall v s, spins !! v = Some s -> s = 1%Z \/ s = (-1)%Z).

(** The nodes that the sweep visits, in the order of their visits. *)
Definition free_nodes : list nat :=
  filter (fun x => clamped_spins !! x = None) (concat colors).

(** [spins] with the spins of the nodes of [l] negated. *)
Definition negated (l : list nat) (spins : gmap nat Z) : gmap nat Z :=
  map_imap (fun v s => Some (if decide (v ∈ l) then (s * -1)%Z else s)) spins.

End Annealing.

(** The model of the notebook: three spins on a path, the first one
    clamped.  [greedy_coloring] gives the ends one colour and the middle
    node the other. *)
Definition model_h : gmap nat Z := {[0%nat := 1%Z; 1%nat := 1%Z; 2%nat := 1%Z]}.
Definition model_J : gmap (nat * nat) Z :=
  {[(0%nat, 1%nat) := 2%Z; (1%nat, 2%nat) := (-1)%Z]}.
Definition model_clamped_spins : gmap nat Z := {[0%nat := (-1)%Z]}.
Definition model_adj : gmap nat (gset nat) :=
  {[0%nat := {[1%nat]}; 1%nat := {[0%nat; 2%nat]}; 2%nat := {[1%nat]}]}.
Definition model_colors : list (list nat) := [[0%nat; 2%nat]; [1%nat]].

End Pgm.


(** * Properties *)

(** ** [get_psuccess] *)

Module HhlFacts.

Import Hhl.

(** Reading a key with the [KeyError] fallback is reading it with default
    0. *)
Lemma getitem_or_zero (counts : gmap string Z) (key : string) :
  try_except (getitem counts key) KeyError 0%Z
  = Ok (default 0%Z (counts !! key)).
Proof.
  unfold getitem. destruct (counts !! key); reflexivity.
Qed.

Lemma truediv_or_zero (a b : Z) :
  try_except (int_truediv a b) ZeroDivisionError 0%Q
  = Ok (if decide (b = 0%Z) then 0%Q else (inject_Z a / inject_Z b)%Q).
Proof.
  unfold int_truediv.
  destruct (Z.eqb_spec b 0) as [->|Hb]; simpl.
  - reflexivity.
  - destruct (decide (b = 0%Z)); [contradiction | reflexivity].
Qed.

Lemma get_psuccess_unfold (counts : gmap string Z) :
  get_psuccess counts
  = Ok (let n01 := default 0%Z (counts !! "01") in
        let n11 := default 0%Z (counts !! "11") in
        if decide ((n01 + n11)%Z = 0%Z) then 0%Q
        else (inject_Z n01 / inject_Z (n01 + n11))%Q).
Proof.
  unfold get_psuccess.
  rewrite !getitem_or_zero. simpl.
  rewrite truediv_or_zero. reflexivity.
Qed.

(** C3.  [get_psuccess] never lets a [KeyError] escape: a missing '11' or
    '01' key is read as the count 0, and the result is
    [counts['01'] / (counts['01'] + counts['11'])] on the counts read that
    way (0 when that sum is 0, where Python's division would raise). *)
Theorem get_psuccess_missing_keys_read_as_zero (counts : gmap string Z) :
  let n01 := default 0%Z (counts !! "01") in
  let n11 := default 0%Z (counts !! "11") in
  get_psuccess counts
  = Ok (if decide ((n01 + n11)%Z = 0%Z) then 0%Q
        else (inject_Z n01 / inject_Z (n01 + n11))%Q).
Proof. apply get_psuccess_unfold. Qed.

Lemma ratio_in_unit_interval (a b : Z) :
  (0 <= a)%Z -> (0 <= b)%Z -> (a + b)%Z <> 0%Z ->
  (0 <= inject_Z a / inject_Z (a + b) /\
   inject_Z a / inject_Z (a + b) <= 1)%Q.
Proof.
  intros Ha Hb Hab.
  assert (Hpos : (0 < a + b)%Z) by lia.
  destruct (a + b)%Z as [|d|d] eqn:Hd; try lia.
  unfold Qdiv, Qinv, Qmult, Qle, inject_Z; simpl.
  rewrite !Pos.mul_1_l. lia.
Qed.

(** C10.  On non-negative counts [get_psuccess] returns a value of [0, 1],
    and it returns 0, not [ZeroDivisionError], when
    [counts['01'] + counts['11']] is 0, in particular when neither key is
    present. *)
Theorem get_psuccess_in_unit_interval (counts : gmap string Z) :
  map_Forall (fun _ n => (0 <= n)%Z) counts ->
  exists p : Q,
    get_psuccess counts = Ok p /\
    (0 <= p)%Q /\ (p <= 1)%Q /\
    ((default 0 (counts !! "01") + default 0 (counts !! "11"))%Z = 0%Z ->
     p = 0%Q) /\
    (counts !! "01" = None -> counts !! "11" = None -> p = 0%Q).
Proof.
  intros Hnonneg.
  rewrite get_psuccess_unfold. eexists; split; [reflexivity|]. cbv zeta.
  assert (H01 : (0 <= default 0 (counts !! "01"))%Z).
  { destruct (counts !! "01") eqn:E; simpl; [|lia]. exact (Hnonneg _ _ E). }
  assert (H11 : (0 <= default 0 (counts !! "11"))%Z).
  { destruct (counts !! "11") eqn:E; simpl; [|lia]. exact (Hnonneg _ _ E). }
  destruct (decide _) as [Hz|Hnz].
  - repeat split; try done.
  - destruct (ratio_in_unit_interval _ _ H01 H11 Hnz) as [Hlo Hhi].
    repeat split; try done.
    intros E01 E11. rewrite E01, E11 in Hnz. simpl in Hnz. lia.
Qed.


Lemma get_psuccess_in_unit_interval_witness :
  exists p : Q,
    get_psuccess sample_counts = Ok p /\
    (0 <= p)%Q /\ (p <= 1)%Q /\
    ((default 0 (sample_counts !! "01")
      + default 0 (sample_counts !! "11"))%Z = 0%Z -> p = 0%Q) /\
    (sample_counts !! "01" = None -> sample_counts !! "11" = None -> p = 0%Q).
Proof.
  apply (get_psuccess_in_unit_interval sample_counts).
  apply (bool_decide_unpack _). vm_compute. exact I.
Defined.

End HhlFacts.

(** ** [plot_histogram] *)

Module HistogramFacts.

Import Histogram.

Lemma length_arange (n : nat) : length (arange n) = n.
Proof. apply length_seq. Qed.

Lemma lookup_zip_arange {A : Type} (l : list A) (i : nat) :
  zip (arange (length l)) l !! i = (fun a => (i, a)) <$> l !! i.
Proof.
  unfold arange.
  rewrite lookup_zip_with.
  destruct (l !! i) as [a|] eqn:E.
  - apply lookup_lt_Some in E as Hlt.
    rewrite lookup_seq_lt by exact Hlt. reflexivity.
  - apply lookup_ge_None in E.
    rewrite lookup_seq_ge by exact E. reflexivity.
Qed.

Lemma plot_histogram_unfold {K : Type} (counts : list (K * Z)) :
  plot_histogram counts plt.blank
  = Ok (plt.Figure (zip (arange (length counts)) (values counts))
                   (zip (arange (length counts)) (keys counts)) true).
Proof.
  unfold plot_histogram, plt.bar, plt.xticks, plt.show, values, keys.
  cbv zeta.
  rewrite length_arange, !length_fmap, Nat.eqb_refl. reflexivity.
Qed.

(** C4.  For every mapping, [plot_histogram] draws one bar per key: the
    [i]-th bar stands at position [i] with the [i]-th value as its height,
    the [i]-th tick of the x axis carries the [i]-th key, and the figure is
    shown.  Nothing is validated and the empty mapping takes the same path:
    it is shown with no bar and no tick. *)
Theorem plot_histogram_one_bar_per_key {K : Type} (counts : list (K * Z)) :
  exists fig : plt.figure K,
    plot_histogram counts plt.blank = Ok fig /\
    length (plt.bars fig) = length counts /\
    length (plt.ticks fig) = length counts /\
    (forall i : nat,
        plt.bars fig !! i = (fun kv => (i, kv.2)) <$> counts !! i) /\
    (forall i : nat,
        plt.ticks fig !! i = (fun kv => (i, kv.1)) <$> counts !! i) /\
    plt.shown fig = true /\
    plot_histogram (@nil (K * Z)) plt.blank = Ok (plt.Figure [] [] true).
Proof.
  eexists. split; [apply plot_histogram_unfold|]. simpl.
  unfold values, keys.
  repeat split.
  - rewrite length_zip, length_arange, length_fmap. lia.
  - rewrite length_zip, length_arange, length_fmap. lia.
  - intros i.
    pose proof (lookup_zip_arange (counts.*2) i) as Hz.
    rewrite length_fmap in Hz. rewrite Hz, list_lookup_fmap.
    destruct (counts !! i); reflexivity.
  - intros i.
    pose proof (lookup_zip_arange (counts.*1) i) as Hz.
    rewrite length_fmap in Hz. rewrite Hz, list_lookup_fmap.
    destruct (counts !! i); reflexivity.
Qed.

End HistogramFacts.

(** ** Facts about the [cmath] functions *)

Module cmathFacts.

Import cmath (complex, Complex, real, imag, of_float, rotate).

Local Open Scope R_scope.

Lemma complex_eq (a b : complex) :
  real a = real b -> imag a = imag b -> a = b.
Proof. destruct a, b; simpl; intros -> ->; reflexivity. Qed.

Lemma is_zero_true (z : complex) :
  cmath.is_zero z = true <-> z = Complex 0 0.
Proof.
  unfold cmath.is_zero. destruct z as [x y]; simpl.
  destruct (Req_dec_T x 0) as [->|Hx]; [destruct (Req_dec_T y 0) as [->|Hy]|];
    split; try reflexivity; try discriminate; congruence.
Qed.

Lemma is_zero_false (z : complex) :
  cmath.is_zero z = false <-> 0 < real z * real z + imag z * imag z.
Proof.
  unfold cmath.is_zero. destruct z as [x y]; simpl.
  destruct (Req_dec_T x 0) as [->|Hx]; [destruct (Req_dec_T y 0) as [->|Hy]|];
    split; try reflexivity; try discriminate; intros H; try nra.
Qed.

Lemma abs_zero_iff (z : complex) :
  cmath.abs z = 0 <-> z = Complex 0 0.
Proof.
  unfold cmath.abs. destruct z as [x y]; simpl. split.
  - intros H. apply sqrt_eq_0 in H; [|nra].
    assert (x = 0) by nra. assert (y = 0) by nra. subst. reflexivity.
  - intros H. injection H as -> ->. rewrite Rmult_0_l, Rplus_0_l. apply sqrt_0.
Qed.

Lemma abs_of_float (x : R) : cmath.abs (of_float x) = Rabs x.
Proof.
  unfold cmath.abs, of_float; simpl.
  rewrite Rmult_0_l, Rplus_0_r. apply sqrt_Rsqr_abs.
Qed.

(** [exp(1j*t)] is the point of the unit circle at angle [t]. *)
Lemma exp_j (t : R) :
  cmath.exp (cmath.mul cmath.j (of_float t)) = Complex (cos t) (sin t).
Proof.
  unfold cmath.exp, cmath.mul, cmath.j, of_float; simpl.
  replace (0 * t - 1 * 0) with 0 by ring.
  replace (0 * 0 + 1 * t) with t by ring.
  rewrite exp_0. apply complex_eq; simpl; ring.
Qed.

Lemma unit_circle_nonzero (t : R) :
  cmath.is_zero (Complex (cos t) (sin t)) = false.
Proof.
  apply is_zero_false; simpl.
  pose proof (sin2_cos2 t) as H. unfold Rsqr in H. lra.
Qed.


Lemma truediv_unit_circle (z : complex) (t : R) :
  cmath.truediv z (Complex (cos t) (sin t)) = Ok (rotate z t).
Proof.
  unfold cmath.truediv. rewrite unit_circle_nonzero. simpl.
  pose proof (sin2_cos2 t) as H. unfold Rsqr in H.
  replace (cos t * cos t + sin t * sin t) with 1 by lra.
  f_equal. unfold rotate. apply complex_eq; simpl; field.
Qed.

Lemma rotate_norm (z : complex) (t : R) :
  real (rotate z t) * real (rotate z t) + imag (rotate z t) * imag (rotate z t)
  = real z * real z + imag z * imag z.
Proof.
  unfold rotate; simpl.
  pose proof (sin2_cos2 t) as H. unfold Rsqr in H.
  transitivity ((real z * real z + imag z * imag z)
                * (sin t * sin t + cos t * cos t)); [ring|].
  rewrite H. ring.
Qed.

Lemma truediv_nonzero (a b : complex) :
  cmath.is_zero b = false ->
  exists q, cmath.truediv a b = Ok q /\
            (cmath.is_zero a = false -> cmath.is_zero q = false).
Proof.
  intros Hb. unfold cmath.truediv. rewrite Hb.
  eexists; split; [reflexivity|].
  intros Ha. apply is_zero_false in Ha, Hb. apply is_zero_false; simpl.
  destruct a as [ar ai], b as [br bi]; simpl in *.
  set (d := br * br + bi * bi) in *.
  assert (Hd : d <> 0) by lra.
  replace ((ar * br + ai * bi) / d * ((ar * br + ai * bi) / d)
           + (ai * br - ar * bi) / d * ((ai * br - ar * bi) / d))
    with ((ar * ar + ai * ai) / d).
  - apply Rdiv_lt_0_compat; lra.
  - unfold d. field. fold d. exact Hd.
Qed.

Lemma cosh_pos (x : R) : 0 < cosh x.
Proof.
  unfold cosh. pose proof (exp_pos x). pose proof (exp_pos (- x)). lra.
Qed.

(** [2*w/2] is [w]. *)
Lemma truediv_double (w : complex) :
  cmath.truediv (cmath.mul (of_float 2) w) (of_float 2) = Ok w.
Proof.
  unfold cmath.truediv.
  assert (Hz : cmath.is_zero (of_float 2) = false).
  { apply is_zero_false; simpl; lra. }
  rewrite Hz. f_equal. destruct w as [x y]. apply complex_eq; simpl; field.
Qed.

Lemma atan2_pos_pos (y x : R) :
  0 < y -> 0 < x -> 0 < cmath.atan2 y x < PI / 2.
Proof.
  intros Hy Hx. unfold cmath.atan2.
  destruct (Rlt_dec 0 x) as [_|Hn]; [|contradiction].
  assert (Hq : 0 < y / x) by (apply Rdiv_lt_0_compat; assumption).
  split.
  - rewrite <- atan_0. apply atan_increasing. exact Hq.
  - apply atan_bound.
Qed.

Lemma abs_nonneg (z : complex) : 0 <= cmath.abs z.
Proof. apply sqrt_pos. Qed.

Lemma sqrt_real_pos (w : complex) :
  0 < real w -> 0 < real (cmath.sqrt w).
Proof.
  intros Hw. unfold cmath.sqrt; simpl.
  apply sqrt_lt_R0. pose proof (abs_nonneg w). lra.
Qed.

Lemma real_lt_1 (z : complex) :
  real z * real z + imag z * imag z < 1 -> -1 < real z < 1.
Proof. intros H. split; nra. Qed.

Lemma acos_real (z : complex) :
  real (cmath.acos z)
  = 2 * cmath.atan2 (real (cmath.sqrt (Complex (1 - real z) (- imag z))))
                    (real (cmath.sqrt (Complex (1 + real z) (imag z)))).
Proof. reflexivity. Qed.

Lemma acos_imag (z : complex) :
  imag (cmath.acos z)
  = arcsinh (real (cmath.sqrt (Complex (1 + real z) (imag z)))
             * imag (cmath.sqrt (Complex (1 - real z) (- imag z)))
             - imag (cmath.sqrt (Complex (1 + real z) (imag z)))
               * real (cmath.sqrt (Complex (1 - real z) (- imag z)))).
Proof. reflexivity. Qed.

(** Inside the unit disc the real part of [acos] lies strictly between 0
    and [pi]. *)
Lemma acos_real_bounds (z : complex) :
  real z * real z + imag z * imag z < 1 ->
  0 < real (cmath.acos z) < PI.
Proof.
  intros Hz. apply real_lt_1 in Hz as [Hlo Hhi].
  rewrite acos_real.
  pose proof (atan2_pos_pos
                (real (cmath.sqrt (Complex (1 - real z) (- imag z))))
                (real (cmath.sqrt (Complex (1 + real z) (imag z))))) as H.
  destruct H as [H1 H2].
  - apply sqrt_real_pos; simpl; lra.
  - apply sqrt_real_pos; simpl; lra.
  - lra.
Qed.

Lemma sin_acos_nonzero (z : complex) :
  real z * real z + imag z * imag z < 1 ->
  cmath.is_zero (cmath.sin (cmath.acos z)) = false.
Proof.
  intros Hz. apply acos_real_bounds in Hz as [Hlo Hhi].
  apply is_zero_false.
  remember (cmath.acos z) as w eqn:Hw. clear Hw.
  unfold cmath.sin; cbn [real imag].
  pose proof (sin_gt_0 _ Hlo Hhi) as Hs.
  pose proof (cosh_pos (imag w)) as Hc.
  assert (0 < sin (real w) * cosh (imag w))
    by (apply Rmult_lt_0_compat; assumption).
  nra.
Qed.

Lemma abs_real_axis (x : R) : 0 <= x -> cmath.abs (Complex x 0) = x.
Proof.
  intros Hx. unfold cmath.abs; simpl.
  rewrite Rmult_0_l, Rplus_0_r. apply sqrt_square, Hx.
Qed.

(** The square root of a positive real has no imaginary part. *)
Lemma sqrt_real_axis (x : R) :
  0 <= x -> cmath.sqrt (Complex x 0) = Complex (sqrt x) 0.
Proof.
  intros Hx. unfold cmath.sqrt. rewrite abs_real_axis by exact Hx. simpl.
  apply complex_eq; simpl.
  - f_equal. field.
  - replace ((x - x) / 2) with 0 by field. rewrite sqrt_0. ring.
Qed.

(** On the open interval (-1, 1) of the real axis [acos] is real. *)
Lemma acos_real_axis_imag (r : R) :
  -1 < r < 1 -> imag (cmath.acos (Complex r 0)) = 0.
Proof.
  intros [Hlo Hhi]. rewrite acos_imag. cbn [real imag].
  replace (- 0) with 0 by ring.
  rewrite !sqrt_real_axis by lra. simpl.
  replace (sqrt (1 + r) * 0 - 0 * sqrt (1 - r)) with 0 by ring.
  apply arcsinh_0.
Qed.

Lemma atan2_diag (p : R) : 0 < p -> cmath.atan2 p p = PI / 4.
Proof.
  intros Hp. unfold cmath.atan2.
  destruct (Rlt_dec 0 p) as [_|Hn]; [|contradiction].
  replace (p / p) with 1 by (field; lra). apply atan_1.
Qed.

(** On the positive imaginary axis: [acos(iy) = pi/2 - i*asinh(y)]. *)
Lemma acos_imag_axis (y : R) :
  0 < y -> cmath.acos (Complex 0 y) = Complex (2 * (PI / 4)) (arcsinh (- y)).
Proof.
  intros Hy.
  set (m := sqrt (1 + y * y)).
  assert (Hm2 : m * m = 1 + y * y) by (apply sqrt_sqrt; nra).
  assert (Hm1 : 1 < m).
  { unfold m. rewrite <- sqrt_1 at 1. apply sqrt_lt_1_alt. nra. }
  assert (Habs1 : cmath.abs (Complex (1 - 0) (- y)) = m).
  { unfold cmath.abs, m; simpl. f_equal. ring. }
  assert (Habs2 : cmath.abs (Complex (1 + 0) y) = m).
  { unfold cmath.abs, m; simpl. f_equal. ring. }
  set (p := sqrt ((m + 1) / 2)).
  set (q := sqrt ((m - 1) / 2)).
  assert (Hp : 0 < p) by (apply sqrt_lt_R0; lra).
  assert (Hpq : p * q = y / 2).
  { unfold p, q. rewrite <- sqrt_mult by lra.
    replace ((m + 1) / 2 * ((m - 1) / 2)) with (y / 2 * (y / 2)) by nra.
    apply sqrt_square. lra. }
  assert (Hs1 : cmath.sqrt (Complex (1 - 0) (- y)) = Complex p (- q)).
  { unfold cmath.sqrt. rewrite Habs1. cbn [real imag].
    destruct (Rle_dec 0 (- y)) as [H|_]; [lra|].
    apply complex_eq; simpl; unfold p, q.
    - f_equal. field.
    - replace ((m - (1 - 0)) / 2) with ((m - 1) / 2) by field. ring. }
  assert (Hs2 : cmath.sqrt (Complex (1 + 0) y) = Complex p q).
  { unfold cmath.sqrt. rewrite Habs2. cbn [real imag].
    destruct (Rle_dec 0 y) as [_|H]; [|lra].
    apply complex_eq; simpl; unfold p, q.
    - f_equal. field.
    - replace ((m - (1 + 0)) / 2) with ((m - 1) / 2) by field. ring. }
  apply complex_eq.
  - rewrite acos_real. cbn [real imag]. rewrite Hs1, Hs2. simpl.
    rewrite atan2_diag by exact Hp. reflexivity.
  - rewrite acos_imag. cbn [real imag]. rewrite Hs1, Hs2. simpl.
    f_equal. nra.
Qed.

Lemma cosh_double (v : R) : cosh (2 * v) = 1 + 2 * (sinh v * sinh v).
Proof.
  unfold cosh, sinh.
  replace (2 * v) with (v + v) by ring.
  replace (- (v + v)) with (- v + - v) by ring.
  rewrite !exp_plus.
  pose proof (exp_plus v (- v)) as H.
  rewrite Rplus_opp_r, exp_0 in H.
  nra.
Qed.

(** *** Polar form

    [z = abs(z) * exp(1j*phase(z))]. *)

Lemma hypot_scaled (x t : R) :
  0 < x -> sqrt (x * x + (x * t) * (x * t)) = x * sqrt (1 + t²).
Proof.
  intros Hx. unfold Rsqr.
  replace (x * x + x * t * (x * t)) with (x * x * (1 + t * t)) by ring.
  rewrite sqrt_mult by nra. rewrite sqrt_square by lra. reflexivity.
Qed.

Lemma polar_atan (x y : R) :
  0 < x ->
  sqrt (x * x + y * y) * cos (atan (y / x)) = x /\
  sqrt (x * x + y * y) * sin (atan (y / x)) = y.
Proof.
  intros Hx.
  set (t := y / x). assert (Hy : y = x * t) by (unfold t; field; lra).
  clearbody t. subst y. rewrite hypot_scaled by exact Hx.
  rewrite cos_atan, sin_atan.
  assert (Hs : 0 < sqrt (1 + t²)).
  { apply sqrt_lt_R0. unfold Rsqr. nra. }
  split; field; lra.
Qed.

Lemma polar (x y : R) :
  sqrt (x * x + y * y) * cos (cmath.atan2 y x) = x /\
  sqrt (x * x + y * y) * sin (cmath.atan2 y x) = y.
Proof.
  unfold cmath.atan2.
  destruct (Rlt_dec 0 x) as [Hpos|Hnpos]; [apply polar_atan, Hpos|].
  destruct (Rlt_dec x 0) as [Hneg|Hnneg].
  - (* reflect through the origin *)
    destruct (polar_atan (- x) (- y)) as [Hc Hs]; [lra|].
    replace (- x * - x + - y * - y) with (x * x + y * y) in Hc, Hs by ring.
    replace (- y / - x) with (y / x) in Hc, Hs by (field; lra).
    destruct (Rle_dec 0 y) as [_|_].
    + rewrite neg_cos, neg_sin. split; lra.
    + rewrite cos_minus, sin_minus, cos_PI, sin_PI. split; lra.
  - assert (x = 0) by lra. subst x.
    replace (0 * 0 + y * y) with (y * y) by ring.
    destruct (Rlt_dec 0 y) as [Hy|Hny].
    + rewrite sqrt_square, cos_PI2, sin_PI2 by lra. split; ring.
    + destruct (Rlt_dec y 0) as [Hy|Hny'].
      * replace (y * y) with (- y * - y) by ring.
        rewrite sqrt_square, cos_neg, sin_neg, cos_PI2, sin_PI2 by lra.
        split; ring.
      * assert (y = 0) by lra. subst y.
        rewrite Rmult_0_l, sqrt_0. split; ring.
Qed.

(** Dividing [z] by [exp(1j*phase(z))] leaves [abs(z)]. *)
Lemma rotate_phase (z : complex) :
  rotate z (cmath.phase z) = Complex (cmath.abs z) 0.
Proof.
  destruct z as [x y]. unfold rotate, cmath.phase, cmath.abs; cbn [real imag].
  destruct (polar x y) as [Hc Hs].
  pose proof (sin2_cos2 (cmath.atan2 y x)) as H1. unfold Rsqr in H1.
  set (r := sqrt (x * x + y * y)) in *.
  set (c := cos (cmath.atan2 y x)) in *.
  set (s := sin (cmath.atan2 y x)) in *.
  apply complex_eq; cbn [real imag].
  - rewrite <- Hc at 1. rewrite <- Hs at 1.
    transitivity (r * (s * s + c * c)); [ring | rewrite H1; ring].
  - rewrite <- Hc at 1. rewrite <- Hs at 1. ring.
Qed.

(** [acos] on the open interval (-1, 1) of the real axis: a real angle of
    (0, pi) whose cosine is the argument. *)
Lemma acos_real_axis (r : R) :
  -1 < r < 1 ->
  exists u : R,
    cmath.acos (Complex r 0) = Complex u 0 /\
    0 < u < PI /\ cos u = r /\ sin u = sqrt (1 - r * r).
Proof.
  intros Hr.
  exists (real (cmath.acos (Complex r 0))).
  assert (Hb : 0 < real (cmath.acos (Complex r 0)) < PI).
  { apply acos_real_bounds; cbn [real imag]. nra. }
  assert (Hcos : cos (real (cmath.acos (Complex r 0))) = r).
  { rewrite acos_real. cbn [real imag]. replace (- 0) with 0 by ring.
    rewrite !sqrt_real_axis by lra. cbn [real].
    assert (Hp : 0 < sqrt (1 - r)) by (apply sqrt_lt_R0; lra).
    assert (Hq : 0 < sqrt (1 + r)) by (apply sqrt_lt_R0; lra).
    unfold cmath.atan2. destruct (Rlt_dec 0 (sqrt (1 + r))) as [_|H]; [|lra].
    rewrite cos_2a_cos, cos_atan.
    set (t := sqrt (1 - r) / sqrt (1 + r)).
    assert (Ht : t² = (1 - r) / (1 + r)).
    { unfold t, Rsqr.
      replace (sqrt (1 - r) / sqrt (1 + r) * (sqrt (1 - r) / sqrt (1 + r)))
        with (sqrt (1 - r) * sqrt (1 - r) / (sqrt (1 + r) * sqrt (1 + r)))
        by (field; lra).
      rewrite !sqrt_sqrt by lra. reflexivity. }
    assert (Hpos : 0 < 1 + t²).
    { rewrite Ht. assert (0 <= (1 - r) / (1 + r)); [|lra].
      apply Rlt_le, Rdiv_lt_0_compat; lra. }
    assert (Hs : sqrt (1 + t²) * sqrt (1 + t²) = 1 + t²)
      by (apply sqrt_sqrt; lra).
    assert (Hs0 : 0 < sqrt (1 + t²)) by (apply sqrt_lt_R0; lra).
    replace (2 * (1 / sqrt (1 + t²)) * (1 / sqrt (1 + t²)) - 1)
      with (2 / (sqrt (1 + t²) * sqrt (1 + t²)) - 1) by (field; lra).
    rewrite Hs, Ht. field. lra. }
  split; [|split; [exact Hb|split; [exact Hcos|]]].
  - apply complex_eq; cbn [real imag]; [reflexivity|].
    apply acos_real_axis_imag, Hr.
  - pose proof (sin_gt_0 _ (proj1 Hb) (proj2 Hb)) as Hsin.
    pose proof (sin2_cos2 (real (cmath.acos (Complex r 0)))) as H1.
    unfold Rsqr in H1. rewrite Hcos in H1.
    symmetry. apply sqrt_lem_1; nra.
Qed.

End cmathFacts.

(** ** [get_vector] *)

Module BlochFacts.

Import cmath (complex, Complex, real, imag, of_float, rotate).
Import cmathFacts Bloch.

Local Open Scope R_scope.

Lemma bind_Ok {A B : Type} (a : A) (k : A -> result B) : (Ok a ≫= k) = k a.
Proof. reflexivity. Qed.

Lemma Reqb_abs (z : complex) : Reqb (cmath.abs z) 0 = cmath.is_zero z.
Proof.
  unfold Reqb. destruct (Req_dec_T (cmath.abs z) 0) as [H|H].
  - symmetry. apply is_zero_true, abs_zero_iff, H.
  - destruct (cmath.is_zero z) eqn:E; [|reflexivity].
    exfalso. apply H, abs_zero_iff, is_zero_true, E.
Qed.

(** The divisor is a point of the unit circle, at the (adjusted) phase of
    one of the two amplitudes. *)
Lemma denominator_unit (angle_alpha angle_beta : R) :
  exists t, denominator angle_alpha angle_beta = Complex (cos t) (sin t).
Proof.
  unfold denominator. destruct (_ || _); rewrite exp_j; eauto.
Qed.

Lemma cartesian_alpha_zero (beta : complex) (t : R) :
  cartesian (Complex 0 0) beta (Complex (cos t) (sin t)) = Ok [0; 0; -1].
Proof.
  unfold cartesian. rewrite !truediv_unit_circle, !bind_Ok, Reqb_abs.
  replace (cmath.is_zero (Complex 0 0)) with true
    by (symmetry; apply is_zero_true; reflexivity).
  reflexivity.
Qed.

Lemma cartesian_beta_zero (alpha : complex) (t : R) :
  cmath.is_zero alpha = false ->
  cartesian alpha (Complex 0 0) (Complex (cos t) (sin t)) = Ok [0; 0; 1].
Proof.
  intros Ha.
  unfold cartesian. rewrite !truediv_unit_circle, !bind_Ok, !Reqb_abs, Ha.
  replace (cmath.is_zero (Complex 0 0)) with true
    by (symmetry; apply is_zero_true; reflexivity).
  reflexivity.
Qed.

(** Away from the poles, and as long as [|alpha| < 1], no step of
    [cartesian] raises, and the coordinates are those of the angles
    [theta = 2*acos(alpha_new)] and [phi]. *)
Lemma cartesian_generic (alpha beta : complex) (t : R) :
  cmath.is_zero alpha = false ->
  cmath.is_zero beta = false ->
  real alpha * real alpha + imag alpha * imag alpha < 1 ->
  let theta := cmath.mul (of_float 2) (cmath.acos (rotate alpha t)) in
  exists phi : complex,
    cartesian alpha beta (Complex (cos t) (sin t))
    = Ok [ real (cmath.mul (cmath.sin theta) (cmath.cos phi));
           real (cmath.mul (cmath.sin theta) (cmath.sin phi));
           real (cmath.cos theta) ].
Proof.
  intros Ha Hb Hlt theta.
  unfold cartesian.
  rewrite !truediv_unit_circle, !bind_Ok, !Reqb_abs, Ha, Hb.
  cbn [orb]. cbv zeta.
  rewrite truediv_double, bind_Ok.
  assert (Hs : cmath.is_zero (cmath.sin (cmath.acos (rotate alpha t))) = false).
  { apply sin_acos_nonzero. rewrite rotate_norm. exact Hlt. }
  destruct (truediv_nonzero (rotate beta t) _ Hs) as (quotient & Hq & Hnz).
  rewrite Hq, bind_Ok.
  unfold cmath.log. rewrite Hnz, bind_Ok.
  - eexists. reflexivity.
  - apply is_zero_false. rewrite rotate_norm. apply is_zero_false, Hb.
Qed.

Lemma sub_of_float (a b : R) :
  cmath.sub (of_float a) (of_float b) = of_float (a - b).
Proof. apply complex_eq; simpl; ring. Qed.

(** On floats, [isclose] with the default tolerances compares the distance
    with [1e-09] times the larger magnitude. *)
Lemma isclose_of_float (a b : R) :
  cmath.isclose (of_float a) (of_float b) = true
  <-> Rabs (a - b) <= 1 / 10 ^ 9 * Rmax (Rabs a) (Rabs b).
Proof.
  unfold cmath.isclose. rewrite sub_of_float, !abs_of_float.
  unfold cmath.rel_tol, cmath.abs_tol.
  pose proof (Rabs_pos a) as Ha. pose proof (Rabs_pos b) as Hb.
  pose proof (Rabs_pos (a - b)) as Hd.
  assert (Htol : 0 < 1 / 10 ^ 9) by (apply Rdiv_lt_0_compat; lra).
  destruct (cmath.is_zero (of_float (a - b))) eqn:Hz.
  - apply is_zero_true in Hz. injection Hz as Hz. rewrite Hz, Rabs_R0.
    split; [intros _|reflexivity].
    apply Rmult_le_pos; [lra|]. unfold Rmax. destruct (Rle_dec _ _); lra.
  - unfold Rmax.
    destruct (Rle_dec (Rabs (a - b)) (1 / 10 ^ 9 * Rabs b)) as [H1|H1];
    destruct (Rle_dec (Rabs (a - b)) (1 / 10 ^ 9 * Rabs a)) as [H2|H2];
    destruct (Rle_dec (Rabs (a - b)) 0) as [H3|H3];
    destruct (Rle_dec (Rabs a) (Rabs b)) as [H4|H4];
    split; try reflexivity; try discriminate; intros H; try nra.
Qed.

Lemma snap_spec (angle : R) :
  snap angle
  = if Rle_dec (Rabs (angle - PI)) (1 / 10 ^ 9 * Rmax (Rabs angle) PI)
    then 0 else angle.
Proof.
  unfold snap, cmath.pi.
  pose proof (isclose_of_float angle PI) as H.
  rewrite (Rabs_pos_eq PI) in H by (pose proof PI_RGT_0; lra).
  destruct (Rle_dec _ _) as [Hle|Hnle].
  - rewrite (proj2 H Hle). reflexivity.
  - destruct (cmath.isclose _ _); [|reflexivity].
    exfalso. apply Hnle, H. reflexivity.
Qed.

Lemma snap_nonpositive (angle : R) : angle <= 0 -> snap angle = angle.
Proof.
  intros Hneg. rewrite snap_spec.
  destruct (Rle_dec _ _) as [Hle|]; [|reflexivity]. exfalso.
  pose proof PI_RGT_0 as Hpi.
  rewrite Rabs_left in Hle by lra.
  unfold Rmax in Hle. rewrite (Rabs_left1 angle) in Hle by lra.
  assert (Hpow : 10 ^ 9 = 1000000000) by (simpl; ring).
  rewrite Hpow in Hle.
  destruct (Rle_dec (- angle) PI); lra.
Qed.

(** C2.  When exactly one amplitude is zero, [get_vector] returns a pole:
    [[0, 0, -1]] when [alpha] is zero and [[0, 0, 1]] when [beta] is. *)
Theorem get_vector_poles (alpha beta : complex) :
  (alpha = Complex 0 0 -> beta <> Complex 0 0 ->
   get_vector alpha beta = Ok [0; 0; -1]) /\
  (beta = Complex 0 0 -> alpha <> Complex 0 0 ->
   get_vector alpha beta = Ok [0; 0; 1]).
Proof.
  unfold get_vector.
  destruct (denominator_unit (snap (cmath.phase alpha))
                             (snap (cmath.phase beta))) as [t ->].
  split.
  - intros -> _. apply cartesian_alpha_zero.
  - intros -> Ha. apply cartesian_beta_zero.
    destruct (cmath.is_zero alpha) eqn:E; [|reflexivity].
    apply is_zero_true in E. contradiction.
Qed.

Lemma get_vector_poles_witness :
  get_vector (Complex 0 0) (Complex 1 0) = Ok [0; 0; -1] /\
  get_vector (Complex 1 0) (Complex 0 0) = Ok [0; 0; 1].
Proof.
  split.
  - apply (proj1 (get_vector_poles (Complex 0 0) (Complex 1 0)));
      [reflexivity | intros H; injection H; lra].
  - apply (proj2 (get_vector_poles (Complex 1 0) (Complex 0 0)));
      [reflexivity | intros H; injection H; lra].
Defined.

(** C7.  A phase that [cmath.isclose] finds close to [pi] (distance at most
    [1e-09] times the larger magnitude) is replaced by 0 before the divisor
    of the global-phase elimination is chosen; any other phase is used as
    it is, and no phase [<= 0] is ever replaced, however close to [-pi]. *)
Theorem get_vector_snaps_phase_close_to_pi (alpha beta : complex) :
  let adjusted angle :=
    if Rle_dec (Rabs (angle - PI)) (1 / 10 ^ 9 * Rmax (Rabs angle) PI)
    then 0 else angle in
  get_vector alpha beta
  = cartesian alpha beta
      (denominator (adjusted (cmath.phase alpha)) (adjusted (cmath.phase beta)))
  /\ adjusted PI = 0
  /\ adjusted (- PI) = - PI
  /\ forall angle, angle <= 0 -> adjusted angle = angle.
Proof.
  intros adjusted.
  assert (Hadj : forall angle, adjusted angle = snap angle)
    by (intros angle; symmetry; apply snap_spec).
  pose proof PI_RGT_0 as Hpi.
  repeat split.
  - unfold get_vector. rewrite !Hadj. reflexivity.
  - unfold adjusted. destruct (Rle_dec _ _) as [|Hn]; [reflexivity|].
    exfalso. apply Hn. rewrite Rminus_diag, Rabs_R0.
    apply Rmult_le_pos; [apply Rlt_le, Rdiv_lt_0_compat; lra|].
    apply Rle_trans with PI; [lra | apply Rmax_r].
  - rewrite Hadj. apply snap_nonpositive. lra.
  - intros angle Hle. rewrite Hadj. apply snap_nonpositive, Hle.
Qed.

Lemma get_vector_snaps_phase_close_to_pi_witness :
  (if Rle_dec (Rabs (-3 - PI)) (1 / 10 ^ 9 * Rmax (Rabs (-3)) PI)
   then 0 else -3) = -3.
Proof.
  apply (proj2 (proj2 (proj2
           (get_vector_snaps_phase_close_to_pi (Complex 1 0) (Complex 0 0))))).
  lra.
Defined.

(** [get_vector] raises nothing when [beta] is zero or [|alpha| < 1]: the
    divisor of the phase elimination is never zero, the division by
    [sin(theta/2)] is reached only with both amplitudes non-zero, where
    [|alpha_new| < 1] keeps [sin(theta/2)] away from zero, and the argument
    of the logarithm is not zero either.  Every pair of squared norm exactly
    1 is of this kind. *)
Lemma get_vector_no_exception (alpha beta : complex) :
  beta = Complex 0 0 \/
  real alpha * real alpha + imag alpha * imag alpha < 1 ->
  exists x y z : R, get_vector alpha beta = Ok [x; y; z].
Proof.
  intros Hsafe. unfold get_vector.
  destruct (denominator_unit (snap (cmath.phase alpha))
                             (snap (cmath.phase beta))) as [t ->].
  destruct (cmath.is_zero alpha) eqn:Ha.
  - apply is_zero_true in Ha. subst alpha.
    rewrite cartesian_alpha_zero. eauto.
  - destruct (cmath.is_zero beta) eqn:Hb.
    + apply is_zero_true in Hb. subst beta.
      rewrite cartesian_beta_zero by exact Ha. eauto.
    + destruct Hsafe as [->|Hlt].
      * apply is_zero_false in Hb. cbn [real imag] in Hb. lra.
      * destruct (cartesian_generic alpha beta t Ha Hb Hlt) as [phi ->].
        eauto.
Qed.

(** *** A state on which the elimination divides by the phase of [beta] *)


Lemma inv_sqrt2_sqr : 1 / sqrt 2 * (1 / sqrt 2) = 1 / 2.
Proof.
  assert (H : sqrt 2 * sqrt 2 = 2) by (apply sqrt_sqrt; lra).
  assert (Hs : sqrt 2 <> 0) by (intros E; rewrite E in H; lra).
  field_simplify_eq; [|exact Hs]. nra.
Qed.

Lemma inv_sqrt2_pos : 0 < 1 / sqrt 2.
Proof. apply Rdiv_lt_0_compat; [lra | apply sqrt_lt_R0; lra]. Qed.

Lemma phase_alpha0 : cmath.phase alpha0 = 3 * (PI / 4).
Proof.
  unfold cmath.phase, cmath.atan2, alpha0; simpl.
  destruct (Rlt_dec 0 (-1 / 2)) as [H|_]; [lra|].
  destruct (Rlt_dec (-1 / 2) 0) as [_|H]; [|lra].
  destruct (Rle_dec 0 (1 / 2)) as [_|H]; [|lra].
  replace (1 / 2 / (-1 / 2)) with (Ropp 1) by field.
  rewrite atan_opp, atan_1. field.
Qed.

Lemma phase_beta0 : cmath.phase beta0 = PI / 4.
Proof.
  unfold cmath.phase, beta0; simpl. apply atan2_diag. lra.
Qed.

Lemma snap_far_from_pi (angle : R) :
  0 <= angle <= 3 * (PI / 4) -> snap angle = angle.
Proof.
  intros [Hlo Hhi]. rewrite snap_spec.
  destruct (Rle_dec _ _) as [Hle|]; [|reflexivity]. exfalso.
  pose proof PI_RGT_0 as Hpi.
  rewrite Rabs_left in Hle by lra.
  rewrite (Rabs_pos_eq angle), Rmax_right in Hle by lra.
  assert (Hpow : 10 ^ 9 = 1000000000) by (simpl; ring).
  rewrite Hpow in Hle. lra.
Qed.

Lemma denominator_alpha0_beta0 :
  denominator (3 * (PI / 4)) (PI / 4) = Complex (cos (PI / 4)) (sin (PI / 4)).
Proof.
  unfold denominator, Rltb. pose proof PI_RGT_0 as Hpi.
  destruct (Rlt_dec (PI / 4) 0) as [H|_]; [lra|].
  destruct (Rlt_dec 0 (PI / 4)) as [_|H]; [|lra].
  destruct (Rlt_dec (PI / 4) (3 * (PI / 4))) as [_|H]; [|lra].
  cbn [andb orb]. apply exp_j.
Qed.

Lemma rotate_alpha0 : rotate alpha0 (PI / 4) = Complex 0 (1 / sqrt 2).
Proof.
  unfold rotate, alpha0; cbn [real imag]. rewrite cos_PI4, sin_PI4.
  apply complex_eq; cbn [real imag]; lra.
Qed.

(** The third coordinate [get_vector] computes at [alpha0], [beta0]. *)
Lemma z_alpha0 :
  real (cmath.cos (cmath.mul (of_float 2)
                     (cmath.acos (Complex 0 (1 / sqrt 2))))) = -2.
Proof.
  rewrite acos_imag_axis by exact inv_sqrt2_pos.
  unfold cmath.cos, cmath.mul, of_float; cbn [real imag].
  replace (2 * (2 * (PI / 4)) - 0 * arcsinh (- (1 / sqrt 2))) with PI by field.
  replace (2 * arcsinh (- (1 / sqrt 2)) + 0 * (2 * (PI / 4)))
    with (2 * arcsinh (- (1 / sqrt 2))) by ring.
  rewrite cos_PI, cosh_double, sinh_arcsinh.
  pose proof inv_sqrt2_sqr. lra.
Qed.

Lemma get_vector_alpha0_beta0 :
  exists x y : R, get_vector alpha0 beta0 = Ok [x; y; -2].
Proof.
  unfold get_vector.
  pose proof PI_RGT_0 as Hpi.
  rewrite phase_alpha0, phase_beta0, !snap_far_from_pi by lra.
  rewrite denominator_alpha0_beta0.
  destruct (cartesian_generic alpha0 beta0 (PI / 4)) as [phi ->].
  - apply is_zero_false. unfold alpha0; simpl. lra.
  - apply is_zero_false. unfold beta0; simpl. lra.
  - unfold alpha0; simpl. lra.
  - rewrite rotate_alpha0, z_alpha0. eauto.
Qed.

(** C1 at [alpha0], [beta0]: both amplitudes are non-zero and the pair is
    normalised, yet the vector [get_vector] returns has the third
    coordinate -2, and so is not of unit length. *)
Theorem get_vector_not_unit_at_alpha0_beta0 :
  real alpha0 * real alpha0 + imag alpha0 * imag alpha0
  + (real beta0 * real beta0 + imag beta0 * imag beta0) = 1 /\
  alpha0 <> Complex 0 0 /\ beta0 <> Complex 0 0 /\
  exists x y z : R,
    get_vector alpha0 beta0 = Ok [x; y; z] /\
    z = -2 /\
    x * x + y * y + z * z <> 1.
Proof.
  split; [unfold alpha0, beta0; simpl; lra|].
  split; [unfold alpha0; intros H; injection H; lra|].
  split; [unfold beta0; intros H; injection H; lra|].
  destruct get_vector_alpha0_beta0 as (x & y & ->).
  exists x, y, (-2). split; [reflexivity|]. split; [reflexivity|]. nra.
Qed.

(** *** The same state up to a global phase *)


Lemma global_phase_alpha1 : global_phase (3 * (PI / 4)) alpha1 = alpha0.
Proof.
  unfold global_phase. rewrite exp_j, cos_3PI4, sin_3PI4.
  unfold cmath.mul, alpha1, alpha0; cbn [real imag].
  pose proof inv_sqrt2_sqr as H.
  apply complex_eq; cbn [real imag]; unfold Rdiv in *; nra.
Qed.

Lemma global_phase_beta1 : global_phase (3 * (PI / 4)) beta1 = beta0.
Proof.
  unfold global_phase. rewrite exp_j, cos_3PI4, sin_3PI4.
  unfold cmath.mul, beta1, beta0; cbn [real imag].
  pose proof inv_sqrt2_sqr as H.
  apply complex_eq; cbn [real imag]; unfold Rdiv in *; nra.
Qed.

Lemma phase_alpha1 : cmath.phase alpha1 = 0.
Proof.
  unfold cmath.phase, cmath.atan2, alpha1; cbn [real imag].
  pose proof inv_sqrt2_pos as Hs.
  destruct (Rlt_dec 0 (1 / sqrt 2)) as [_|H]; [|contradiction].
  unfold Rdiv at 1. rewrite Rmult_0_l. apply atan_0.
Qed.

Lemma phase_beta1 : cmath.phase beta1 = - (PI / 2).
Proof.
  unfold cmath.phase, cmath.atan2, beta1; cbn [real imag].
  pose proof inv_sqrt2_pos as Hs.
  destruct (Rlt_dec 0 0) as [H|_]; [lra|].
  destruct (Rlt_dec 0 (- (1 / sqrt 2))) as [H|_]; [lra|].
  destruct (Rlt_dec (- (1 / sqrt 2)) 0) as [_|H]; [reflexivity|lra].
Qed.

Lemma denominator_alpha1_beta1 :
  denominator 0 (- (PI / 2)) = Complex (cos 0) (sin 0).
Proof.
  unfold denominator, Rltb. pose proof PI_RGT_0 as Hpi.
  destruct (Rlt_dec (- (PI / 2)) 0) as [_|H]; [|lra].
  destruct (Rlt_dec 0 (- (PI / 2))) as [H|_]; [lra|].
  cbn [andb orb]. apply exp_j.
Qed.

Lemma rotate_alpha1 : rotate alpha1 0 = alpha1.
Proof.
  unfold rotate, alpha1; cbn [real imag]. rewrite cos_0, sin_0.
  apply complex_eq; cbn [real imag]; ring.
Qed.

Lemma inv_sqrt2_lt_1 : 1 / sqrt 2 < 1.
Proof.
  pose proof inv_sqrt2_sqr. pose proof inv_sqrt2_pos. nra.
Qed.

(** The third coordinate at [alpha1], [beta1] is a cosine. *)
Lemma z_alpha1 :
  -1 <= real (cmath.cos (cmath.mul (of_float 2) (cmath.acos alpha1))).
Proof.
  pose proof inv_sqrt2_pos. pose proof inv_sqrt2_lt_1.
  pose proof (acos_real_axis_imag (1 / sqrt 2)) as Him.
  fold alpha1 in Him.
  unfold cmath.cos, cmath.mul, of_float; cbn [real imag].
  rewrite Him by lra.
  replace (2 * 0 + 0 * real (cmath.acos alpha1)) with 0 by ring.
  rewrite cosh_0, Rmult_1_r.
  apply COS_bound.
Qed.

(** C8 at [alpha1], [beta1] and the phase [3pi/4]: the pair is normalised
    with both amplitudes non-zero, and multiplying both amplitudes by
    [e^(i 3pi/4)] changes the vector [get_vector] returns. *)
Theorem get_vector_changes_under_global_phase :
  real alpha1 * real alpha1 + imag alpha1 * imag alpha1
  + (real beta1 * real beta1 + imag beta1 * imag beta1) = 1 /\
  alpha1 <> Complex 0 0 /\ beta1 <> Complex 0 0 /\
  get_vector (global_phase (3 * (PI / 4)) alpha1)
             (global_phase (3 * (PI / 4)) beta1)
  <> get_vector alpha1 beta1.
Proof.
  pose proof inv_sqrt2_pos as Hs. pose proof inv_sqrt2_sqr as Hsq.
  split; [unfold alpha1, beta1; cbn [real imag]; lra|].
  split; [unfold alpha1; intros H; injection H; lra|].
  split; [unfold beta1; intros H; injection H; lra|].
  rewrite global_phase_alpha1, global_phase_beta1.
  destruct get_vector_alpha0_beta0 as (x & y & ->).
  unfold get_vector.
  pose proof PI_RGT_0 as Hpi.
  rewrite phase_alpha1, phase_beta1, !snap_nonpositive by lra.
  rewrite denominator_alpha1_beta1.
  destruct (cartesian_generic alpha1 beta1 0) as [phi ->].
  - apply is_zero_false. unfold alpha1; cbn [real imag]. lra.
  - apply is_zero_false. unfold beta1; cbn [real imag]. lra.
  - unfold alpha1; cbn [real imag]. lra.
  - rewrite rotate_alpha1. pose proof z_alpha1 as Hbound. revert Hbound.
    generalize (real (cmath.cos (cmath.mul (of_float 2) (cmath.acos alpha1)))).
    intros z1 Hbound H. injection H as _ _ Hz. lra.
Qed.

(** *** The branch that divides by the phase of [alpha]

    When the divisor is [exp(1j*phase(alpha))], [alpha_new] is the real
    number [abs(alpha)], both [theta] and [phi] are real angles, and the
    vector returned is of unit length. *)

Lemma sin_real (u : R) : cmath.sin (Complex u 0) = Complex (sin u) 0.
Proof.
  unfold cmath.sin; cbn [real imag]. rewrite cosh_0, sinh_0.
  apply complex_eq; cbn [real imag]; ring.
Qed.

Lemma cos_real (u : R) : cmath.cos (Complex u 0) = Complex (cos u) 0.
Proof.
  unfold cmath.cos; cbn [real imag]. rewrite cosh_0, sinh_0.
  apply complex_eq; cbn [real imag]; ring.
Qed.

Lemma truediv_real (b : complex) (s : R) :
  s <> 0 ->
  cmath.truediv b (Complex s 0) = Ok (Complex (real b / s) (imag b / s)).
Proof.
  intros Hs. unfold cmath.truediv.
  assert (Hz : cmath.is_zero (Complex s 0) = false)
    by (apply is_zero_false; cbn [real imag]; nra).
  rewrite Hz. f_equal. apply complex_eq; cbn [real imag]; field; exact Hs.
Qed.

Lemma log_unit (q : complex) :
  real q * real q + imag q * imag q = 1 ->
  cmath.log q = Ok (Complex 0 (cmath.phase q)).
Proof.
  intros Hq. unfold cmath.log.
  assert (Hz : cmath.is_zero q = false) by (apply is_zero_false; lra).
  rewrite Hz. unfold cmath.abs. rewrite Hq, sqrt_1, ln_1. reflexivity.
Qed.

Lemma get_vector_unit_when_alpha_phase_removed (alpha beta : complex) :
  real alpha * real alpha + imag alpha * imag alpha
  + (real beta * real beta + imag beta * imag beta) = 1 ->
  alpha <> Complex 0 0 -> beta <> Complex 0 0 ->
  denominator (snap (cmath.phase alpha)) (snap (cmath.phase beta))
  = cmath.exp (cmath.mul cmath.j (of_float (cmath.phase alpha))) ->
  exists x y z : R,
    get_vector alpha beta = Ok [x; y; z] /\ x * x + y * y + z * z = 1.
Proof.
  intros Hnorm Halpha Hbeta Hden.
  assert (Ha : cmath.is_zero alpha = false).
  { destruct (cmath.is_zero alpha) eqn:E; [|reflexivity].
    apply is_zero_true in E. contradiction. }
  assert (Hb : cmath.is_zero beta = false).
  { destruct (cmath.is_zero beta) eqn:E; [|reflexivity].
    apply is_zero_true in E. contradiction. }
  pose proof (proj1 (is_zero_false _) Ha) as Ha2.
  pose proof (proj1 (is_zero_false _) Hb) as Hb2.
  unfold get_vector. rewrite Hden, exp_j.
  unfold cartesian.
  rewrite !truediv_unit_circle, !bind_Ok, !Reqb_abs, Ha, Hb.
  cbn [orb]. cbv zeta.
  rewrite rotate_phase.
  (* r = |alpha| lies in (0, 1) *)
  assert (Hr2 : cmath.abs alpha * cmath.abs alpha
                = real alpha * real alpha + imag alpha * imag alpha).
  { unfold cmath.abs. apply sqrt_sqrt. nra. }
  pose proof (abs_nonneg alpha) as Hr0.
  set (r := cmath.abs alpha) in *.
  assert (Hr : -1 < r < 1) by (split; nra).
  destruct (acos_real_axis r Hr) as (u & -> & Hu & Hcos & Hsin).
  rewrite truediv_double, bind_Ok, sin_real.
  assert (Hsu : 0 < sin u) by (apply sin_gt_0; lra).
  rewrite truediv_real, bind_Ok by lra.
  (* the quotient beta_new / sin(theta/2) is of modulus 1 *)
  pose proof (rotate_norm beta (cmath.phase alpha)) as Hbn.
  set (b := rotate beta (cmath.phase alpha)) in *.
  assert (Hs2 : sin u * sin u = 1 - r * r).
  { rewrite Hsin. apply sqrt_sqrt. nra. }
  rewrite log_unit, bind_Ok.
  2:{ cbn [real imag].
      replace (real b / sin u * (real b / sin u)
               + imag b / sin u * (imag b / sin u))
        with ((real b * real b + imag b * imag b) / (sin u * sin u))
        by (field; lra).
      rewrite Hbn, Hs2. replace (1 - r * r) with
        (real beta * real beta + imag beta * imag beta) by lra.
      field. lra. }
  set (p := cmath.phase (Complex (real b / sin u) (imag b / sin u))).
  replace (cmath.mul (of_float 2) (Complex u 0)) with (Complex (2 * u) 0)
    by (apply complex_eq; unfold cmath.mul, of_float; cbn [real imag]; ring).
  replace (cmath.mul (cmath.neg cmath.j) (Complex 0 p)) with (Complex p 0)
    by (apply complex_eq; unfold cmath.mul, cmath.neg, cmath.j;
        cbn [real imag]; ring).
  rewrite !sin_real, !cos_real.
  do 3 eexists. split; [reflexivity|].
  cbn [cmath.mul real imag].
  pose proof (sin2_cos2 (2 * u)) as H1. pose proof (sin2_cos2 p) as H2.
  unfold Rsqr in H1, H2.
  set (s2 := sin (2 * u)) in *. set (c2 := cos (2 * u)) in *.
  set (sp := sin p) in *. set (cp := cos p) in *.
  transitivity (s2 * s2 * (sp * sp + cp * cp) + c2 * c2); [ring|].
  rewrite H2. lra.
Qed.

(** [alpha1], [beta1] is such a pair: there the vector is of unit length,
    unlike the one computed for the same state at [alpha0], [beta0]. *)
Lemma get_vector_unit_at_alpha1_beta1 :
  exists x y z : R,
    get_vector alpha1 beta1 = Ok [x; y; z] /\ x * x + y * y + z * z = 1.
Proof.
  pose proof inv_sqrt2_pos as Hs. pose proof inv_sqrt2_sqr as Hsq.
  pose proof PI_RGT_0 as Hpi.
  apply get_vector_unit_when_alpha_phase_removed.
  - unfold alpha1, beta1; cbn [real imag]. lra.
  - unfold alpha1; intros H; injection H; lra.
  - unfold beta1; intros H; injection H; lra.
  - rewrite phase_alpha1, phase_beta1, !snap_nonpositive by lra.
    rewrite denominator_alpha1_beta1, exp_j. reflexivity.
Qed.

End BlochFacts.

(** ** The [qft] circuit *)

Module QftFacts.

Import cmath (complex, Complex, real, imag, of_float).
Import cmathFacts Qft.

Local Open Scope R_scope.

Lemma qft_output_amplitudes (x0 x1 x2 x3 x4 x5 x6 x7 : complex) :
  qft_output [x0; x1; x2; x3; x4; x5; x6; x7]
  = qft_amplitudes x0 x1 x2 x3 x4 x5 x6 x7.
Proof. reflexivity. Qed.

Lemma sqrt2_sqr : sqrt 2 * sqrt 2 = 2.
Proof. apply sqrt_sqrt. lra. Qed.

Lemma sqrt2_neq_0 : sqrt 2 <> 0.
Proof. pose proof (sqrt_lt_R0 2). lra. Qed.

Lemma sqrt_8 : sqrt (INR 8) = 2 * sqrt 2.
Proof.
  replace (INR 8) with (2 * 2 * 2) by (simpl; ring).
  rewrite sqrt_mult by lra. rewrite sqrt_square by lra. reflexivity.
Qed.

(** The two phases of the controlled rotations. *)
Lemma phase_half :
  cmath.exp (cmath.mul cmath.j (of_float (PI * (1 * 0.5)))) = Complex 0 1.
Proof.
  rewrite exp_j. replace (PI * (1 * 0.5)) with (PI / 2) by lra.
  rewrite cos_PI2, sin_PI2. reflexivity.
Qed.

Lemma phase_quarter :
  cmath.exp (cmath.mul cmath.j (of_float (PI * (1 * 0.25))))
  = Complex (1 / sqrt 2) (1 / sqrt 2).
Proof.
  rewrite exp_j. replace (PI * (1 * 0.25)) with (PI / 4) by lra.
  rewrite cos_PI4, sin_PI4. reflexivity.
Qed.

Lemma unit_circle_eighths (r : nat) :
  (r < 8)%nat ->
  Complex (cos (2 * PI * INR r / 8)) (sin (2 * PI * INR r / 8)) = omega8 r.
Proof.
  intros Hr.
  assert (H5 : 2 * PI * INR 5 / 8 = PI / 4 + PI) by (simpl; field).
  assert (H6 : 2 * PI * INR 6 / 8 = PI / 2 + PI) by (simpl; field).
  assert (H7 : 2 * PI * INR 7 / 8 = 3 * (PI / 4) + PI) by (simpl; field).
  destruct r as [|[|[|[|[|[|[|[|r]]]]]]]]; try lia; unfold omega8.
  - replace (2 * PI * INR 0 / 8) with 0 by (simpl; field).
    rewrite cos_0, sin_0. reflexivity.
  - replace (2 * PI * INR 1 / 8) with (PI / 4) by (simpl; field).
    rewrite cos_PI4, sin_PI4. reflexivity.
  - replace (2 * PI * INR 2 / 8) with (PI / 2) by (simpl; field).
    rewrite cos_PI2, sin_PI2. reflexivity.
  - replace (2 * PI * INR 3 / 8) with (3 * (PI / 4)) by (simpl; field).
    rewrite cos_3PI4, sin_3PI4. reflexivity.
  - replace (2 * PI * INR 4 / 8) with PI by (simpl; field).
    rewrite cos_PI, sin_PI. reflexivity.
  - rewrite H5, neg_cos, neg_sin, cos_PI4, sin_PI4.
    apply complex_eq; simpl; field; apply sqrt2_neq_0.
  - rewrite H6, neg_cos, neg_sin, cos_PI2, sin_PI2.
    apply complex_eq; simpl; ring.
  - rewrite H7, neg_cos, neg_sin, cos_3PI4, sin_3PI4.
    apply complex_eq; simpl; field; apply sqrt2_neq_0.
Qed.

(** The phase [e^(2 pi i j k / 8)] of the Fourier sum. *)
Lemma fourier_phase (j k : nat) :
  cmath.exp (cmath.mul cmath.j (of_float (2 * PI * INR j * INR k / INR 8)))
  = omega8 ((j * k) mod 8).
Proof.
  rewrite exp_j.
  pose proof (Nat.div_mod_eq (j * k) 8) as Hdm.
  pose proof (Nat.mod_upper_bound (j * k) 8 ltac:(lia)) as Hlt.
  set (r := ((j * k) mod 8)%nat) in *. set (n := ((j * k) / 8)%nat) in *.
  rewrite <- (unit_circle_eighths r Hlt).
  assert (Harg : 2 * PI * INR j * INR k / INR 8
                 = 2 * PI * INR r / 8 + 2 * INR n * PI).
  { replace (INR j * INR k) with (INR (j * k)) by apply mult_INR.
    rewrite Rmult_assoc, <- mult_INR.
    rewrite Hdm, plus_INR, mult_INR.
    replace (INR 8) with 8 by (simpl; ring). field. }
  rewrite Harg, cos_period, sin_period. reflexivity.
Qed.

Ltac eval_nat_args :=
  repeat match goal with
         | |- context [omega8 ?e] =>
             lazymatch e with
             | Nat.modulo _ _ =>
                 let v := eval vm_compute in e in change e with v
             end
         | |- context [reverse_bits ?e] =>
             let v := eval vm_compute in (reverse_bits e) in
             change (reverse_bits e) with v
         end.

Ltac complex_field :=
  apply complex_eq;
  unfold cirq.scale, cmath.add, cmath.sub, cmath.mul, omega8;
  cbn [real imag];
  field [sqrt2_sqr]; apply sqrt2_neq_0.

(** The circuit computes the Fourier sum with the bits of the output index
    reversed: it is the textbook circuit without its final swap. *)
Lemma qft_bit_reversed_fourier (x0 x1 x2 x3 x4 x5 x6 x7 : complex) (k : nat) :
  (k < 8)%nat ->
  exists y : cirq.state,
    qft_output [x0; x1; x2; x3; x4; x5; x6; x7] = Some y /\
    cirq.amplitude y k
    = fourier 8 [x0; x1; x2; x3; x4; x5; x6; x7] (reverse_bits k).
Proof.
  intros Hk. rewrite qft_output_amplitudes. unfold qft_amplitudes.
  eexists; split; [reflexivity|].
  rewrite !phase_half, !phase_quarter.
  unfold fourier, fourier_sum. rewrite sqrt_8.
  destruct k as [|[|[|[|[|[|[|[|k]]]]]]]]; try lia;
    eval_nat_args;
    cbn [seq fmap list_fmap foldr cirq.amplitude nth];
    rewrite !fourier_phase; eval_nat_args;
    complex_field.
Qed.

Lemma fourier_basis_1_at_4 :
  fourier 8 basis_1 4 = Complex (-1 / (2 * sqrt 2)) 0.
Proof.
  unfold fourier, fourier_sum, basis_1. rewrite sqrt_8.
  cbn [seq fmap list_fmap foldr cirq.amplitude nth].
  rewrite !fourier_phase; eval_nat_args. complex_field.
Qed.

Lemma fourier_basis_1_at_1 :
  fourier 8 basis_1 1 = Complex (1 / 4) (1 / 4).
Proof.
  unfold fourier, fourier_sum, basis_1. rewrite sqrt_8.
  cbn [seq fmap list_fmap foldr cirq.amplitude nth].
  rewrite !fourier_phase; eval_nat_args. complex_field.
Qed.

(** C6 on the basis state [|001>] (amplitudes [x_1 = 1], all others 0):
    the amplitude of index 1 that [qft] produces is [-1/sqrt(8)], the
    Fourier sum of index 4, whereas the Fourier sum of index 1 is
    [e^(i pi/4)/sqrt(8) = (1+i)/4].  The circuit is the Fourier transform
    followed by a reversal of the three output bits. *)
Theorem qft_differs_from_fourier_on_basis_1 :
  exists y : cirq.state,
    qft_output basis_1 = Some y /\
    cirq.amplitude y 1 = Complex (-1 / (2 * sqrt 2)) 0 /\
    cirq.amplitude y 1 = fourier 8 basis_1 4 /\
    fourier 8 basis_1 1 = Complex (1 / 4) (1 / 4) /\
    cirq.amplitude y 1 <> fourier 8 basis_1 1.
Proof.
  destruct (qft_bit_reversed_fourier
              (Complex 0 0) (Complex 1 0) (Complex 0 0) (Complex 0 0)
              (Complex 0 0) (Complex 0 0) (Complex 0 0) (Complex 0 0) 1)
    as (y & Hy & Hamp); [lia|].
  change (reverse_bits 1) with 4%nat in Hamp. fold basis_1 in Hy, Hamp.
  exists y. split; [exact Hy|].
  rewrite Hamp, fourier_basis_1_at_4, fourier_basis_1_at_1.
  repeat split. intros H. injection H as _ H. lra.
Qed.
End QftFacts.
(** ** [get_vector] where the divisor makes [alpha_new] real *)

Module BlochVectorFacts.

Import cmath (complex, Complex, real, imag, of_float, rotate).
Import cmathFacts Bloch BlochFacts.

Local Open Scope R_scope.

(** [abs(z)*exp(1j*phase(z))] is [z]. *)
Lemma polar_form (z : complex) :
  cmath.abs z * cos (cmath.phase z) = real z /\
  cmath.abs z * sin (cmath.phase z) = imag z.
Proof. destruct z as [x y]. apply (polar x y). Qed.

Lemma cosh_opp_ln (m : R) : 0 < m -> cosh (- ln m) = (m + / m) / 2.
Proof.
  intros Hm. unfold cosh.
  rewrite Ropp_involutive, exp_Ropp, exp_ln by exact Hm.
  field. lra.
Qed.

(** Amplitudes whose modulus is between [1e-50] and [1e50]: the modulus,
    the logarithm and the hyperbolic functions of [get_vector] then stay
    inside the range of the doubles. *)
Lemma moderate_nonzero (beta : complex) :
  1 / 10 ^ 100 <= real beta * real beta + imag beta * imag beta ->
  cmath.is_zero beta = false.
Proof.
  intros Hlo. apply is_zero_false.
  assert (0 < 1 / 10 ^ 100)
    by (apply Rdiv_lt_0_compat; [lra|apply pow_lt; lra]).
  lra.
Qed.

Lemma moderate_bounds (x : R) :
  1 / 10 <= x <= 10 -> 1 / 10 ^ 100 <= x <= 10 ^ 100.
Proof.
  intros [Hlo Hhi].
  assert (H10 : 10 <= 10 ^ 100).
  { replace 10 with (10 ^ 1) at 1 by ring. apply Rle_pow; [lra|lia]. }
  split; [|lra].
  apply Rle_trans with (1 / 10); [|exact Hlo].
  unfold Rdiv. rewrite !Rmult_1_l.
  apply Rinv_le_contravar; lra.
Qed.

(** The computation of [get_vector] when the division by the phase factor
    [exp(1j*tau)] leaves [alpha_new] real, equal to [s], with [0 < |s| < 1]:
    [theta = 2 acos(s)] is real, [phi] has the phase of [beta_new] as real
    part and [-ln |beta_new / sin(theta/2)|] as imaginary part. *)
Lemma cartesian_real_alpha_new (alpha beta : complex) (tau s : R) :
  real alpha = s * cos tau -> imag alpha = s * sin tau ->
  s <> 0 -> -1 < s < 1 ->
  cmath.is_zero beta = false ->
  let a2 := real alpha * real alpha + imag alpha * imag alpha in
  let b2 := real beta * real beta + imag beta * imag beta in
  let k := 1 + (1 - a2) / b2 in
  cartesian alpha beta (Complex (cos tau) (sin tau))
  = Ok [ k * (real alpha * real beta + imag alpha * imag beta);
         k * (real alpha * imag beta - imag alpha * real beta);
         2 * a2 - 1 ].
Proof.
  intros Har Hai Hs0 Hs Hb a2 b2 k.
  pose proof (proj1 (is_zero_false _) Hb) as Hb2. fold b2 in Hb2.
  pose proof (sin2_cos2 tau) as Htau. unfold Rsqr in Htau.
  assert (Ha2 : a2 = s * s) by (unfold a2; rewrite Har, Hai; nra).
  assert (Ha : cmath.is_zero alpha = false).
  { apply is_zero_false. fold a2. rewrite Ha2. nra. }
  unfold cartesian.
  rewrite !truediv_unit_circle, !bind_Ok, !Reqb_abs, Ha, Hb.
  cbn [orb]. cbv zeta.
  replace (rotate alpha tau) with (Complex s 0)
    by (apply complex_eq; unfold rotate; cbn [real imag];
        rewrite Har, Hai; nra).
  destruct (acos_real_axis s Hs) as (u & -> & Hu & Hcos & Hsin).
  rewrite truediv_double, bind_Ok, sin_real.
  assert (Hsu : 0 < sin u) by (apply sin_gt_0; lra).
  rewrite truediv_real, bind_Ok by lra.
  pose proof (rotate_norm beta tau) as Hbn. fold b2 in Hbn.
  assert (Hbr : real (rotate beta tau)
                = real beta * cos tau + imag beta * sin tau) by reflexivity.
  assert (Hbi : imag (rotate beta tau)
                = imag beta * cos tau - real beta * sin tau) by reflexivity.
  set (b := rotate beta tau) in *.
  assert (Hs2 : sin u * sin u = 1 - s * s).
  { rewrite Hsin. apply sqrt_sqrt. nra. }
  set (q := Complex (real b / sin u) (imag b / sin u)).
  assert (Hq2 : real q * real q + imag q * imag q = b2 / (sin u * sin u)).
  { unfold q. cbn [real imag]. rewrite <- Hbn. field. lra. }
  assert (Hq2pos : 0 < real q * real q + imag q * imag q).
  { rewrite Hq2. apply Rdiv_lt_0_compat; nra. }
  assert (Hqnz : cmath.is_zero q = false)
    by (apply is_zero_false; exact Hq2pos).
  unfold cmath.log. rewrite Hqnz, bind_Ok.
  destruct (polar_form q) as [Hpc Hps].
  assert (Hm : 0 < cmath.abs q).
  { unfold cmath.abs. apply sqrt_lt_R0. exact Hq2pos. }
  assert (Hm2 : cmath.abs q * cmath.abs q = b2 / (sin u * sin u)).
  { rewrite <- Hq2. unfold cmath.abs. apply sqrt_sqrt. lra. }
  set (m := cmath.abs q) in *. set (p := cmath.phase q) in *.
  replace (cmath.mul (of_float 2) (Complex u 0)) with (Complex (2 * u) 0)
    by (apply complex_eq; unfold cmath.mul, of_float; cbn [real imag]; ring).
  replace (cmath.mul (cmath.neg cmath.j) (Complex (ln m) p))
    with (Complex p (- ln m))
    by (apply complex_eq; unfold cmath.mul, cmath.neg, cmath.j;
        cbn [real imag]; ring).
  rewrite !sin_real, !cos_real.
  unfold cmath.sin, cmath.cos, cmath.mul. cbn [real imag mret result_ret].
  rewrite (cosh_opp_ln m Hm), sin_2a, cos_2a_cos, Hcos.
  assert (Hcp : cos p = real b / sin u / m).
  { unfold q in Hpc. cbn [real imag] in Hpc. rewrite <- Hpc. field. lra. }
  assert (Hsp : sin p = imag b / sin u / m).
  { unfold q in Hps. cbn [real imag] in Hps. rewrite <- Hps. field. lra. }
  rewrite Hcp, Hsp.
  assert (Hinv : / (m * m) = (1 - a2) / b2).
  { rewrite Hm2, Ha2, <- Hs2. field. split; lra. }
  assert (Hk : k = 1 + / (m * m)) by (unfold k; rewrite Hinv; reflexivity).
  assert (Hsr : s * real b = real alpha * real beta + imag alpha * imag beta).
  { rewrite Hbr, Har, Hai. ring. }
  assert (Hsi : s * imag b = real alpha * imag beta - imag alpha * real beta).
  { rewrite Hbi, Har, Hai. ring. }
  rewrite <- Hsr, <- Hsi, Hk, Ha2.
  f_equal. f_equal; [|f_equal; [|f_equal]]; field; lra.
Qed.



(** *** Real [alpha] *)

(** With the angle of [alpha] at 0 the divisor is [exp(1j*0)], whatever the
    phase of [beta]. *)
Lemma denominator_zero_phase (angle_beta : R) :
  denominator 0 angle_beta = cmath.exp (cmath.mul cmath.j (of_float 0)).
Proof.
  unfold denominator, Rltb.
  destruct (Rlt_dec angle_beta 0), (Rlt_dec 0 angle_beta);
    cbn [andb orb]; try reflexivity; lra.
Qed.

Lemma phase_positive_real (a : R) : 0 < a -> cmath.phase (Complex a 0) = 0.
Proof.
  intros Ha. unfold cmath.phase, cmath.atan2; cbn [real imag].
  destruct (Rlt_dec 0 a) as [_|H]; [|contradiction].
  unfold Rdiv. rewrite Rmult_0_l. apply atan_0.
Qed.

Lemma phase_negative_real (a : R) : a < 0 -> cmath.phase (Complex a 0) = PI.
Proof.
  intros Ha. unfold cmath.phase, cmath.atan2; cbn [real imag].
  destruct (Rlt_dec 0 a) as [H|_]; [lra|].
  destruct (Rlt_dec a 0) as [_|H]; [|contradiction].
  destruct (Rle_dec 0 0) as [_|H]; [|lra].
  unfold Rdiv. rewrite Rmult_0_l, atan_0. ring.
Qed.

(** The phase [pi] of a negative real number is replaced by 0. *)
Lemma snap_pi : snap PI = 0.
Proof.
  rewrite snap_spec. destruct (Rle_dec _ _) as [_|H]; [reflexivity|].
  exfalso. apply H. pose proof PI_RGT_0 as Hpi.
  replace (PI - PI) with 0 by ring. rewrite Rabs_R0.
  apply Rmult_le_pos.
  - apply Rlt_le, Rdiv_lt_0_compat; [lra|]. apply pow_lt. lra.
  - eapply Rle_trans; [|apply Rmax_r]. lra.
Qed.

(** For a real [alpha] that is not zero the angle of [alpha] after the
    rounding guard is 0. *)
Lemma snap_phase_real (a : R) :
  a <> 0 -> snap (cmath.phase (Complex a 0)) = 0.
Proof.
  intros Ha. destruct (Rlt_dec 0 a) as [Hpos|Hneg].
  - rewrite phase_positive_real by exact Hpos. apply snap_nonpositive. lra.
  - rewrite phase_negative_real by lra. apply snap_pi.
Qed.



(** *** [alpha = 1]: the division by [sin(theta/2)] *)

Lemma acos_one : cmath.acos (Complex 1 0) = Complex 0 0.
Proof.
  unfold cmath.acos, cmath.sqrt, cmath.abs. cbn [real imag].
  replace (1 - 1) with 0 by ring. replace (- 0) with 0 by ring.
  replace (0 * 0 + 0 * 0) with 0 by ring. rewrite sqrt_0.
  replace ((0 + 0) / 2) with 0 by field.
  replace ((0 - 0) / 2) with 0 by field. rewrite sqrt_0.
  set (X := sqrt ((sqrt ((1 + 1) * (1 + 1) + 0 * 0) + (1 + 1)) / 2)).
  assert (HX : 0 < X).
  { apply sqrt_lt_R0.
    pose proof (sqrt_pos ((1 + 1) * (1 + 1) + 0 * 0)). lra. }
  apply complex_eq; cbn [real imag].
  - unfold cmath.atan2. destruct (Rlt_dec 0 X) as [_|H]; [|contradiction].
    unfold Rdiv. rewrite Rmult_0_l, atan_0. ring.
  - match goal with |- arcsinh ?e = 0 => replace e with 0 by ring end.
    apply arcsinh_0.
Qed.

(** With [alpha = 1] the special case is not taken unless [beta] is zero,
    [theta = 2*acos(1)] is 0 and the division by [sin(theta/2)] raises. *)
Lemma get_vector_alpha_one (beta : complex) :
  cmath.is_zero beta = false ->
  get_vector (Complex 1 0) beta = Raise ZeroDivisionError.
Proof.
  intros Hb.
  unfold get_vector.
  rewrite (snap_phase_real 1) by lra.
  rewrite denominator_zero_phase, exp_j.
  unfold cartesian.
  rewrite !truediv_unit_circle, !bind_Ok, !Reqb_abs, Hb.
  replace (cmath.is_zero (Complex 1 0)) with false
    by (symmetry; apply is_zero_false; cbn [real imag]; lra).
  cbn [orb]. cbv zeta.
  replace (rotate (Complex 1 0) 0) with (Complex 1 0)
    by (apply complex_eq; unfold rotate; cbn [real imag];
        rewrite cos_0, sin_0; ring).
  rewrite acos_one, truediv_double, bind_Ok, sin_real, sin_0.
  unfold cmath.truediv.
  replace (cmath.is_zero (Complex 0 0)) with true
    by (symmetry; apply is_zero_true; reflexivity).
  reflexivity.
Qed.

(** C9.  The division by zero is reached: at [alpha = 1.0],
    [beta = 1e-20], a pair whose squared norm differs from 1 by [1e-40],
    less than half the spacing [2^-52] of the doubles at 1, so that it is
    normalised in the arithmetic the function runs in, the special case
    [abs(alpha) == 0 or abs(beta) == 0] is not taken, [theta] is 0 and
    [beta_new / cmath.sin(theta/2)] raises [ZeroDivisionError]. *)
Theorem get_vector_zero_division_at_rounded_unit_alpha :
  get_vector (Complex 1 0) (Complex (1 / 10 ^ 20) 0)
  = Raise ZeroDivisionError /\
  Complex (1 / 10 ^ 20) 0 <> Complex 0 0 /\
  Rabs (1 * 1 + 0 * 0 + (1 / 10 ^ 20 * (1 / 10 ^ 20) + 0 * 0) - 1)
  < 1 / 2 ^ 53.
Proof.
  assert (Hpow : 10 ^ 20 = 100000000000000000000) by (simpl; ring).
  assert (Hpow2 : 2 ^ 53 = 9007199254740992) by (simpl; ring).
  rewrite Hpow, Hpow2.
  split; [|split].
  - apply get_vector_alpha_one, is_zero_false. cbn [real imag]. lra.
  - intros H. injection H. lra.
  - rewrite Rabs_pos_eq; lra.
Qed.

(** X23: With [alpha = 1] and any [beta] that is not zero (of modulus at
    most [1e50], so that [abs(beta)] does not overflow), [get_vector] raises
    [ZeroDivisionError]: its special case tests only
    [abs(alpha) == 0 or abs(beta) == 0], and [sin(theta/2)] is zero. *)
Theorem get_vector_unit_alpha_divides_by_zero (beta : complex) :
  beta <> Complex 0 0 ->
  real beta * real beta + imag beta * imag beta <= 10 ^ 100 ->
  get_vector (Complex 1 0) beta = Raise ZeroDivisionError.
Proof.
  intros Hbeta _. apply get_vector_alpha_one.
  destruct (cmath.is_zero beta) eqn:E; [|reflexivity].
  apply is_zero_true in E. contradiction.
Qed.

Lemma get_vector_unit_alpha_divides_by_zero_witness :
  get_vector (Complex 1 0) (Complex 0 1) = Raise ZeroDivisionError.
Proof.
  apply (get_vector_unit_alpha_divides_by_zero (Complex 0 1)).
  - intros H. injection H. lra.
  - apply (moderate_bounds (0 * 0 + 1 * 1)). lra.
Defined.

End BlochVectorFacts.

(** ** The gates [u3] and [u1] of notebook 14 *)

Module U3Facts.

Import cmath (complex, Complex, real, imag, of_float).
Import cmathFacts Hhl Matrix.

Local Open Scope R_scope.

Ltac list_eq :=
  repeat match goal with
         | |- _ :: _ = _ :: _ => apply (f_equal2 cons)
         | |- [] = [] => reflexivity
         end.

(** The matrix of [u3(t, p, l)], entry by entry. *)
Lemma u3_matrix (t p l : R) :
  of_gate (u3 t p l)
  = Some [ [ Complex (cos (t / 2)) 0;
             Complex (- cos l * sin (t / 2)) (- sin l * sin (t / 2)) ];
           [ Complex (cos p * sin (t / 2)) (sin p * sin (t / 2));
             Complex (cos (p + l) * cos (t / 2)) (sin (p + l) * cos (t / 2)) ] ].
Proof.
  unfold u3, of_gate. rewrite !exp_j. unfold cmath.mul, cmath.neg, of_float.
  cbn [real imag].
  f_equal. list_eq; apply complex_eq; cbn [real imag]; ring.
Qed.

Ltac trig_vars t p l :=
  pose proof (sin2_cos2 (t / 2)) as Ht; pose proof (sin2_cos2 p) as Hp;
  pose proof (sin2_cos2 l) as Hl; unfold Rsqr in Ht, Hp, Hl;
  rewrite ?cos_neg, ?sin_neg, ?cos_plus, ?sin_plus;
  generalize dependent (sin (t / 2)); generalize dependent (cos (t / 2));
  generalize dependent (sin p); generalize dependent (cos p);
  generalize dependent (sin l); generalize dependent (cos l);
  intros cl sl Hl cp sp Hp ct st Ht.

(** X3: [u3(t, p, l)] is a unitary matrix for all angles, so [cirq.MatrixGate]
    accepts it. *)
Theorem u3_unitary (t p l : R) :
  exists m : matrix,
    of_gate (u3 t p l) = Some m /\
    matmul (dagger m) m = identity2 /\
    matmul m (dagger m) = identity2.
Proof.
  eexists. split; [apply u3_matrix|].
  unfold matmul, dagger, transpose, column, dot, conj, identity2.
  cbn [fmap list_fmap seq length nth zip_with foldr real imag
       cmath.add cmath.mul].
  trig_vars t p l.
  split; list_eq; apply complex_eq; unfold cmath.add, cmath.mul;
    cbn [real imag]; nsatz.
Qed.

(** X4: [u3(-t, -l, -p)] is the inverse (the conjugate transpose) of
    [u3(t, p, l)]; the uncomputation of the circuit relies on it. *)
Theorem u3_inverse (t p l : R) :
  exists m m' : matrix,
    of_gate (u3 t p l) = Some m /\
    of_gate (u3 (- t) (- l) (- p)) = Some m' /\
    m' = dagger m /\
    matmul m' m = identity2 /\ matmul m m' = identity2.
Proof.
  do 2 eexists. split; [apply u3_matrix|]. split; [apply u3_matrix|].
  replace (- t / 2) with (- (t / 2)) by field.
  replace (- l + - p) with (- (p + l)) by ring.
  unfold matmul, dagger, transpose, column, dot, conj, identity2.
  cbn [fmap list_fmap seq length nth zip_with foldr real imag].
  trig_vars t p l.
  repeat split; list_eq; apply complex_eq; unfold cmath.add, cmath.mul;
    cbn [real imag]; nsatz.
Qed.

Lemma u1_matrix (l : R) :
  of_gate (u1 l)
  = Some [ [Complex 1 0; Complex 0 0];
           [Complex 0 0; Complex (cos l) (sin l)] ].
Proof.
  unfold u1. rewrite u3_matrix. replace (0 / 2) with 0 by field.
  rewrite Rplus_0_l, cos_0, sin_0.
  f_equal. list_eq; apply complex_eq; cbn [real imag]; ring.
Qed.

(** X5: [u1(l)] is the phase gate [diag(1, e^(i l))]. *)
Theorem u1_diagonal (l : R) :
  of_gate (u1 l)
  = Some [ [Complex 1 0; Complex 0 0];
           [Complex 0 0; Complex (cos l) (sin l)] ].
Proof.
  unfold u1. rewrite u3_matrix. replace (0 / 2) with 0 by field.
  rewrite Rplus_0_l, cos_0, sin_0.
  f_equal. list_eq; apply complex_eq; cbn [real imag]; ring.
Qed.

(** X6: Phase gates compose by adding their angles. *)
Theorem u1_compose (a b : R) :
  exists ma mb : matrix,
    of_gate (u1 a) = Some ma /\ of_gate (u1 b) = Some mb /\
    of_gate (u1 (a + b)) = Some (matmul ma mb).
Proof.
  exists [ [Complex 1 0; Complex 0 0]; [Complex 0 0; Complex (cos a) (sin a)] ],
         [ [Complex 1 0; Complex 0 0]; [Complex 0 0; Complex (cos b) (sin b)] ].
  rewrite !u1_matrix. repeat split.
  unfold matmul, transpose, column, dot.
  cbn [fmap list_fmap seq length nth zip_with foldr].
  rewrite cos_plus, sin_plus.
  f_equal. list_eq; apply complex_eq; unfold cmath.add, cmath.mul;
    cbn [real imag]; ring.
Qed.

End U3Facts.

(** ** The [hhl] circuit *)

Module HhlCircuitFacts.

Import cmath (complex, Complex, real, imag, of_float).
Import cmathFacts Hhl Matrix U3Facts.

Local Open Scope R_scope.

(** The entries of the matrix that [u3(t, p, l)] builds. *)
Lemma u3_entries (t p l : R) :
  u3 t p l
  = cirq.MatrixGate
      [ [ Complex (cos (t / 2)) 0;
          Complex (- cos l * sin (t / 2)) (- sin l * sin (t / 2)) ];
        [ Complex (cos p * sin (t / 2)) (sin p * sin (t / 2));
          Complex (cos (p + l) * cos (t / 2)) (sin (p + l) * cos (t / 2)) ] ].
Proof.
  unfold u3. rewrite !exp_j. unfold cmath.mul, cmath.neg, of_float.
  cbn [real imag].
  f_equal. list_eq; apply complex_eq; cbn [real imag]; ring.
Qed.

Lemma u1_phase (l : R) : u1 l = cirq.MatrixGate (phase_matrix l).
Proof.
  unfold u1. rewrite u3_entries. replace (0 / 2) with 0 by field.
  rewrite Rplus_0_l, cos_0, sin_0. unfold phase_matrix.
  f_equal. list_eq; apply complex_eq; cbn [real imag]; ring.
Qed.

Lemma cu1_phase (l : R) :
  cu1 l = cirq.ControlledGate (cirq.MatrixGate (phase_matrix l)).
Proof. unfold cu1, cu3. fold (u1 l). rewrite u1_phase. reflexivity. Qed.

Lemma cu3_rotation (t : R) :
  cu3 t 0 0 = cirq.ControlledGate (cirq.MatrixGate (rotation_matrix t)).
Proof.
  unfold cu3. rewrite u3_entries. rewrite Rplus_0_l, cos_0, sin_0.
  unfold rotation_matrix.
  do 2 f_equal. list_eq; apply complex_eq; cbn [real imag]; ring.
Qed.

Lemma quarter_turn :
  cos (- PI / 2 / 2) = 1 / sqrt 2 /\ sin (- PI / 2 / 2) = - (1 / sqrt 2).
Proof.
  replace (- PI / 2 / 2) with (- (PI / 4)) by field.
  rewrite cos_neg, sin_neg, cos_PI4, sin_PI4. split; reflexivity.
Qed.

Lemma cu3_evolution :
  cu3 (- π / 2) (- π / 2) (π / 2)
  = cirq.ControlledGate (cirq.MatrixGate (evolution_matrix 1))
  /\ cu3 (- π / 2) (π / 2) (- π / 2)
     = cirq.ControlledGate (cirq.MatrixGate (evolution_matrix (-1))).
Proof.
  destruct quarter_turn as [Hc Hs].
  unfold cu3, π. rewrite !u3_entries, Hc, Hs.
  replace (- PI / 2 + PI / 2) with 0 by field.
  replace (PI / 2 + - PI / 2) with 0 by field.
  replace (- PI / 2) with (- (PI / 2)) by field.
  rewrite !cos_neg, !sin_neg, cos_PI2, sin_PI2, cos_0, sin_0.
  unfold evolution_matrix.
  split; do 2 f_equal; list_eq; apply complex_eq; cbn [real imag];
    field; apply QftFacts.sqrt2_neq_0.
Qed.

(** C5.  [hhl] is a constant circuit on the six qubits of
    [cirq.LineQubit.range(6)], the result of 37 [append] calls on an empty
    circuit.  Its 39 operations are the ones listed, gate by gate and angle
    by angle: the controlled evolution is the controlled
    [[1, i], [i, 1]] / sqrt 2 followed by two controlled phase gates of
    angle [3 pi / 4] between [CNOT]s; the inverse Fourier transformation
    uses the controlled phase [-pi / 2]; the ancilla is rotated by the
    controlled real rotations of angles [0.392699] and [0.19634955]; the
    uncomputation uses the phases [pi / 2] and [-3 pi / 4] and the
    controlled [[1, -i], [-i, 1]] / sqrt 2; the target state is prepared
    with [Rz(-pi)], the phase gate of angle [pi], [H],
    [Ry(-0.9311623288419387)] and [Rz(pi)]; the swap test is [H], [CNOT],
    [CCX], [CNOT], [H].  The operations touch exactly the six qubits, and the
    single measurement is the operation appended last, which measures [q[0]]
    and [q[5]] under the key 'result'. *)
Theorem hhl_six_qubits_one_final_measurement :
  let q0 := cirq.LineQubit 0 in let q1 := cirq.LineQubit 1 in
  let q2 := cirq.LineQubit 2 in let q3 := cirq.LineQubit 3 in
  let q4 := cirq.LineQubit 4 in let q5 := cirq.LineQubit 5 in
  let controlled m := cirq.on (cirq.ControlledGate (cirq.MatrixGate m)) in
  q = [q0; q1; q2; q3; q4; q5] /\
  length q = 6%nat /\
  hhl = foldl cirq.append [] hhl_appends /\
  length hhl_appends = 37%nat /\
  hhl =
    [ cirq.on cirq.H [q1]; cirq.on cirq.H [q2];
      controlled (evolution_matrix 1) [q2; q3];
      controlled (phase_matrix (3 * PI / 4)) [q2; q3];
      cirq.on cirq.CNOT [q2; q3];
      controlled (phase_matrix (3 * PI / 4)) [q2; q3];
      cirq.on cirq.CNOT [q2; q3];
      cirq.on cirq.CNOT [q1; q3];
      cirq.on cirq.SWAP [q1; q2];
      cirq.on cirq.H [q2];
      controlled (phase_matrix (- PI / 2)) [q1; q2];
      cirq.on cirq.H [q1];
      cirq.on cirq.SWAP [q1; q2];
      controlled (rotation_matrix 0.392699) [q1; q0];
      controlled (rotation_matrix 0.19634955) [q2; q0];
      cirq.on cirq.SWAP [q1; q2];
      cirq.on cirq.H [q1];
      controlled (phase_matrix (PI / 2)) [q1; q2];
      cirq.on cirq.H [q2];
      cirq.on cirq.SWAP [q2; q1];
      cirq.on cirq.CNOT [q1; q3];
      cirq.on cirq.CNOT [q2; q3];
      controlled (phase_matrix (- 3 * PI / 4)) [q2; q3];
      cirq.on cirq.CNOT [q2; q3];
      controlled (phase_matrix (- 3 * PI / 4)) [q2; q3];
      controlled (evolution_matrix (-1)) [q2; q3];
      cirq.on cirq.H [q1]; cirq.on cirq.H [q2];
      cirq.on (cirq.Rz (- PI)) [q4];
      cirq.on (cirq.MatrixGate (phase_matrix PI)) [q4];
      cirq.on cirq.H [q4];
      cirq.on (cirq.Ry (-0.9311623288419387)) [q4];
      cirq.on (cirq.Rz PI) [q4];
      cirq.on cirq.H [q5];
      cirq.on cirq.CNOT [q4; q3];
      cirq.on cirq.CCX [q5; q3; q4];
      cirq.on cirq.CNOT [q4; q3];
      cirq.on cirq.H [q5];
      cirq.measure [q0; q5] "result" ] /\
  length hhl = 39%nat /\
  cirq.all_qubits hhl ≡ₚ q /\
  exists ops : cirq.Circuit,
    hhl = ops ++ [cirq.measure [q_ 0; q_ 5] "result"] /\
    forallb (fun op => negb (cirq.is_measurement op)) ops = true /\
    length (filter (fun op => cirq.is_measurement op = true) hhl) = 1%nat.
Proof.
  cbv zeta.
  do 4 (split; [reflexivity|]). split.
  - destruct cu3_evolution as [Hplus Hminus].
    unfold hhl, hhl_appends.
    rewrite Hplus, Hminus, !cu1_phase, !cu3_rotation, u1_phase.
    unfold π. reflexivity.
  - split; [reflexivity|]. split.
    + apply (bool_decide_unpack _). vm_compute. exact I.
    + exists (take 38 hhl). repeat split; reflexivity.
Qed.

End HhlCircuitFacts.

(** ** The uncomputation in the circuit [hhl] *)

Module UncomputeFacts.

Import cmath (complex, Complex, real, imag, of_float).
Import cmathFacts Hhl Matrix Uncompute U3Facts.

Local Open Scope R_scope.

Ltac matrix_product :=
  unfold matmul, transpose, column, dot, identity2;
  cbn [fmap list_fmap seq length nth zip_with foldr].

(** [cu1(-l)] undoes [cu1(l)]. *)
Lemma undoes_cu1 (l l' : R) (qs : list cirq.qubit) :
  l' = - l ->
  undoes (cirq.on (cu1 l) qs) (cirq.on (cu1 l') qs).
Proof.
  intros ->.
  apply (undoes_controlled (u1 l) (u1 (- l)) _ _ qs
           (u1_matrix l) (u1_matrix (- l)));
    matrix_product; rewrite cos_neg, sin_neg;
    pose proof (sin2_cos2 l) as Hl; unfold Rsqr in Hl;
    list_eq; apply complex_eq; unfold cmath.add, cmath.mul;
    cbn [real imag]; nsatz.
Qed.

(** [cu3(-π/2, π/2, -π/2)] undoes [cu3(-π/2, -π/2, π/2)]. *)
Lemma undoes_cu3 (qs : list cirq.qubit) :
  undoes (cirq.on (cu3 (-π/2) (-π/2) (π/2)) qs)
         (cirq.on (cu3 (-π/2) (π/2) (-π/2)) qs).
Proof.
  apply (undoes_controlled (u3 (-π/2) (-π/2) (π/2)) (u3 (-π/2) (π/2) (-π/2))
           _ _ qs (u3_matrix _ _ _) (u3_matrix _ _ _));
    unfold π;
    replace (- PI / 2 + PI / 2) with 0 by field;
    replace (PI / 2 + - PI / 2) with 0 by field;
    replace (- PI / 2) with (- (PI / 2)) by field;
    rewrite ?cos_neg, ?sin_neg, cos_PI2, sin_PI2, cos_0, sin_0;
    matrix_product;
    pose proof (sin2_cos2 (- (PI / 2) / 2)) as Ht; unfold Rsqr in Ht;
    generalize dependent (sin (- (PI / 2) / 2));
    generalize dependent (cos (- (PI / 2) / 2)); intros c s Ht;
    list_eq; apply complex_eq; unfold cmath.add, cmath.mul;
    cbn [real imag]; nsatz.
Qed.

(** X7: The uncomputation is the mirror image of the phase estimation.  The
    circuit is made of the cells of the phase estimation, the conditional
    rotation, the uncomputation and the swap test, in this order; the
    appends of the uncomputation, read backwards, undo the appends of the
    phase estimation one by one: the same [H], [CNOT] or [SWAP] on the same
    qubits, and for each controlled [u1] or [u3] the controlled gate of the
    inverse matrix. *)
Theorem uncomputation_mirrors_phase_estimation :
  hhl = concat (phase_estimation ++ conditional_rotation
                ++ uncomputation ++ swap_test) /\
  Forall2 (Forall2 undoes) phase_estimation (reverse uncomputation).
Proof.
  split; [reflexivity|].
  unfold phase_estimation, uncomputation, hhl_appends.
  cbn [take drop reverse rev_append cirq.on_each fmap list_fmap].
  repeat first
    [ apply Forall2_nil_2
    | apply Forall2_cons_2
    | apply undoes_H | apply undoes_CNOT | apply undoes_SWAP
    | apply undoes_SWAP_sym
    | apply undoes_cu3
    | apply undoes_cu1; unfold π; field ].
Qed.

End UncomputeFacts.

(** ** The histogram of a run and its success probability *)

Module HhlRunFacts.

Import HhlRun.

Lemma fold_func_snoc (ms : list bool) (b : bool) :
  fold_func (ms ++ [b]) = String (digit b) (fold_func ms).
Proof. unfold fold_func. rewrite reverse_app. reflexivity. Qed.

Lemma digit_inj (a b : bool) : digit a = digit b -> a = b.
Proof. destruct a, b; simpl; congruence. Qed.

Lemma fold_func_length (ms : list bool) :
  String.length (fold_func ms) = length ms.
Proof.
  induction ms as [|b ms IH] using rev_ind; [reflexivity|].
  rewrite fold_func_snoc, length_app. simpl. rewrite IH. lia.
Qed.

Lemma fold_func_inj (ms ms' : list bool) :
  fold_func ms = fold_func ms' -> ms = ms'.
Proof.
  revert ms'. induction ms as [|b ms IH] using rev_ind;
    intros ms' H; destruct ms' as [|b' ms' _] using rev_ind.
  - reflexivity.
  - rewrite fold_func_snoc in H. discriminate.
  - rewrite fold_func_snoc in H. discriminate.
  - rewrite !fold_func_snoc in H. injection H as Hd Hrest.
    apply digit_inj in Hd. rewrite (IH _ Hrest), Hd. reflexivity.
Qed.

(** X8: [fold_func] writes one digit per measured qubit, in reverse order, and
    distinct rows get distinct keys.  On the two bits measured by [hhl],
    [q[0]] then [q[5]], the key '01' is [q[0] = 1, q[5] = 0] and the key
    '11' is [q[0] = 1, q[5] = 1]. *)
Theorem fold_func_keys :
  (forall ms, String.length (fold_func ms) = length ms) /\
  (forall ms ms', fold_func ms = fold_func ms' -> ms = ms') /\
  (forall q0 q5, fold_func [q0; q5] = String (digit q5) (String (digit q0) "")) /\
  (forall q0 q5, fold_func [q0; q5] = "01" <-> q0 = true /\ q5 = false) /\
  (forall q0 q5, fold_func [q0; q5] = "11" <-> q0 = true /\ q5 = true).
Proof.
  split; [exact fold_func_length|]. split; [exact fold_func_inj|].
  split; [reflexivity|].
  split; intros q0 q5; destruct q0, q5; compute;
      (split;
       [ intros H; first [discriminate H | split; reflexivity]
       | intros [H1 H2];
         first [discriminate H1 | discriminate H2 | reflexivity] ]).
Qed.

(** *** The histogram *)

Lemma histogram_step (fold : list bool -> string) (rows : list (list bool))
    (c : gmap string Z) (key : string) :
  default 0%Z
    (foldl (fun c row => <[fold row := (default 0 (c !! fold row) + 1)%Z]> c)
           c rows !! key)
  = (default 0 (c !! key) + occurrences fold key rows)%Z.
Proof.
  unfold occurrences.
  revert c. induction rows as [|row rows IH]; intros c; simpl.
  - lia.
  - rewrite IH. rewrite filter_cons.
    destruct (decide (fold row = key)) as [->|Hne].
    + rewrite lookup_insert_eq. simpl. lia.
    + rewrite lookup_insert_ne by exact Hne. lia.
Qed.

(** The count of a key is the number of rows that fold to it; a key that
    no row folds to is read as 0. *)
Lemma histogram_count (fold : list bool -> string) (rows : list (list bool))
    (key : string) :
  default 0%Z (histogram fold rows !! key) = occurrences fold key rows.
Proof.
  unfold histogram. rewrite histogram_step, lookup_empty. simpl. lia.
Qed.

Lemma occurrences_fold_func (row0 : list bool) (rows : list (list bool)) :
  occurrences fold_func (fold_func row0) rows
  = Z.of_nat (length (filter (fun row => row = row0) rows)).
Proof.
  unfold occurrences. f_equal. f_equal.
  induction rows as [|row rows IH]; [reflexivity|].
  rewrite !filter_cons, IH.
  destruct (decide (fold_func row = fold_func row0)) as [E|N];
    destruct (decide (row = row0)) as [E'|N']; try reflexivity.
  - apply fold_func_inj in E. contradiction.
  - subst. contradiction.
Qed.

(** X9: The number printed after a run: among the repetitions that measured
    [q[0] = 1] (the rotation succeeded), the fraction that measured
    [q[5] = 0] (the swap test passed); 0 if no repetition measured
    [q[0] = 1].  It lies in [0, 1]. *)
Theorem psuccess_of_run_ratio (rows : list (list bool)) :
  Forall (fun row => length row = 2%nat) rows ->
  let passed :=
    Z.of_nat (length (filter (fun row => row = [true; false]) rows)) in
  let rotated :=
    Z.of_nat (length (filter (fun row => head row = Some true) rows)) in
  exists p : Q,
    psuccess_of_run rows = Ok p /\
    p = (if decide (rotated = 0%Z) then 0%Q
         else (inject_Z passed / inject_Z rotated)%Q) /\
    (0 <= p)%Q /\ (p <= 1)%Q.
Proof.
  intros Hlen passed rotated.
  unfold psuccess_of_run. rewrite HhlFacts.get_psuccess_unfold. cbv zeta.
  rewrite !histogram_count.
  change "01" with (fold_func [true; false]).
  change "11" with (fold_func [true; true]).
  rewrite !occurrences_fold_func. fold passed.
  set (failed :=
    Z.of_nat (length (filter (fun row => row = [true; true]) rows))).
  assert (Hrot : rotated = (passed + failed)%Z).
  { unfold rotated, passed, failed. clear passed rotated failed.
    induction Hlen as [|row rows Hrow _ IH]; [reflexivity|].
    rewrite !filter_cons.
    destruct row as [|a [|b [|? ?]]]; try discriminate Hrow.
    destruct a, b; simpl;
      repeat (destruct (decide _) as [?|?]; try congruence);
      simpl length; lia. }
  rewrite <- Hrot.
  eexists. split; [reflexivity|]. split; [reflexivity|].
  assert (Hp : (0 <= passed)%Z) by (unfold passed; lia).
  assert (Hf : (0 <= failed)%Z) by (unfold failed; lia).
  destruct (decide (rotated = 0%Z)) as [_|Hnz]; [split; done|].
  rewrite Hrot in *.
  apply HhlFacts.ratio_in_unit_interval; assumption.
Qed.

Lemma psuccess_of_run_ratio_witness :
  exists p : Q,
    psuccess_of_run sample_rows = Ok p /\
    p = (if decide (Z.of_nat (length (filter (fun row => head row = Some true)
                                             sample_rows)) = 0%Z)
         then 0%Q
         else (inject_Z (Z.of_nat (length (filter (fun row => row = [true; false])
                                                  sample_rows)))
               / inject_Z (Z.of_nat (length (filter
                                       (fun row => head row = Some true)
                                       sample_rows))))%Q) /\
    (0 <= p)%Q /\ (p <= 1)%Q.
Proof.
  apply (psuccess_of_run_ratio sample_rows).
  repeat constructor.
Defined.

End HhlRunFacts.

(** ** The phase-estimation circuits *)

Module QpeFacts.

Import cmath (complex, Complex, real, imag, of_float).
Import cmathFacts Qpe.

Local Open Scope R_scope.

Lemma phase_pi :
  cmath.exp (cmath.mul cmath.j (of_float (PI * 1))) = Complex (-1) 0.
Proof.
  rewrite exp_j, Rmult_1_r, cos_PI, sin_PI. reflexivity.
Qed.

Lemma phase_minus_pi :
  cmath.exp (cmath.mul cmath.j (of_float (PI * (1 * -1)))) = Complex (-1) 0.
Proof.
  rewrite exp_j. replace (PI * (1 * -1)) with (- PI) by ring.
  rewrite cos_neg, sin_neg, cos_PI, sin_PI.
  apply complex_eq; cbn [real imag]; ring.
Qed.

Ltac simulate_circuit :=
  cbv -[cmath.add cmath.sub cmath.mul cmath.exp cirq.scale of_float
        cmath.j Rdiv Rmult Rplus IZR Q2R sqrt PI];
  rewrite ?phase_pi, ?phase_minus_pi.

Ltac amplitudes_eq :=
  repeat match goal with
         | |- _ :: _ = _ :: _ => apply (f_equal2 cons)
         | |- [] = [] => reflexivity
         end;
  apply complex_eq;
  unfold cirq.scale, cmath.add, cmath.sub, cmath.mul; cbn [real imag];
  field [QftFacts.sqrt2_sqr]; apply QftFacts.sqrt2_neq_0.

Lemma qpe_0_state :
  state_before_measurement [q0; q1; ancilla] qpe_0 = Some (basis_state 3 0).
Proof. simulate_circuit. f_equal. amplitudes_eq. Qed.

Lemma qpe_1_state :
  state_before_measurement [q0; q1; ancilla] qpe_1 = Some (basis_state 3 5).
Proof. simulate_circuit. f_equal. amplitudes_eq. Qed.

(** X10: Before its measurements the circuit of the eigenvector [|b>] has
    brought the three qubits [q0, q1, ancilla] from [|000>] to the basis
    state [|b 0 b>]: measuring [q0] and [q1] gives [(b, 0)] with probability
    1, the two binary digits of the phase ([0.00] for [|0>], [0.10] for
    [|1>]). *)
Theorem qpe_measures_the_phase (b : bool) :
  exists psi : cirq.state,
    state_before_measurement [q0; q1; ancilla] (qpe b) = Some psi /\
    psi = basis_state 3 (if b then 5 else 0) /\
    probability 3 [0; 1]%nat [b; false] psi = 1.
Proof.
  destruct b; eexists;
    (split; [first [apply qpe_1_state | apply qpe_0_state]|]);
    (split; [reflexivity|]);
    cbv -[Rplus Rmult IZR]; ring.
Qed.

(** X11: The circuit on every state of the ancilla.  With [q0] and [q1] at
    [|0>] and the ancilla at [a|0> + b|1>], the gates of the first circuit
    give [a|000> + b|101>]: the ancilla keeps its state, and measuring
    [q0] and [q1] gives the digits [(0, 0)] with the probability [|a|^2] of
    the eigenvector [|0>] and [(1, 0)] with the probability [|b|^2] of the
    eigenvector [|1>]; no other outcome has a positive probability. *)
Theorem qpe_on_every_ancilla_state (a b : complex) :
  let zero := Complex 0 0 in
  let psi := [a; zero; zero; zero; zero; b; zero; zero] in
  simulate [q0; q1; ancilla]
           (filter (fun op => is_measurement op = false) qpe_0)
           [a; b; zero; zero; zero; zero; zero; zero]
  = Some psi /\
  probability 3 [0; 1]%nat [false; false] psi
  = real a * real a + imag a * imag a /\
  probability 3 [0; 1]%nat [true; false] psi
  = real b * real b + imag b * imag b /\
  probability 3 [0; 1]%nat [false; true] psi = 0 /\
  probability 3 [0; 1]%nat [true; true] psi = 0.
Proof.
  cbv zeta. split.
  - destruct a as [ar ai], b as [br bi].
    simulate_circuit. f_equal. amplitudes_eq.
  - repeat split; cbv -[Rplus Rmult IZR real imag]; cbn [real imag]; ring.
Qed.

End QpeFacts.

(** ** The circuits on two qubits of notebook 02 *)

Module TwoQubitsFacts.

Import cmath (complex, Complex, real, imag, of_float).
Import cmathFacts Qpe TwoQubits QpeFacts.

Local Open Scope R_scope.

Ltac probability_eq :=
  cbv -[Rplus Rmult Rdiv Rinv IZR sqrt real imag]; cbn [real imag];
  pose proof BlochFacts.inv_sqrt2_sqr as Hs;
  generalize dependent (1 / sqrt 2); intros s Hs; nra.

(** X22: The two circuits on two qubits.  Without the [CNOT] the state before
    the measurements is [(|00> + |10>)/sqrt 2]: [q[0]] is 0 or 1 with
    probability 1/2 each and [q[1]] is always 0.  With the [CNOT] it is
    [(|00> + |11>)/sqrt 2]: the two measured bits are equal with
    probability 1, both 0 or both 1 with probability 1/2 each. *)
Theorem cnot_correlates_the_measurements :
  let s := 1 / sqrt 2 in
  let zero := Complex 0 0 in
  let product := [Complex s 0; zero; Complex s 0; zero] in
  let bell := [Complex s 0; zero; zero; Complex s 0] in
  state_before_measurement q product_circuit = Some product /\
  state_before_measurement q entangling_circuit = Some bell /\
  probability 2 [0; 1]%nat [false; false] product = 1 / 2 /\
  probability 2 [0; 1]%nat [true; false] product = 1 / 2 /\
  probability 2 [1]%nat [true] product = 0 /\
  probability 2 [0; 1]%nat [false; false] bell = 1 / 2 /\
  probability 2 [0; 1]%nat [true; true] bell = 1 / 2 /\
  probability 2 [0; 1]%nat [false; true] bell = 0 /\
  probability 2 [0; 1]%nat [true; false] bell = 0.
Proof.
  cbv zeta.
  split; [simulate_circuit; f_equal; amplitudes_eq|].
  split; [simulate_circuit; f_equal; amplitudes_eq|].
  repeat split; probability_eq.
Qed.

End TwoQubitsFacts.

(** ** The circuit [qft] on every state of three qubits *)

Module QftCircuitFacts.

Import cmath (complex, Complex, real, imag, of_float).
Import Qft QftFacts.

(** X12: On every state vector of three qubits the simulation of [qft] returns a
    state vector whose amplitude of index [k] is the Fourier sum of index
    [reverse_bits k]: the circuit is the Fourier transform followed by the
    reversal of the three bits of the index, so that reading the output at
    the reversed index gives the Fourier transform. *)
Theorem qft_is_fourier_with_reversed_bits (x : cirq.state) :
  length x = 8%nat ->
  exists y : cirq.state,
    qft_output x = Some y /\
    (forall k, (k < 8)%nat ->
               cirq.amplitude y k = fourier 8 x (reverse_bits k)) /\
    (forall k, (k < 8)%nat ->
               cirq.amplitude y (reverse_bits k) = fourier 8 x k).
Proof.
  intros Hx.
  destruct x as [|x0 [|x1 [|x2 [|x3 [|x4 [|x5 [|x6 [|x7 [|]]]]]]]]];
    try discriminate.
  destruct (qft_bit_reversed_fourier x0 x1 x2 x3 x4 x5 x6 x7 0)
    as (y & Hy & _); [lia|].
  assert (Hrev : forall k, (k < 8)%nat ->
            cirq.amplitude y k
            = fourier 8 [x0; x1; x2; x3; x4; x5; x6; x7] (reverse_bits k)).
  { intros k Hk.
    destruct (qft_bit_reversed_fourier x0 x1 x2 x3 x4 x5 x6 x7 k Hk)
      as (y' & Hy' & Hamp).
    assert (y' = y) by congruence. subst y'. exact Hamp. }
  exists y. split; [exact Hy|]. split; [exact Hrev|].
  intros k Hk.
  destruct k as [|[|[|[|[|[|[|[|k]]]]]]]]; try lia.
  - exact (Hrev 0%nat ltac:(lia)).
  - exact (Hrev 4%nat ltac:(lia)).
  - exact (Hrev 2%nat ltac:(lia)).
  - exact (Hrev 6%nat ltac:(lia)).
  - exact (Hrev 1%nat ltac:(lia)).
  - exact (Hrev 5%nat ltac:(lia)).
  - exact (Hrev 3%nat ltac:(lia)).
  - exact (Hrev 7%nat ltac:(lia)).
Qed.

Lemma qft_is_fourier_with_reversed_bits_witness :
  exists y : cirq.state,
    qft_output basis_1 = Some y /\
    (forall k, (k < 8)%nat ->
               cirq.amplitude y k = fourier 8 basis_1 (reverse_bits k)) /\
    (forall k, (k < 8)%nat ->
               cirq.amplitude y (reverse_bits k) = fourier 8 basis_1 k).
Proof.
  apply (qft_is_fourier_with_reversed_bits basis_1). reflexivity.
Defined.

End QftCircuitFacts.

(** ** The notebook on probabilistic graphical models *)

Module PgmFacts.

(* No notice for the hypotheses that [set_solver] clears. *)
#[local] Set Warnings "-clear-no-such-hyp".

Import Pgm.

Local Open Scope R_scope.

(** *** Loops *)

Lemma mapM_Ok {A B : Type} (f : A -> result B) (g : A -> B) (l : list A) :
  Forall (fun x => f x = Ok (g x)) l -> mapM f l = Ok (g <$> l).
Proof.
  induction 1 as [|x l Hx _ IH]; [reflexivity|].
  cbn. rewrite Hx. cbn. rewrite IH. reflexivity.
Qed.

Lemma mapM_Raise {A B : Type} (f : A -> result B) (x : A) (l : list A)
    (e : exn) :
  f x = Raise e -> mapM f (x :: l) = Raise e.
Proof. intros H. cbn. rewrite H. reflexivity. Qed.

(** A property that every iteration keeps is kept by the loop. *)
Lemma for_each_invariant {S A : Type} (P : S -> Prop)
    (body : S -> A -> result S) (l : list A) (s s' : S) :
  (forall s x s', x ∈ l -> P s -> body s x = Ok s' -> P s') ->
  P s -> for_each body s l = Ok s' -> P s'.
Proof.
  revert s. induction l as [|x l IH]; intros s Hbody Hs Hrun; simpl in Hrun.
  - injection Hrun as <-. exact Hs.
  - destruct (body s x) as [s1|e] eqn:E; [|discriminate].
    apply (IH s1); [|eapply Hbody; [left|exact Hs|exact E] |exact Hrun].
    intros s2 y s3 Hy. apply Hbody. right. exact Hy.
Qed.

(** *** The annealing schedule *)

Lemma schedule_entry (n i : nat) :
  (2 <= n)%nat ->
  float_div (1.0 * INR i) (INR n - 1) = Ok (1.0 * INR i / (INR n - 1)).
Proof.
  intros Hn. unfold float_div.
  destruct (Req_dec_T (INR n - 1) 0) as [H|_]; [|reflexivity].
  exfalso. apply le_INR in Hn. simpl in Hn. lra.
Qed.

(** X13: With at least two sweeps the schedule is the list of the
    [1 - i/(num_sweeps - 1)]: it starts at 1, ends at 0 and decreases
    strictly in between, so the inverse temperature falls during the
    run. *)
Theorem schedule_decreases_from_one_to_zero (n : nat) :
  (2 <= n)%nat ->
  exists βs : list R,
    schedule n = Ok βs /\
    length βs = n /\
    (forall i, (i < n)%nat -> βs !! i = Some (1 - INR i / (INR n - 1))) /\
    βs !! 0%nat = Some 1 /\
    βs !! (n - 1)%nat = Some 0 /\
    (forall i j x y, (i < j)%nat -> βs !! i = Some x -> βs !! j = Some y ->
                     y < x).
Proof.
  intros Hn.
  assert (Hpos : 0 < INR n - 1).
  { apply le_INR in Hn. simpl in Hn. lra. }
  set (entry := fun i : nat => 1.0 - 1.0 * INR i / (INR n - 1)).
  assert (Hentry : forall i, entry i = 1 - INR i / (INR n - 1)).
  { intros i. unfold entry. replace 1.0 with 1 by lra. field. lra. }
  assert (Hlookup : forall i, (i < n)%nat ->
            (entry <$> seq 0 n) !! i = Some (1 - INR i / (INR n - 1))).
  { intros i Hi. rewrite list_lookup_fmap, lookup_seq_lt by exact Hi.
    simpl. rewrite Hentry. reflexivity. }
  exists (entry <$> seq 0 n). split; [|split; [|split; [|split; [|split]]]].
  - unfold schedule. apply (mapM_Ok _ entry).
    apply Forall_forall. intros i _. rewrite schedule_entry by exact Hn.
    reflexivity.
  - rewrite length_fmap. apply length_seq.
  - exact Hlookup.
  - rewrite Hlookup by lia. simpl INR. unfold Rdiv. rewrite Rmult_0_l.
    f_equal. ring.
  - rewrite Hlookup by lia. rewrite minus_INR by lia. simpl INR.
    replace ((INR n - 1) / (INR n - 1)) with 1 by (field; lra).
    f_equal. ring.
  - intros i j x y Hij Hi Hj.
    assert (Hj' : (j < n)%nat).
    { apply lookup_lt_Some in Hj. rewrite length_fmap, length_seq in Hj.
      exact Hj. }
    rewrite Hlookup in Hi, Hj by lia.
    injection Hi as <-. injection Hj as <-.
    apply lt_INR in Hij.
    assert (INR i / (INR n - 1) < INR j / (INR n - 1)); [|lra].
    apply Rmult_lt_compat_r; [apply Rinv_0_lt_compat; exact Hpos|exact Hij].
Qed.

Lemma schedule_decreases_from_one_to_zero_witness :
  exists βs : list R,
    schedule 3 = Ok βs /\
    length βs = 3%nat /\
    (forall i, (i < 3)%nat -> βs !! i = Some (1 - INR i / (INR 3 - 1))) /\
    βs !! 0%nat = Some 1 /\
    βs !! (3 - 1)%nat = Some 0 /\
    (forall i j x y, (i < j)%nat -> βs !! i = Some x -> βs !! j = Some y ->
                     y < x).
Proof. apply (schedule_decreases_from_one_to_zero 3). lia. Defined.

(** X14: A single sweep divides by zero; no sweep gives the empty schedule. *)
Theorem schedule_edge_cases :
  schedule 1 = Raise ZeroDivisionError /\ schedule 0 = Ok [].
Proof.
  split; [|reflexivity].
  unfold schedule. simpl seq. apply mapM_Raise.
  unfold float_div. simpl INR.
  destruct (Req_dec_T (1 - 1) 0) as [_|H]; [reflexivity|].
  exfalso. apply H. ring.
Qed.

(** *** The degeneracy dictionary *)

Lemma lookup_set_energy (g : energy_dict) (E E' : R) (n : Z) :
  lookup_energy (set_energy g E n) E'
  = if Req_dec_T E E' then Some n else lookup_energy g E'.
Proof.
  induction g as [|[E0 n0] g IH]; simpl.
  - destruct (Req_dec_T E E'); reflexivity.
  - destruct (Req_dec_T E0 E) as [->|Hne]; simpl.
    + destruct (Req_dec_T E E'); reflexivity.
    + rewrite IH. destruct (Req_dec_T E0 E') as [->|Hne'];
        destruct (Req_dec_T E E'); try reflexivity. congruence.
Qed.

Lemma keys_set_energy (g : energy_dict) (E : R) (n : Z) :
  (set_energy g E n).*1
  = match lookup_energy g E with
    | Some _ => g.*1
    | None => g.*1 ++ [E]
    end.
Proof.
  induction g as [|[E0 n0] g IH]; [reflexivity|].
  cbn [set_energy lookup_energy].
  destruct (Req_dec_T E0 E) as [->|Hne]; [reflexivity|].
  rewrite !fmap_cons, IH. destruct (lookup_energy g E); reflexivity.
Qed.

Lemma lookup_energy_None (g : energy_dict) (E : R) :
  lookup_energy g E = None <-> E ∉ g.*1.
Proof.
  induction g as [|[E0 n0] g IH]; simpl.
  - split; [intros _; apply not_elem_of_nil|reflexivity].
  - rewrite not_elem_of_cons.
    destruct (Req_dec_T E0 E) as [->|Hne]; split.
    + discriminate.
    + intros [H _]. contradiction.
    + intros H. split; [congruence|apply IH, H].
    + intros [_ H]. apply IH, H.
Qed.

Lemma lookup_energy_Some (g : energy_dict) (E : R) (n : Z) :
  lookup_energy g E = Some n -> E ∈ g.*1.
Proof.
  induction g as [|[E0 n0] g IH]; simpl; [discriminate|].
  destruct (Req_dec_T E0 E) as [->|Hne]; intros H.
  - left.
  - right. apply IH, H.
Qed.

Lemma degeneracy_loop (energies seen : list R) (g : energy_dict) :
  counted g seen ->
  exists g',
    for_each
      (fun g E =>
         match lookup_energy g E with
         | Some _ => n ← get_energy g E; Ok (set_energy g E (n + 1)%Z)
         | None => Ok (set_energy g E 1%Z)
         end) g energies = Ok g' /\
    counted g' (seen ++ energies).
Proof.
  revert seen g. induction energies as [|E energies IH]; intros seen g Hg.
  - exists g. rewrite app_nil_r. split; [reflexivity|exact Hg].
  - simpl for_each.
    replace (seen ++ E :: energies) with ((seen ++ [E]) ++ energies)
      by (rewrite <- app_assoc; reflexivity).
    assert (Hocc : forall E',
              occurrences (seen ++ [E]) E'
              = (occurrences seen E' + if Req_dec_T E E' then 1 else 0)%Z).
    { intros E'. unfold occurrences. rewrite count_occ_app. simpl.
      destruct (Req_dec_T E E'); lia. }
    assert (Hnonneg : forall E', (0 <= occurrences seen E')%Z)
      by (intros; unfold occurrences; lia).
    destruct Hg as [Hnodup Hlookup].
    destruct (lookup_energy g E) as [n|] eqn:Hn.
    + unfold get_energy. rewrite Hn. cbn.
      apply IH. split.
      * rewrite keys_set_energy, Hn. exact Hnodup.
      * intros E'. rewrite lookup_set_energy, Hocc.
        pose proof (Hnonneg E') as H0. pose proof (Hlookup E) as HE.
        rewrite Hn in HE.
        destruct (Req_dec_T E E') as [<-|Hne].
        -- destruct (decide (occurrences seen E = 0%Z)); [discriminate|].
           injection HE as ->.
           destruct (decide _) as [H|_]; [lia|reflexivity].
        -- rewrite Hlookup. rewrite Z.add_0_r. reflexivity.
    + apply IH. split.
      * rewrite keys_set_energy, Hn. apply NoDup_app. repeat split.
        -- exact Hnodup.
        -- intros x Hx Hx'. apply list_elem_of_singleton in Hx'. subst x.
           apply lookup_energy_None in Hn. contradiction.
        -- apply NoDup_singleton.
      * intros E'. rewrite lookup_set_energy, Hocc.
        pose proof (Hnonneg E') as H0. pose proof (Hlookup E) as HE.
        rewrite Hn in HE.
        destruct (Req_dec_T E E') as [<-|Hne].
        -- destruct (decide (occurrences seen E = 0%Z)) as [->|];
             [|discriminate].
           destruct (decide _) as [H|_]; [lia|reflexivity].
        -- rewrite Hlookup. rewrite Z.add_0_r. reflexivity.
Qed.

(** X15: The loop never raises, and the dictionary it builds has each energy of
    the sample once as a key, with the number of solutions of that energy
    as its value. *)
Theorem degeneracy_counts (energies : list R) :
  exists g : energy_dict,
    degeneracy energies = Ok g /\
    NoDup g.*1 /\
    (forall E, E ∈ g.*1 <-> E ∈ energies) /\
    (forall E, E ∈ energies ->
               get_energy g E
               = Ok (Z.of_nat (count_occ Req_dec_T energies E))) /\
    (forall E, E ∉ energies -> get_energy g E = Raise KeyError).
Proof.
  destruct (degeneracy_loop energies [] []) as (g & Hrun & Hnodup & Hlookup).
  { split; [apply NoDup_nil_2|]. intros E. reflexivity. }
  simpl in Hnodup, Hlookup.
  assert (Hin : forall E, E ∈ energies <-> occurrences energies E <> 0%Z).
  { intros E. unfold occurrences. rewrite list_elem_of_In.
    rewrite (count_occ_In Req_dec_T). lia. }
  exists g. split; [exact Hrun|]. split; [exact Hnodup|]. repeat split.
  - intros HE. apply Hin. intros H0.
    apply (proj1 (lookup_energy_None g E)); [|exact HE].
    rewrite Hlookup. destruct (decide _); [reflexivity|contradiction].
  - intros HE. apply Hin in HE.
    apply (lookup_energy_Some g E (occurrences energies E)).
    rewrite Hlookup. destruct (decide _); [contradiction|reflexivity].
  - intros E HE. apply Hin in HE. unfold get_energy. rewrite Hlookup.
    destruct (decide _); [contradiction|reflexivity].
  - intros E HE. unfold get_energy. rewrite Hlookup.
    destruct (decide _) as [|Hn]; [reflexivity|].
    exfalso. apply HE, Hin, Hn.
Qed.

(** *** The probabilities of the energy levels *)

Lemma sum_div (l : list R) (Z : R) :
  foldr Rplus 0 ((fun w => w / Z) <$> l) = foldr Rplus 0 l / Z.
Proof.
  induction l as [|x l IH].
  - cbn. unfold Rdiv. ring.
  - rewrite fmap_cons. cbn [foldr]. rewrite IH. unfold Rdiv. ring.
Qed.

Lemma sum_nonneg (l : list R) :
  Forall (fun w => 0 < w) l -> 0 <= foldr Rplus 0 l.
Proof. induction 1; simpl; lra. Qed.

Lemma elem_le_sum (l : list R) (x : R) :
  Forall (fun w => 0 < w) l -> x ∈ l -> 0 < x <= foldr Rplus 0 l.
Proof.
  induction 1 as [|y l Hy Hl IH]; intros Hx.
  - apply elem_of_nil in Hx. contradiction.
  - pose proof (sum_nonneg l Hl). simpl.
    apply elem_of_cons in Hx as [->|Hx]; [lra|].
    specialize (IH Hx). lra.
Qed.

Lemma sum_le {A : Type} (f g : A -> R) (l : list A) :
  (forall x, x ∈ l -> f x <= g x) ->
  foldr Rplus 0 (f <$> l) <= foldr Rplus 0 (g <$> l).
Proof.
  induction l as [|x l IH]; intros Hfg; [cbn; lra|].
  rewrite !fmap_cons. cbn [foldr].
  pose proof (Hfg x ltac:(left)).
  assert (foldr Rplus 0 (f <$> l) <= foldr Rplus 0 (g <$> l)).
  { apply IH. intros y Hy. apply Hfg. right. exact Hy. }
  lra.
Qed.

Lemma sum_scale {A : Type} (c : R) (f : A -> R) (l : list A) :
  foldr Rplus 0 ((fun x => f x * c) <$> l) = foldr Rplus 0 (f <$> l) * c.
Proof.
  induction l as [|x l IH]; [cbn; ring|].
  rewrite !fmap_cons. cbn [foldr]. rewrite IH. ring.
Qed.

Lemma sum_plus {A : Type} (f g : A -> R) (l : list A) :
  foldr Rplus 0 ((fun x => f x + g x) <$> l)
  = foldr Rplus 0 (f <$> l) + foldr Rplus 0 (g <$> l).
Proof.
  induction l as [|x l IH]; [cbn; ring|].
  rewrite !fmap_cons. cbn [foldr]. rewrite IH. ring.
Qed.

(** A key that occurs once among distinct keys is counted once. *)
Lemma sum_indicator (keys : list R) (x : R) :
  NoDup keys ->
  (x ∉ keys ->
   foldr Rplus 0 ((fun E => if Req_dec_T x E then 1 else 0) <$> keys) = 0) /\
  (x ∈ keys ->
   foldr Rplus 0 ((fun E => if Req_dec_T x E then 1 else 0) <$> keys) = 1).
Proof.
  induction 1 as [|E keys HE Hnd [IH0 IH1]].
  - split; [reflexivity|]. intros Hx. apply elem_of_nil in Hx. contradiction.
  - rewrite fmap_cons. cbn [foldr].
    destruct (Req_dec_T x E) as [->|Hne].
    + split; [intros Hx; exfalso; apply Hx; left|].
      intros _. rewrite (IH0 HE). ring.
    + split; intros Hx.
      * rewrite IH0; [ring|]. intros Hin. apply Hx. right. exact Hin.
      * apply elem_of_cons in Hx as [->|Hx]; [contradiction|].
        rewrite (IH1 Hx). ring.
Qed.

(** The degeneracies of distinct keys that cover the sample add up to the
    size of the sample. *)
Lemma sum_occurrences (keys energies : list R) :
  NoDup keys -> (forall E, E ∈ energies -> E ∈ keys) ->
  foldr Rplus 0 ((fun E => IZR (occurrences energies E)) <$> keys)
  = INR (length energies).
Proof.
  intros Hnd. induction energies as [|x energies IH]; intros Hsub.
  - cbn [length INR]. clear Hnd Hsub.
    induction keys as [|E keys IHk]; [reflexivity|].
    rewrite fmap_cons. cbn [foldr]. rewrite IHk.
    unfold occurrences. cbn. ring.
  - rewrite (list_fmap_ext _
      (fun E => (if Req_dec_T x E then 1 else 0)
                + IZR (occurrences energies E)) keys).
    + rewrite sum_plus, IH.
      * rewrite (proj2 (sum_indicator keys x Hnd)) by (apply Hsub; left).
        cbn [length]. rewrite S_INR. ring.
      * intros E HE. apply Hsub. right. exact HE.
    + intros i E _. unfold occurrences. cbn [count_occ].
      destruct (Req_dec_T x E); [|ring].
      rewrite Nat2Z.inj_succ, succ_IZR. ring.
Qed.

Lemma exp_mono (x y : R) : x <= y -> exp x <= exp y.
Proof.
  intros [Hlt| ->]; [left; apply exp_increasing, Hlt|right; reflexivity].
Qed.

(** X16: For a sample that is not empty, with energies between -300 and
    300 (so that [exp(-E)], the sum [Z] and the quotients stay far inside the
    range of the doubles), the dictionary of degeneracies gives one
    probability per energy level; each is positive, at least
    [exp(-600) / n] for a sample of [n] solutions and at most 1, and they
    sum to 1. *)
Theorem probabilities_normalised (energies : list R) :
  energies <> [] ->
  Forall (fun E => -300 <= E <= 300) energies ->
  exists (g : energy_dict) (ps : list R),
    degeneracy energies = Ok g /\
    probabilities g = Ok ps /\
    length ps = length g /\
    Forall (fun p => 0 < p /\ exp (-600) / INR (length energies) <= p <= 1)
           ps /\
    foldr Rplus 0 ps = 1.
Proof.
  intros Hne Hbound.
  destruct (degeneracy_loop energies [] []) as (g & Hrun & Hnodup & Hlookup).
  { split; [apply NoDup_nil_2|]. intros E. reflexivity. }
  simpl in Hnodup, Hlookup.
  set (weight := fun E => IZR (occurrences energies E)
                          * exp (- E / temperature)).
  assert (Hkey : forall E, E ∈ g.*1 ->
            lookup_energy g E = Some (occurrences energies E)
            /\ (0 < occurrences energies E)%Z).
  { intros E HE. pose proof (Hlookup E) as H.
    destruct (decide (occurrences energies E = 0%Z)) as [H0|H0].
    - apply lookup_energy_None in H. contradiction.
    - split; [exact H|]. unfold occurrences in *. lia. }
  assert (Hin : forall E, E ∈ g.*1 -> E ∈ energies).
  { intros E HE. destruct (Hkey E HE) as [_ Hpos]. unfold occurrences in Hpos.
    apply list_elem_of_In, (count_occ_In Req_dec_T). lia. }
  assert (Hcover : forall E, E ∈ energies -> E ∈ g.*1).
  { intros E HE. pose proof (Hlookup E) as H.
    destruct (decide (occurrences energies E = 0%Z)) as [H0|H0].
    - exfalso. apply list_elem_of_In, (count_occ_In Req_dec_T) in HE.
      unfold occurrences in H0. lia.
    - apply lookup_energy_Some in H. exact H. }
  assert (Hweights :
    mapM (fun E => n ← get_energy g E; Ok (IZR n * exp (- E / temperature)))
         (g.*1) = Ok (weight <$> g.*1)).
  { apply mapM_Ok, Forall_forall. intros E HE.
    unfold get_energy. rewrite (proj1 (Hkey E HE)). reflexivity. }
  assert (Hrange : forall E, E ∈ g.*1 ->
            exp (-300) <= weight E <= IZR (occurrences energies E) * exp 300).
  { intros E HE. destruct (Hkey E HE) as [_ Hocc].
    rewrite Forall_forall in Hbound. specialize (Hbound E (Hin E HE)).
    assert (H1 : 1 <= IZR (occurrences energies E)) by (apply IZR_le; lia).
    assert (Hlo : exp (-300) <= exp (- E / temperature)).
    { apply exp_mono. unfold temperature. lra. }
    assert (Hhi : exp (- E / temperature) <= exp 300).
    { apply exp_mono. unfold temperature. lra. }
    pose proof (exp_pos (-300)). unfold weight. split; nra. }
  assert (Hpos : Forall (fun w => 0 < w) (weight <$> g.*1)).
  { apply Forall_fmap, Forall_forall. intros E HE. simpl.
    pose proof (exp_pos (-300)). pose proof (Hrange E HE). lra. }
  assert (Hkeys : g.*1 <> []).
  { destruct energies as [|E0 energies]; [contradiction|].
    intros Hnil. specialize (Hcover E0 ltac:(left)). rewrite Hnil in Hcover.
    apply elem_of_nil in Hcover. exact Hcover. }
  set (total := foldr Rplus 0 (weight <$> g.*1)).
  assert (Htotal : 0 < total).
  { destruct (g.*1) as [|E1 keys] eqn:Ek; [contradiction|].
    destruct (elem_le_sum _ (weight E1) Hpos) as [H0 H1]; [left|].
    unfold total. lra. }
  set (n := INR (length energies)).
  assert (Hn : 0 < n).
  { unfold n. destruct energies; [contradiction|]. apply lt_0_INR. cbn. lia. }
  assert (Htop : total <= n * exp 300).
  { unfold total, n.
    rewrite <- (sum_occurrences (g.*1) energies Hnodup Hcover), <- sum_scale.
    apply sum_le. intros E HE. apply (Hrange E HE). }
  exists g, ((fun w => w / total) <$> (weight <$> g.*1)).
  split; [exact Hrun|]. split; [|split; [|split]].
  - unfold probabilities. rewrite Hweights. reflexivity.
  - rewrite !length_fmap. reflexivity.
  - apply Forall_fmap, Forall_forall. intros w Hw. simpl.
    destruct (elem_le_sum _ w Hpos Hw) as [Hw0 Hw1]. fold total in Hw1.
    apply list_elem_of_fmap in Hw as (E & -> & HE).
    pose proof (Hrange E HE) as [Hlo _].
    split; [apply Rdiv_lt_0_compat; assumption|]. split.
    + pose proof (exp_pos 300) as He.
      replace (exp (-600)) with (exp (-300) / exp 300).
      * apply (Rmult_le_reg_r total); [exact Htotal|].
        unfold Rdiv at 3. rewrite Rmult_assoc, Rinv_l, Rmult_1_r by lra.
        apply (Rmult_le_reg_r (n * exp 300)); [nra|].
        replace (exp (-300) / exp 300 / n * total * (n * exp 300))
          with (exp (-300) * total) by (field; lra).
        pose proof (exp_pos (-300)). nra.
      * replace (-600) with (-300 + Ropp 300) by lra.
        rewrite exp_plus, exp_Ropp. reflexivity.
    + apply (Rmult_le_reg_r total); [exact Htotal|].
      unfold Rdiv. rewrite Rmult_assoc, Rinv_l by lra. lra.
  - rewrite sum_div. fold total. field. lra.
Qed.

Lemma probabilities_normalised_witness :
  exists (g : energy_dict) (ps : list R),
    degeneracy [-4; -2; -4; 0] = Ok g /\
    probabilities g = Ok ps /\
    length ps = length g /\
    Forall (fun p => 0 < p /\
                     exp (-600) / INR (length [-4; -2; -4; 0]) <= p <= 1)
           ps /\
    foldr Rplus 0 ps = 1.
Proof.
  apply (probabilities_normalised [-4; -2; -4; 0]).
  - discriminate.
  - repeat constructor; lra.
Defined.

(** *** The adjacency sets *)

Lemma add_edge_Ok (adj : gmap nat (gset nat)) (n0 n1 : nat) :
  n0 ∈ dom adj -> n1 ∈ dom adj ->
  exists adj',
    add_edge adj (n0, n1) = Ok adj' /\
    dom adj' = dom adj /\
    forall u v, v ∈ neighbours adj' u
                <-> v ∈ neighbours adj u
                    \/ (u = n0 /\ v = n1) \/ (u = n1 /\ v = n0).
Proof.
  intros H0 H1. unfold add_edge, getitem.
  apply elem_of_dom in H0 as [s0 Hs0]. rewrite Hs0. cbn.
  assert (Hs1 : is_Some (<[n0 := s0 ∪ {[n1]}]> adj !! n1)).
  { apply elem_of_dom. rewrite dom_insert_L. set_solver. }
  destruct Hs1 as [s1 Hs1]. rewrite Hs1. cbn.
  eexists. split; [reflexivity|]. split.
  - rewrite !dom_insert_L.
    assert (n0 ∈ dom adj) by (apply elem_of_dom; eauto). set_solver.
  - intros u v. unfold neighbours.
    destruct (decide (u = n1)) as [->|Hu1].
    + rewrite lookup_insert_eq. simpl.
      destruct (decide (n1 = n0)) as [->|Hne].
      * rewrite lookup_insert_eq in Hs1. injection Hs1 as <-.
        rewrite Hs0. simpl. set_solver.
      * rewrite lookup_insert_ne in Hs1 by congruence. rewrite Hs1. simpl.
        set_solver.
    + rewrite lookup_insert_ne by congruence.
      destruct (decide (u = n0)) as [->|Hu0].
      * rewrite lookup_insert_eq, Hs0. simpl. set_solver.
      * rewrite lookup_insert_ne by congruence. set_solver.
Qed.

Lemma add_edge_KeyError (adj : gmap nat (gset nat)) (n0 n1 : nat) :
  n0 ∉ dom adj \/ n1 ∉ dom adj ->
  add_edge adj (n0, n1) = Raise KeyError.
Proof.
  intros Hbad. unfold add_edge, getitem.
  destruct (adj !! n0) as [s0|] eqn:Hs0; [|reflexivity]. cbn.
  destruct (<[n0 := s0 ∪ {[n1]}]> adj !! n1) as [s1|] eqn:Hs1;
    [|reflexivity].
  exfalso. destruct Hbad as [H|H]; apply H, elem_of_dom.
  - eauto.
  - destruct (decide (n1 = n0)) as [->|Hne]; [eauto|].
    rewrite lookup_insert_ne in Hs1 by congruence. eauto.
Qed.

Lemma add_edges_Ok (edges : list (nat * nat)) (adj : gmap nat (gset nat)) :
  (forall n0 n1, (n0, n1) ∈ edges -> n0 ∈ dom adj /\ n1 ∈ dom adj) ->
  exists adj',
    for_each add_edge adj edges = Ok adj' /\
    dom adj' = dom adj /\
    forall u v, v ∈ neighbours adj' u
                <-> v ∈ neighbours adj u
                    \/ (u, v) ∈ edges \/ (v, u) ∈ edges.
Proof.
  revert adj. induction edges as [|[n0 n1] edges IH]; intros adj Hdom.
  - exists adj. split; [reflexivity|]. split; [reflexivity|].
    intros u v. set_solver.
  - destruct (Hdom n0 n1) as [H0 H1]; [left|].
    destruct (add_edge_Ok adj n0 n1 H0 H1) as (adj1 & Hadd & Hdom1 & Hmem1).
    destruct (IH adj1) as (adj' & Hrun & Hdom' & Hmem').
    { intros m0 m1 Hm. rewrite Hdom1. apply Hdom. right. exact Hm. }
    exists adj'. cbn [for_each]. rewrite Hadd. cbn.
    split; [exact Hrun|]. split; [congruence|].
    intros u v. rewrite Hmem', Hmem1, !elem_of_cons.
    naive_solver.
Qed.

Lemma add_edges_KeyError (edges : list (nat * nat))
    (adj : gmap nat (gset nat)) (n0 n1 : nat) :
  (n0, n1) ∈ edges -> n0 ∉ dom adj \/ n1 ∉ dom adj ->
  for_each add_edge adj edges = Raise KeyError.
Proof.
  revert adj. induction edges as [|[m0 m1] edges IH]; intros adj Hin Hbad.
  - apply elem_of_nil in Hin. contradiction.
  - cbn [for_each].
    destruct (decide (m0 ∈ dom adj /\ m1 ∈ dom adj)) as [[H0 H1]|Hno].
    + destruct (add_edge_Ok adj m0 m1 H0 H1) as (adj1 & -> & Hdom1 & _).
      cbn. apply elem_of_cons in Hin as [Heq|Hin].
      * injection Heq as -> ->. tauto.
      * apply IH; [exact Hin|]. rewrite Hdom1. exact Hbad.
    + rewrite add_edge_KeyError; [reflexivity|].
      destruct (decide (m0 ∈ dom adj)); [right|left]; tauto.
Qed.

Lemma elem_of_keys (J : gmap (nat * nat) Z) (e : nat * nat) :
  e ∈ (map_to_list J).*1 <-> e ∈ dom J.
Proof.
  rewrite elem_of_dom, list_elem_of_fmap. split.
  - intros ([e' w] & -> & H). apply elem_of_map_to_list in H. eauto.
  - intros [w H]. exists (e, w). split; [reflexivity|].
    apply elem_of_map_to_list, H.
Qed.

(** The loop over the keys of [J], when they join nodes of [h]. *)
Lemma adjacency_Ok (h : gmap nat Z) (J : gmap (nat * nat) Z) :
  (forall n0 n1, (n0, n1) ∈ dom J -> n0 ∈ dom h /\ n1 ∈ dom h) ->
  exists adj : gmap nat (gset nat),
    adjacency h J = Ok adj /\
    dom adj = dom h /\
    (forall u v, v ∈ neighbours adj u
                 <-> (u, v) ∈ dom J \/ (v, u) ∈ dom J).
Proof.
  intros Hdom. unfold adjacency.
  destruct (add_edges_Ok (map_to_list J).*1 ((fun _ => ∅) <$> h))
    as (adj & Hrun & Hd & Hmem).
  { intros n0 n1 Hin. rewrite dom_fmap_L. apply Hdom, elem_of_keys, Hin. }
  exists adj. split; [exact Hrun|]. split; [rewrite Hd; apply dom_fmap_L|].
  intros u v. rewrite Hmem, !elem_of_keys.
  unfold neighbours. rewrite lookup_fmap.
  destruct (h !! u); simpl; set_solver.
Qed.

(** X17: When every coupling of [J] joins two nodes of [h], the loop gives each
    node of [h] the set of the nodes it is coupled with, in either
    direction; so the sets are symmetric. *)
Theorem adjacency_symmetric (h : gmap nat Z) (J : gmap (nat * nat) Z) :
  (forall n0 n1, (n0, n1) ∈ dom J -> n0 ∈ dom h /\ n1 ∈ dom h) ->
  exists adj : gmap nat (gset nat),
    adjacency h J = Ok adj /\
    dom adj = dom h /\
    (forall u v, v ∈ default ∅ (adj !! u)
                 <-> (u, v) ∈ dom J \/ (v, u) ∈ dom J) /\
    (forall u v, v ∈ default ∅ (adj !! u) <-> u ∈ default ∅ (adj !! v)).
Proof.
  intros Hdom.
  destruct (adjacency_Ok h J Hdom) as (adj & Hrun & Hd & Hspec).
  unfold neighbours in Hspec.
  exists adj. split; [exact Hrun|]. split; [exact Hd|].
  split; [exact Hspec|].
  intros u v. rewrite !Hspec. tauto.
Qed.

Lemma adjacency_symmetric_witness :
  exists adj : gmap nat (gset nat),
    adjacency (<[0%nat := 1%Z]> (<[1%nat := 1%Z]> (<[2%nat := 1%Z]> ∅)))
              (<[(0, 1)%nat := 2%Z]> (<[(1, 2)%nat := (-1)%Z]> ∅)) = Ok adj /\
    dom adj
    = dom (<[0%nat := 1%Z]> (<[1%nat := 1%Z]> (<[2%nat := 1%Z]> (∅ : gmap nat Z)))) /\
    (forall u v,
        v ∈ default ∅ (adj !! u)
        <-> (u, v) ∈ dom (<[(0, 1)%nat := 2%Z]>
                            (<[(1, 2)%nat := (-1)%Z]> (∅ : gmap (nat * nat) Z)))
            \/ (v, u) ∈ dom (<[(0, 1)%nat := 2%Z]>
                               (<[(1, 2)%nat := (-1)%Z]> (∅ : gmap (nat * nat) Z)))) /\
    (forall u v, v ∈ default ∅ (adj !! u) <-> u ∈ default ∅ (adj !! v)).
Proof.
  apply (adjacency_symmetric
           (<[0%nat := 1%Z]> (<[1%nat := 1%Z]> (<[2%nat := 1%Z]> ∅)))
           (<[(0, 1)%nat := 2%Z]> (<[(1, 2)%nat := (-1)%Z]> ∅))).
  intros n0 n1 Hin. rewrite !dom_insert_L, dom_empty_L in *.
  set_solver.
Defined.

(** X18: A coupling with a node that [h] does not have ends the loop with a
    [KeyError]. *)
Theorem adjacency_unknown_node (h : gmap nat Z) (J : gmap (nat * nat) Z)
    (n0 n1 : nat) :
  (n0, n1) ∈ dom J -> n0 ∉ dom h \/ n1 ∉ dom h ->
  adjacency h J = Raise KeyError.
Proof.
  intros Hin Hbad. unfold adjacency.
  apply (add_edges_KeyError _ _ n0 n1).
  - apply elem_of_keys, Hin.
  - rewrite dom_fmap_L. exact Hbad.
Qed.

Lemma adjacency_unknown_node_witness :
  adjacency (<[0%nat := 1%Z]> ∅) (<[(0, 1)%nat := 2%Z]> ∅) = Raise KeyError.
Proof.
  apply (adjacency_unknown_node _ _ 0%nat 1%nat).
  - rewrite dom_insert_L. set_solver.
  - right. rewrite dom_insert_L, dom_empty_L. set_solver.
Defined.

End PgmFacts.

(** ** Simulated annealing with clamped spins *)

Module AnnealFacts.

(* No notice for the hypotheses that [set_solver] clears. *)
#[local] Set Warnings "-clear-no-such-hyp".

Import Pgm PgmFacts.

Local Open Scope R_scope.

(** A loop whose every iteration succeeds and keeps [P] succeeds and keeps
    [P]. *)
Lemma for_each_total {S A : Type} (P : S -> Prop)
    (body : S -> A -> result S) (l : list A) (s : S) :
  (forall s x, x ∈ l -> P s -> exists s', body s x = Ok s' /\ P s') ->
  P s -> exists s', for_each body s l = Ok s' /\ P s'.
Proof.
  revert s. induction l as [|x l IH]; intros s Hbody Hs.
  - exists s. split; [reflexivity|exact Hs].
  - destruct (Hbody s x) as (s1 & Hx & Hs1); [left|exact Hs|].
    destruct (IH s1) as (s' & Hrun & Hs'); [|exact Hs1|].
    { intros s2 y Hy. apply Hbody. right. exact Hy. }
    exists s'. cbn [for_each]. rewrite Hx. split; [exact Hrun|exact Hs'].
Qed.

Lemma getitem_Ok `{Countable K} {V : Type} (d : gmap K V) (k : K) (v : V) :
  d !! k = Some v -> getitem d k = Ok v.
Proof. intros Hk. unfold getitem. rewrite Hk. reflexivity. Qed.

Lemma getitem_inv `{Countable K} {V : Type} (d : gmap K V) (k : K) (v : V) :
  getitem d k = Ok v -> d !! k = Some v.
Proof. unfold getitem. destruct (d !! k); congruence. Qed.

(** A dictionary comprehension whose values all evaluate has its keys as
    domain. *)
Lemma dict_comprehension_Ok `{Countable K} {V : Type} (keys : list K)
    (f : K -> result V) :
  (forall k, k ∈ keys -> exists v, f k = Ok v) ->
  exists d : gmap K V,
    dict_comprehension keys f = Ok d /\
    forall k, k ∈ keys -> is_Some (d !! k).
Proof.
  intros Hf. unfold dict_comprehension.
  assert (Hgen : forall d0 : gmap K V,
    exists d, for_each (fun d k => v ← f k; Ok (<[k := v]> d)) d0 keys = Ok d
              /\ forall k, k ∈ keys \/ is_Some (d0 !! k) -> is_Some (d !! k)).
  { induction keys as [|k keys IH]; intros d0.
    - exists d0. split; [reflexivity|]. intros k [Hk|Hk]; [|exact Hk].
      apply elem_of_nil in Hk. contradiction.
    - destruct (Hf k) as [v Hv]; [left|].
      destruct (IH (fun k' Hk' => Hf k' (list_elem_of_further _ _ _ Hk'))
                   (<[k := v]> d0)) as (d & Hrun & Hd).
      exists d. cbn [for_each]. rewrite Hv. cbn. split; [exact Hrun|].
      intros k' [Hk'|Hk'].
      + apply elem_of_cons in Hk' as [->|Hk'].
        * apply Hd. right. rewrite lookup_insert_eq. eauto.
        * apply Hd. left. exact Hk'.
      + apply Hd. right. destruct (decide (k = k')) as [->|Hne].
        * rewrite lookup_insert_eq. eauto.
        * rewrite lookup_insert_ne by exact Hne. exact Hk'. }
  destruct (Hgen ∅) as (d & Hrun & Hd).
  exists d. split; [exact Hrun|]. intros k Hk. apply Hd. left. exact Hk.
Qed.

Section Annealing.

Variable h : gmap nat Z.
Variable J : gmap (nat * nat) Z.
Variable adj : gmap nat (gset nat).
Variable clamped_spins : gmap nat Z.
Variable colors : list (list nat).
Variable log_uniform : nat -> R.

Abbreviation well_formed := (well_formed h adj colors).
Abbreviation kept := (kept h clamped_spins).

Lemma well_formed_colors (nodes : list nat) (v : nat) :
  well_formed -> nodes ∈ colors -> v ∈ nodes -> v ∈ dom h /\ v ∈ dom adj.
Proof.
  intros [Hc _] Hnodes Hv.
  rewrite Forall_forall in Hc. specialize (Hc nodes Hnodes).
  rewrite Forall_forall in Hc. exact (Hc v Hv).
Qed.

Lemma well_formed_adj (v0 v1 : nat) (s : gset nat) :
  well_formed -> adj !! v0 = Some s -> v1 ∈ s -> v1 ∈ dom h.
Proof. intros [_ Ha] Hs Hv1. exact (Ha v0 s Hs v1 Hv1). Qed.

Lemma energy_diff_h_Ok (spins : gmap nat Z) :
  dom spins = dom h ->
  exists edh, energy_diff_h h spins = Ok edh /\
              forall v, v ∈ dom h -> is_Some (edh !! v).
Proof.
  intros Hdom. unfold energy_diff_h.
  destruct (dict_comprehension_Ok (map_to_list h).*1
              (fun v => s ← getitem spins v; hv ← getitem h v;
                        Ok (-2 * s * hv)%Z)) as (edh & Hrun & Hd).
  - intros v Hv. apply list_elem_of_fmap in Hv as ([v' hv] & -> & Hv).
    apply elem_of_map_to_list in Hv. simpl.
    assert (Hs : is_Some (spins !! v')).
    { apply elem_of_dom. rewrite Hdom. apply elem_of_dom. eauto. }
    destruct Hs as [s Hs].
    rewrite (getitem_Ok _ _ _ Hs), (getitem_Ok _ _ _ Hv). cbn. eauto.
  - exists edh. split; [exact Hrun|]. intros v Hv. apply Hd.
    apply elem_of_dom in Hv as [hv Hv].
    apply list_elem_of_fmap. exists (v, hv). split; [reflexivity|].
    apply elem_of_map_to_list, Hv.
Qed.

Lemma coupling_Ok (spins : gmap nat Z) (v0 v1 : nat) (key : nat * nat)
    (ediff : Z) :
  v0 ∈ dom spins -> v1 ∈ dom spins ->
  exists e, coupling J spins v0 v1 key ediff = Ok e.
Proof.
  intros H0 H1. unfold coupling.
  destruct (J !! key) as [w|] eqn:Hw; [|eauto].
  apply elem_of_dom in H0 as [s0 Hs0]. apply elem_of_dom in H1 as [s1 Hs1].
  rewrite (getitem_Ok _ _ _ Hs0), (getitem_Ok _ _ _ Hs1),
    (getitem_Ok _ _ _ Hw).
  cbn. eauto.
Qed.

Lemma ediff_of_Ok (spins : gmap nat Z) (v0 : nat) :
  well_formed -> dom spins = dom h -> v0 ∈ dom h -> v0 ∈ dom adj ->
  exists e, ediff_of J adj spins v0 = Ok e.
Proof.
  intros Hwf Hdom Hv0 Hv0adj. unfold ediff_of.
  apply elem_of_dom in Hv0adj as [s Hs].
  rewrite (getitem_Ok _ _ _ Hs). cbn.
  destruct (for_each_total (fun _ => True)
              (fun ediff v1 =>
                 ediff ← coupling J spins v0 v1 (v0, v1) ediff;
                 coupling J spins v0 v1 (v1, v0) ediff)
              (elements s) 0%Z) as (e & He & _); [|exact I|eauto].
  intros e v1 Hv1 _. apply elem_of_elements in Hv1.
  assert (H1 : v1 ∈ dom spins) by (rewrite Hdom; eapply well_formed_adj; eauto).
  assert (H0 : v0 ∈ dom spins) by (rewrite Hdom; exact Hv0).
  destruct (coupling_Ok spins v0 v1 (v0, v1) e H0 H1) as [e1 ->]. cbn.
  destruct (coupling_Ok spins v0 v1 (v1, v0) e1 H0 H1) as [e2 ->]. eauto.
Qed.

Lemma energy_diff_J_Ok (spins : gmap nat Z) (nodes : list nat) :
  well_formed -> dom spins = dom h -> nodes ∈ colors ->
  exists edJ, energy_diff_J J adj spins nodes = Ok edJ /\
              forall v, v ∈ nodes -> is_Some (edJ !! v).
Proof.
  intros Hwf Hdom Hnodes. unfold energy_diff_J.
  apply dict_comprehension_Ok. intros v Hv.
  destruct (well_formed_colors nodes v Hwf Hnodes Hv) as [Hvh Hva].
  destruct (ediff_of_Ok spins v Hwf Hdom Hvh Hva) as [e ->]. cbn. eauto.
Qed.

(** One update draws one number and either leaves the spins or negates the
    spin of [v], which is not clamped. *)
Lemma update_Ok (spins0 : gmap nat Z) (β : R) (edh edJ : gmap nat Z)
    (st : state) (v : nat) :
  is_Some (edh !! v) -> is_Some (edJ !! v) -> v ∈ dom h ->
  clamped_spins !! v = None ->
  kept spins0 st.1 ->
  exists st', update log_uniform β edh edJ st v = Ok st' /\
              kept spins0 st'.1 /\ st'.2 = S st.2.
Proof.
  intros [dh Hdh] [dJ HdJ] Hv Hfree (Hdom & Hclamped & Hpm).
  destruct st as [spins draws]. unfold update. simpl in *.
  rewrite (getitem_Ok _ _ _ Hdh), (getitem_Ok _ _ _ HdJ). cbn.
  destruct (Rlt_dec _ _) as [_|_].
  - assert (Hs : is_Some (spins !! v))
      by (apply elem_of_dom; rewrite Hdom; exact Hv).
    destruct Hs as [s Hs]. rewrite (getitem_Ok _ _ _ Hs). cbn.
    eexists. split; [reflexivity|]. simpl. split; [|reflexivity].
    split; [|split].
    + rewrite dom_insert_L, <- Hdom.
      assert (v ∈ dom spins) by (apply elem_of_dom; eauto). set_solver.
    + intros v' Hv'. rewrite lookup_insert_ne by congruence.
      apply Hclamped, Hv'.
    + intros v' s'. destruct (decide (v = v')) as [<-|Hne].
      * rewrite lookup_insert_eq. intros [= <-].
        destruct (Hpm v s Hs) as [->| ->]; [right|left]; reflexivity.
      * rewrite lookup_insert_ne by exact Hne. apply Hpm.
  - eexists. split; [reflexivity|]. simpl. repeat split; assumption.
Qed.

Lemma update_color_Ok (spins0 : gmap nat Z) (β : R) (edh : gmap nat Z)
    (st : state) (nodes : list nat) :
  well_formed -> (forall v, v ∈ dom h -> is_Some (edh !! v)) ->
  nodes ∈ colors -> kept spins0 st.1 ->
  exists st', update_color J adj clamped_spins log_uniform β edh st nodes
              = Ok st' /\ kept spins0 st'.1.
Proof.
  intros Hwf Hedh Hnodes Hkept. unfold update_color.
  destruct (energy_diff_J_Ok st.1 nodes Hwf (proj1 Hkept) Hnodes)
    as (edJ & -> & HedJ). cbn.
  apply (for_each_total (fun st => kept spins0 st.1)); [|exact Hkept].
  intros st1 v Hv Hst1. apply list_elem_of_filter in Hv as [Hfree Hv].
  destruct (well_formed_colors nodes v Hwf Hnodes Hv) as [Hvh _].
  destruct (update_Ok spins0 β edh edJ st1 v) as (st' & Hrun & Hk & _);
    eauto.
Qed.

Lemma sweep_Ok (spins0 : gmap nat Z) (st : state) (β : R) :
  well_formed -> kept spins0 st.1 ->
  exists st', sweep h J adj clamped_spins colors log_uniform st β = Ok st'
              /\ kept spins0 st'.1.
Proof.
  intros Hwf Hkept. unfold sweep.
  destruct (energy_diff_h_Ok st.1 (proj1 Hkept)) as (edh & -> & Hedh). cbn.
  apply (for_each_total (fun st => kept spins0 st.1)); [|exact Hkept].
  intros st1 nodes Hnodes Hst1.
  apply update_color_Ok; assumption.
Qed.

Lemma initial_spins_lookup (choice : nat -> Z) (v : nat) :
  initial_spins h clamped_spins choice !! v
  = match h !! v with
    | Some _ => Some (match clamped_spins !! v with
                      | Some s => s
                      | None => choice v
                      end)
    | None => None
    end.
Proof.
  unfold initial_spins. rewrite map_lookup_imap.
  destruct (h !! v); reflexivity.
Qed.

(** X20: Annealing with clamped spins.  On a well-formed model, whatever the
    schedule and the random draws, the run raises nothing; the spins it
    returns are those of the nodes of [h], each 1 or -1, and every clamped
    node of [h] still has its clamped value. *)
Theorem anneal_keeps_clamped_spins (choice : nat -> Z) (βs : list R) :
  well_formed ->
  (forall v, choice v = 1%Z \/ choice v = (-1)%Z) ->
  (forall v s, clamped_spins !! v = Some s -> s = 1%Z \/ s = (-1)%Z) ->
  exists (spins : gmap nat Z) (draws : nat),
    anneal h J adj clamped_spins colors log_uniform βs
           (initial_spins h clamped_spins choice, 0%nat)
    = Ok (spins, draws) /\
    dom spins = dom h /\
    (forall v s, spins !! v = Some s -> s = 1%Z \/ s = (-1)%Z) /\
    (forall v s, v ∈ dom h -> clamped_spins !! v = Some s ->
                 spins !! v = Some s).
Proof.
  intros Hwf Hchoice Hclamped.
  set (spins0 := initial_spins h clamped_spins choice).
  assert (H0 : kept spins0 spins0).
  { split; [|split].
    - apply set_eq. intros v. rewrite !elem_of_dom. unfold spins0.
      rewrite initial_spins_lookup. destruct (h !! v); split;
        intros [? ?]; eauto; discriminate.
    - reflexivity.
    - intros v s. unfold spins0. rewrite initial_spins_lookup.
      destruct (h !! v); [|discriminate]. intros [= <-].
      destruct (clamped_spins !! v) eqn:E; eauto. }
  destruct (for_each_total (fun st : state => kept spins0 st.1)
              (sweep h J adj clamped_spins colors log_uniform) βs
              (spins0, 0%nat)) as ([spins draws] & Hrun & Hd & Hc & Hpm).
  - intros st β _ Hst. apply sweep_Ok; assumption.
  - exact H0.
  - exists spins, draws. split; [exact Hrun|]. split; [exact Hd|].
    split; [exact Hpm|].
    intros v s Hv Hs. simpl in Hc. rewrite Hc by congruence.
    unfold spins0. rewrite initial_spins_lookup.
    apply elem_of_dom in Hv as [hv ->]. rewrite Hs. reflexivity.
Qed.

(** *** The sweep at β = 0 *)

Lemma negated_lookup (l : list nat) (spins : gmap nat Z) (v : nat) :
  negated l spins !! v
  = (fun s => if decide (v ∈ l) then (s * -1)%Z else s) <$> spins !! v.
Proof.
  unfold negated. rewrite map_lookup_imap.
  destruct (spins !! v); reflexivity.
Qed.

Lemma negated_dom (l : list nat) (spins : gmap nat Z) :
  dom (negated l spins) = dom spins.
Proof.
  apply set_eq. intros v. rewrite !elem_of_dom, negated_lookup.
  destruct (spins !! v); split; intros [? ?]; eauto; discriminate.
Qed.

Lemma negated_nil (spins : gmap nat Z) : negated [] spins = spins.
Proof.
  apply map_eq. intros v. rewrite negated_lookup.
  destruct (spins !! v); reflexivity.
Qed.

(** Negating the spin of [v], then those of [l], negates those of
    [v :: l] when [v] is not in [l]. *)
Lemma negated_cons (v : nat) (l : list nat) (spins : gmap nat Z) (s : Z) :
  v ∉ l -> spins !! v = Some s ->
  negated l (<[v := (s * -1)%Z]> spins) = negated (v :: l) spins.
Proof.
  intros Hv Hs. apply map_eq. intros v'. rewrite !negated_lookup.
  destruct (decide (v = v')) as [<-|Hne].
  - rewrite lookup_insert_eq, Hs. cbn.
    rewrite decide_False by exact Hv.
    rewrite decide_True by left. reflexivity.
  - rewrite lookup_insert_ne by exact Hne.
    destruct (spins !! v') as [s'|]; [|reflexivity]. cbn.
    destruct (decide (v' ∈ l)) as [Hin|Hin].
    + rewrite decide_True by (right; exact Hin). reflexivity.
    + rewrite decide_False; [reflexivity|].
      intros Hin'. apply elem_of_cons in Hin' as [->|Hin']; contradiction.
Qed.

Lemma negated_app (l1 l2 : list nat) (spins : gmap nat Z) :
  (forall v, v ∈ l1 -> v ∉ l2) ->
  negated l2 (negated l1 spins) = negated (l1 ++ l2) spins.
Proof.
  intros Hdisj. apply map_eq. intros v. rewrite !negated_lookup.
  destruct (spins !! v) as [s|]; [|reflexivity]. cbn. f_equal.
  destruct (decide (v ∈ l1)) as [H1|H1].
  - rewrite decide_False by (apply Hdisj, H1).
    rewrite decide_True by (apply elem_of_app; left; exact H1). reflexivity.
  - destruct (decide (v ∈ l2)) as [H2|H2].
    + rewrite decide_True by (apply elem_of_app; right; exact H2).
      reflexivity.
    + rewrite decide_False; [reflexivity|].
      intros Hin. apply elem_of_app in Hin as [?|?]; contradiction.
Qed.

(** At β = 0 the comparison is [logp < 0]: the update negates the spin. *)
Lemma update_zero (edh edJ : gmap nat Z) (spins : gmap nat Z) (draws : nat)
    (v : nat) (s : Z) :
  (forall k, log_uniform k < 0) ->
  is_Some (edh !! v) -> is_Some (edJ !! v) -> spins !! v = Some s ->
  update log_uniform 0 edh edJ (spins, draws) v
  = Ok (<[v := (s * -1)%Z]> spins, S draws).
Proof.
  intros Hlog [dh Hdh] [dJ HdJ] Hs. unfold update.
  rewrite (getitem_Ok _ _ _ Hdh), (getitem_Ok _ _ _ HdJ). cbn.
  destruct (Rlt_dec _ _) as [_|Hge].
  - rewrite (getitem_Ok _ _ _ Hs). reflexivity.
  - exfalso. apply Hge. specialize (Hlog draws). lra.
Qed.

Lemma updates_zero (edh edJ : gmap nat Z) (l : list nat) :
  (forall k, log_uniform k < 0) ->
  NoDup l ->
  (forall v, v ∈ l -> is_Some (edh !! v) /\ is_Some (edJ !! v)) ->
  forall (spins : gmap nat Z) (draws : nat),
    (forall v, v ∈ l -> v ∈ dom spins) ->
    for_each (update log_uniform 0 edh edJ) (spins, draws) l
    = Ok (negated l spins, (draws + length l)%nat).
Proof.
  intros Hlog Hnd. induction Hnd as [|v l Hv Hnd IH]; intros Hed spins draws Hin.
  - cbn. rewrite negated_nil, Nat.add_0_r. reflexivity.
  - destruct (Hed v) as [Hh HJ]; [left|].
    assert (Hs : is_Some (spins !! v)) by (apply elem_of_dom, Hin; left).
    destruct Hs as [s Hs].
    cbn [for_each]. rewrite (update_zero edh edJ spins draws v s Hlog Hh HJ Hs).
    cbn. rewrite IH.
    + rewrite (negated_cons v l spins s Hv Hs). cbn [length].
      do 2 f_equal. lia.
    + intros v' Hv'. apply Hed. right. exact Hv'.
    + intros v' Hv'. rewrite dom_insert_L. apply elem_of_union. right.
      apply Hin. right. exact Hv'.
Qed.

Lemma update_color_zero (edh : gmap nat Z) (spins : gmap nat Z)
    (draws : nat) (nodes : list nat) :
  well_formed -> (forall k, log_uniform k < 0) ->
  (forall v, v ∈ dom h -> is_Some (edh !! v)) ->
  nodes ∈ colors -> NoDup nodes -> dom spins = dom h ->
  let l := filter (fun x => clamped_spins !! x = None) nodes in
  update_color J adj clamped_spins log_uniform 0 edh (spins, draws) nodes
  = Ok (negated l spins, (draws + length l)%nat).
Proof.
  intros Hwf Hlog Hedh Hnodes Hnd Hdom l. unfold update_color.
  destruct (energy_diff_J_Ok spins nodes Hwf Hdom Hnodes)
    as (edJ & HedJ & HJ).
  cbn [fst]. rewrite HedJ. cbn. apply updates_zero.
  - exact Hlog.
  - apply NoDup_filter, Hnd.
  - intros v Hv. apply list_elem_of_filter in Hv as [_ Hv].
    split; [|apply HJ, Hv].
    apply Hedh. eapply well_formed_colors; eauto.
  - intros v Hv. apply list_elem_of_filter in Hv as [_ Hv].
    rewrite Hdom. eapply well_formed_colors; eauto.
Qed.

Lemma colors_zero (edh : gmap nat Z) (cs : list (list nat)) :
  well_formed -> (forall k, log_uniform k < 0) ->
  (forall v, v ∈ dom h -> is_Some (edh !! v)) ->
  (forall nodes, nodes ∈ cs -> nodes ∈ colors) ->
  NoDup (concat cs) ->
  forall (spins : gmap nat Z) (draws : nat),
    dom spins = dom h ->
    let l := filter (fun x => clamped_spins !! x = None) (concat cs) in
    for_each (update_color J adj clamped_spins log_uniform 0 edh)
             (spins, draws) cs
    = Ok (negated l spins, (draws + length l)%nat).
Proof.
  intros Hwf Hlog Hedh. induction cs as [|nodes cs IH];
    intros Hcs Hnd spins draws Hdom.
  - cbn. rewrite negated_nil, Nat.add_0_r. reflexivity.
  - cbn [concat] in Hnd. apply NoDup_app in Hnd as (Hnd1 & Hdisj & Hnd2).
    cbn [for_each concat].
    rewrite update_color_zero; try assumption; [|apply Hcs; left].
    cbn. rewrite IH.
    + rewrite filter_app, length_app, Nat.add_assoc.
      rewrite negated_app; [reflexivity|].
      intros v Hv1 Hv2. apply list_elem_of_filter in Hv1 as [_ Hv1].
      apply list_elem_of_filter in Hv2 as [_ Hv2].
      exact (Hdisj v Hv1 Hv2).
    + intros nodes' Hn. apply Hcs. right. exact Hn.
    + exact Hnd2.
    + rewrite negated_dom. exact Hdom.
Qed.

(** X21: The sweep at β = 0, the last value of the schedule.  On a well-formed
    model whose colour classes share no node, with every logarithm of a
    draw negative, the sweep raises nothing, draws one number for each
    unclamped node of the colour classes and negates the spin of each of
    them, whatever the energies; the other spins are left. *)
Theorem sweep_at_zero_negates_free_spins (spins : gmap nat Z)
    (draws : nat) :
  well_formed ->
  NoDup (concat colors) ->
  (forall k, log_uniform k < 0) ->
  dom spins = dom h ->
  sweep h J adj clamped_spins colors log_uniform (spins, draws) 0
  = Ok (negated (free_nodes clamped_spins colors) spins,
        (draws + length (free_nodes clamped_spins colors))%nat)
  /\ forall v,
       negated (free_nodes clamped_spins colors) spins !! v
       = if decide (v ∈ concat colors /\ clamped_spins !! v = None)
         then (fun s => (s * -1)%Z) <$> spins !! v
         else spins !! v.
Proof.
  intros Hwf Hnd Hlog Hdom. split.
  - unfold sweep. cbn [fst].
    destruct (energy_diff_h_Ok spins Hdom) as (edh & -> & Hedh). cbn.
    apply colors_zero; auto.
  - intros v. rewrite negated_lookup. unfold free_nodes.
    destruct (spins !! v) as [s|]; cbn.
    + destruct (decide (v ∈ concat colors /\ clamped_spins !! v = None))
        as [[Hin Hfree]|Hn].
      * rewrite decide_True; [reflexivity|].
        apply list_elem_of_filter. split; assumption.
      * rewrite decide_False; [reflexivity|].
        intros Hin. apply list_elem_of_filter in Hin as [Hfree Hin].
        apply Hn. split; assumption.
    + destruct (decide _); reflexivity.
Qed.

End Annealing.

(** X19: The adjacency sets that the notebook builds make a well-formed model,
    whatever colouring of nodes of [h] is used: annealing on them raises
    nothing. *)
Theorem adjacency_well_formed (h : gmap nat Z) (J : gmap (nat * nat) Z)
    (colors : list (list nat)) :
  (forall n0 n1, (n0, n1) ∈ dom J -> n0 ∈ dom h /\ n1 ∈ dom h) ->
  Forall (Forall (fun v => v ∈ dom h)) colors ->
  exists adj : gmap nat (gset nat),
    adjacency h J = Ok adj /\ well_formed h adj colors.
Proof.
  intros HJ Hcolors.
  destruct (adjacency_Ok h J HJ) as (adj & Hrun & Hdom & Hmem).
  unfold neighbours in Hmem.
  exists adj. split; [exact Hrun|]. split.
  - eapply Forall_impl; [exact Hcolors|]. intros nodes Hnodes.
    eapply Forall_impl; [exact Hnodes|]. intros v Hv. cbn.
    rewrite Hdom. split; exact Hv.
  - intros u s Hs v Hv.
    assert (Hin : v ∈ default ∅ (adj !! u)) by (rewrite Hs; exact Hv).
    apply Hmem in Hin as [Hin|Hin]; apply HJ in Hin; tauto.
Qed.

Lemma adjacency_well_formed_witness :
  exists adj : gmap nat (gset nat),
    adjacency model_h model_J = Ok adj /\
    well_formed model_h adj model_colors.
Proof.
  apply (adjacency_well_formed model_h model_J model_colors).
  - intros n0 n1 Hin. unfold model_J, model_h in *.
    rewrite !dom_insert_L, !dom_singleton_L in *. set_solver.
  - apply (bool_decide_unpack _). vm_compute. exact I.
Defined.

Lemma model_adjacency : adjacency model_h model_J = Ok model_adj.
Proof. vm_compute. reflexivity. Qed.

Lemma model_well_formed : well_formed model_h model_adj model_colors.
Proof.
  unfold well_formed. apply (bool_decide_unpack _). vm_compute. exact I.
Qed.

Lemma anneal_keeps_clamped_spins_witness :
  exists (spins : gmap nat Z) (draws : nat),
    anneal model_h model_J model_adj model_clamped_spins model_colors
           (fun _ => -1) [1; 0]
           (initial_spins model_h model_clamped_spins (fun _ => 1%Z), 0%nat)
    = Ok (spins, draws) /\
    dom spins = dom model_h /\
    (forall v s, spins !! v = Some s -> s = 1%Z \/ s = (-1)%Z) /\
    (forall v s, v ∈ dom model_h -> model_clamped_spins !! v = Some s ->
                 spins !! v = Some s).
Proof.
  apply (anneal_keeps_clamped_spins model_h model_J model_adj
           model_clamped_spins model_colors (fun _ => -1) (fun _ => 1%Z)
           [1; 0]).
  - exact model_well_formed.
  - intros v. left. reflexivity.
  - intros v s Hs. unfold model_clamped_spins in Hs.
    apply lookup_singleton_Some in Hs as [_ <-]. right. reflexivity.
Defined.

Lemma sweep_at_zero_negates_free_spins_witness :
  sweep model_h model_J model_adj model_clamped_spins model_colors
        (fun _ => -1)
        (initial_spins model_h model_clamped_spins (fun _ => 1%Z), 0%nat) 0
  = Ok (negated (free_nodes model_clamped_spins model_colors)
          (initial_spins model_h model_clamped_spins (fun _ => 1%Z)),
        (0 + length (free_nodes model_clamped_spins model_colors))%nat)
  /\ forall v,
       negated (free_nodes model_clamped_spins model_colors)
         (initial_spins model_h model_clamped_spins (fun _ => 1%Z)) !! v
       = if decide (v ∈ concat model_colors /\
                    model_clamped_spins !! v = None)
         then (fun s => (s * -1)%Z)
                <$> initial_spins model_h model_clamped_spins
                      (fun _ => 1%Z) !! v
         else initial_spins model_h model_clamped_spins (fun _ => 1%Z) !! v.
Proof.
  apply (sweep_at_zero_negates_free_spins model_h model_J model_adj
           model_clamped_spins model_colors (fun _ => -1)).
  - exact model_well_formed.
  - apply (bool_decide_unpack _). vm_compute. exact I.
  - intros k. lra.
  - apply (bool_decide_unpack _). vm_compute. exact I.
Defined.

End AnnealFacts.
